(** * fetchit: the change-tracking and resumable-apply engine

    A shallow embedding of [pkg/engine/apply.go]: the state tags kept in the
    local clone, the filtered change map between two commits, the concurrent
    dispatch of a change map to the engine method, and the catch-up entry
    points built from them.

    Go's [error] is [option Error] ([None] is [nil]); a function returning
    [(T, error)] returns [Error + T].  Functions that touch the clone or the
    host take the [World] and return the new one. *)

From Stdlib Require Import NArith Ascii String Strings.Byte List Bool Lia.
From stdpp Require Import base option list gmap strings.

Local Open Scope string_scope.
Local Open Scope list_scope.

(** ** Errors *)

(** The error values the engine tells apart ([err == git.ErrTagNotFound],
    [err == git.ErrTagExists]), the ones it only passes on, [errors.New] and
    [utils.WrapErr].  [WrapErr] keeps the cause and the format string; the
    formatted arguments are not rendered. *)
Inductive Error : Type :=
| ErrTagNotFound
| ErrTagExists
| ErrRepositoryNotExists
| ErrStorage
| ErrObjectNotFound
| ErrDirectoryNotFound
| ErrExternal (msg : string)
| errors_New (msg : string)
| WrapErr (err : Error) (msg : string).

#[global] Instance Error_eq_dec : EqDecision Error.
Proof. solve_decision. Defined.

Abbreviation error := (option Error).

(** [err != nil && err != sentinel] *)
Definition failed_other_than (sentinel : Error) (err : error) : bool :=
  match err with
  | None => false
  | Some e => negb (bool_decide (e = sentinel))
  end.

(** ** Commit references *)

(** [plumbing.Hash] is [[20]byte]; the bytes are read as one number, so
    [plumbing.Hash{}] is [0] and [h != h'] is inequality of numbers. *)
Abbreviation Hash := N.

Definition IsZero (h : Hash) : bool := (h =? 0)%N.

(** Modelled from the spec: the package variable [zeroHash] is declared
    outside [apply.go]; it is the distinguished "zero" commit reference that
    denotes "no history". *)
Definition zeroHash : Hash := 0%N.

(** ** Targets, methods and changes *)

(** The fields of [Target] and [SingleMethodObj] that [apply.go] reads. *)
Record Target : Type := mkTarget {
  Name : string;
  Url : string;
  Branch : string
}.

Record SingleMethodObj : Type := mkSingleMethodObj {
  mo_Target : Target;
  mo_Method : string
}.

(** [object.ChangeEntry] and [object.Change]; only the names are read. *)
Record ChangeEntry : Type := mkChangeEntry { ce_Name : string }.

Record Change : Type := mkChange {
  From : ChangeEntry;
  To : ChangeEntry
}.

#[global] Instance ChangeEntry_eq_dec : EqDecision ChangeEntry.
Proof. solve_decision. Defined.

#[global] Instance Change_eq_dec : EqDecision Change.
Proof. solve_decision. Defined.

(** [map[*object.Change]string].  The keys are the addresses of the changes
    of one diff, so no two entries of the diff share a key and every
    assignment [changeMap[change] = path] adds an entry.  The list keeps the
    entries in the order of the diff; Go iterates the map in an unspecified
    order. *)
Abbreviation ChangeMap := (list (Change * string)).

(** ** External collaborators *)

(** What the engine calls but does not define: the tree and diff operations
    of go-git, the glob library, the two [path/filepath] functions, the
    [deleteFile] sentinel and the method dispatcher [EngineMethod], which
    acts on the host. *)
Class Collaborators : Type := {
  Tree : Type;
  Glob : Type;
  Host : Type;
  (** [&object.Tree{}] *)
  emptyTree : Tree;
  (** [tree.Tree(path)] *)
  Tree_Tree : Tree -> string -> Error + Tree;
  (** [tree.Diff(to)] *)
  Tree_Diff : Tree -> Tree -> Error + list Change;
  (** [glob.Compile(pattern)] and [g.Match(name)] *)
  glob_Compile : string -> Error + Glob;
  glob_Match : Glob -> string -> bool;
  filepath_Base : string -> string;
  filepath_Join : list string -> string;
  deleteFile : string;
  EngineMethod : SingleMethodObj -> string -> Change -> Host -> Host * error
}.

(** ** [strings.HasSuffix] and [checkTag] *)

Definition HasSuffix (s suffix : string) : bool :=
  (String.length suffix <=? String.length s)%nat &&
  String.eqb
    (String.substring (String.length s - String.length suffix)
                      (String.length suffix) s)
    suffix.

(** The loop of [checkTag] over [*tags]. *)
Fixpoint anySuffix (tags : list string) (name : string) : bool :=
  match tags with
  | [] => false
  | suffix :: rest => if HasSuffix name suffix then true else anySuffix rest name
  end.

(** [tags] is a pointer to a slice: [None] is the nil pointer. *)
Definition checkTag (tags : option (list string)) (name : string) : bool :=
  match tags with
  | None => true
  | Some l => anySuffix l name
  end.

Section Engine.

Context `{C : Collaborators}.

(** ** The clone and its tags *)

(** A repository as go-git opens it: the lightweight tags, the commits with
    the hash of their tree, the trees, and whether the reference storage
    fails (every reference operation then returns [ErrStorage]). *)
Record Repository : Type := mkRepository {
  tags : gmap string Hash;
  commits : gmap Hash Hash;
  trees : gmap Hash Tree;
  storage_fails : bool
}.

(** The machine: the clones by directory, the host the methods act on, and
    the change maps handed to the dispatcher so far. *)
Record World : Type := mkWorld {
  repos : gmap string Repository;
  host : Host;
  dispatched : list ChangeMap
}.

Definition with_tags (r : Repository) (t : gmap string Hash) : Repository :=
  mkRepository t (commits r) (trees r) (storage_fails r).

Definition with_repo (w : World) (directory : string) (r : Repository) : World :=
  mkWorld (<[directory := r]> (repos w)) (host w) (dispatched w).

(** [git.PlainOpen(directory)] *)
Definition PlainOpen (w : World) (directory : string) : Error + Repository :=
  match repos w !! directory with
  | Some r => inr r
  | None => inl ErrRepositoryNotExists
  end.

(** [repo.Tag(name)]: [ErrTagNotFound] when there is no such tag. *)
Definition Repository_Tag (r : Repository) (name : string) : Error + Hash :=
  if storage_fails r then inl ErrStorage
  else match tags r !! name with
       | Some h => inr h
       | None => inl ErrTagNotFound
       end.

(** [repo.DeleteTag(name)]: looks the tag up, then removes the reference. *)
Definition Repository_DeleteTag (r : Repository) (name : string)
  : Repository * error :=
  match Repository_Tag r name with
  | inl err => (r, Some err)
  | inr _ => (with_tags r (delete name (tags r)), None)
  end.

(** [repo.CreateTag(name, hash, nil)]: [ErrTagExists] when the tag is there,
    and the tag is then left as it was. *)
Definition Repository_CreateTag (r : Repository) (name : string) (hash : Hash)
  : Repository * error :=
  if storage_fails r then (r, Some ErrStorage)
  else match tags r !! name with
       | Some _ => (r, Some ErrTagExists)
       | None => (with_tags r (<[name := hash]> (tags r)), None)
       end.

(** [repo.CommitObject(hash)] followed by [commit.Tree()] *)
Definition Repository_CommitObject (r : Repository) (hash : Hash) : Error + Hash :=
  match commits r !! hash with
  | Some t => inr t
  | None => inl ErrObjectNotFound
  end.

Definition Commit_Tree (r : Repository) (treeHash : Hash) : Error + Tree :=
  match trees r !! treeHash with
  | Some t => inr t
  | None => inl ErrObjectNotFound
  end.

Definition currentTag (method : string) : string := "current-" +:+ method.
Definition progressTag (method : string) : string := "progress-" +:+ method.

(** The tag [name] of the clone in [directory], if the clone and the tag exist. *)
Definition tag_of (w : World) (directory name : string) : option Hash :=
  r ← repos w !! directory; tags r !! name.

(** ** The state tags *)

(** [GetCurrent]: the commit of [current-<method>], the zero hash when the
    tag is absent.  On an error Go returns the zero hash next to it; the sum
    keeps the error only. *)
Definition GetCurrent (target : Target) (method : string) (w : World)
  : Error + Hash :=
  let directory := filepath_Base (Url target) in
  let tagName := currentTag method in
  match PlainOpen w directory with
  | inl err => inl (WrapErr err "Error opening repository: %s")
  | inr repo =>
      match Repository_Tag repo tagName with
      | inl err =>
          if bool_decide (err = ErrTagNotFound) then inr 0%N
          else inl (WrapErr err "Error getting reference to current tag")
      | inr h => inr h
      end
  end.

(** [UpdateCurrent]: delete the old tag, then create the new one. *)
Definition UpdateCurrent (target : Target) (method : string)
    (newCurrent : Hash) (w : World) : World * error :=
  let directory := filepath_Base (Url target) in
  let tagName := currentTag method in
  match PlainOpen w directory with
  | inl err => (w, Some (WrapErr err "Error opening repository: %s"))
  | inr repo =>
      let '(repo1, err) := Repository_DeleteTag repo tagName in
      let w1 := with_repo w directory repo1 in
      if failed_other_than ErrTagNotFound err
      then (w1, option_map (fun e => WrapErr e "Error deleting old current tag") err)
      else
        let '(repo2, err) := Repository_CreateTag repo1 tagName newCurrent in
        let w2 := with_repo w directory repo2 in
        match err with
        | Some e => (w2, Some (WrapErr e "Error creating new current tag with hash %s"))
        | None => (w2, None)
        end
  end.

(** [GetInProgress]: the commit of [progress-<method>], the zero hash when
    the tag is absent. *)
Definition GetInProgress (target : Target) (method : string) (w : World)
  : Error + Hash :=
  let directory := filepath_Base (Url target) in
  let tagName := progressTag method in
  match PlainOpen w directory with
  | inl err => inl (WrapErr err "Error opening repository: %s")
  | inr repo =>
      match Repository_Tag repo tagName with
      | inl err =>
          if bool_decide (err = ErrTagNotFound) then inr 0%N
          else inl (WrapErr err "Error getting in progress tag")
      | inr h => inr h
      end
  end.

(** [CreateInProgress]: create the tag; [ErrTagExists] is not a failure. *)
Definition CreateInProgress (target : Target) (method : string)
    (latest : Hash) (w : World) : World * error :=
  let directory := filepath_Base (Url target) in
  let tagName := progressTag method in
  match PlainOpen w directory with
  | inl err => (w, Some (WrapErr err "Error opening repository: %s"))
  | inr repo =>
      let '(repo1, err) := Repository_CreateTag repo tagName latest in
      let w1 := with_repo w directory repo1 in
      if failed_other_than ErrTagExists err
      then (w1, option_map (fun e => WrapErr e "Error creating progress tag with hash %s") err)
      else (w1, None)
  end.

(** [DeleteInProgress]: delete the tag; [ErrTagNotFound] is not a failure. *)
Definition DeleteInProgress (target : Target) (method : string) (w : World)
  : World * error :=
  let directory := filepath_Base (Url target) in
  let tagName := progressTag method in
  match PlainOpen w directory with
  | inl err => (w, Some (WrapErr err "Error opening repository: %s"))
  | inr repo =>
      let '(repo1, err) := Repository_DeleteTag repo tagName in
      let w1 := with_repo w directory repo1 in
      if failed_other_than ErrTagNotFound err
      then (w1, option_map (fun e => WrapErr e "Error deleting progress tag") err)
      else (w1, None)
  end.

(** ** The change selector *)

(** [getSubTreeFromHash]: the empty tree for the zero hash, else the tree of
    the commit restricted to [subDir]. *)
Definition getSubTreeFromHash (w : World) (directory : string) (hash : Hash)
    (subDir : string) : Error + Tree :=
  if IsZero hash then inr emptyTree
  else
    match PlainOpen w directory with
    | inl err => inl (WrapErr err "Error opening repository: %s")
    | inr repo =>
        match Repository_CommitObject repo hash with
        | inl err => inl (WrapErr err "Error getting commit at hash %s from repo %s")
        | inr commit =>
            match Commit_Tree repo commit with
            | inl err =>
                inl (WrapErr err "Error getting tree from commit at hash %s from repo %s")
            | inr tree =>
                match Tree_Tree tree subDir with
                | inl err => inl (WrapErr err "Error getting sub tree at path %s")
                | inr subDirTree => inr subDirTree
                end
            end
        end
    end.

(** The test of the first branch of the loop of [getFilteredChangeMap]. *)
Definition keepTo (tags : option (list string)) (g : Glob) (change : Change) : bool :=
  negb (String.eqb (ce_Name (To change)) "")
  && checkTag tags (ce_Name (To change))
  && glob_Match g (ce_Name (To change)).

(** The test of its [else if] branch: the suffixes are checked on the
    "from" name, the glob on the "to" name. *)
Definition keepFrom (tags : option (list string)) (g : Glob) (change : Change) : bool :=
  negb (String.eqb (ce_Name (From change)) "")
  && checkTag tags (ce_Name (From change))
  && glob_Match g (ce_Name (To change)).

(** One iteration of the loop.  The call of [checkTag] inside the second
    branch has no effect and is left out. *)
Definition addChange (directory targetPath : string) (tags : option (list string))
    (g : Glob) (changeMap : ChangeMap) (change : Change) : ChangeMap :=
  if keepTo tags g change then
    changeMap ++ [(change, filepath_Join [directory; targetPath; ce_Name (To change)])]
  else if keepFrom tags g change then
    changeMap ++ [(change, deleteFile)]
  else changeMap.

Definition filterChanges (directory targetPath : string)
    (tags : option (list string)) (g : Glob) (changes : list Change) : ChangeMap :=
  fold_left (addChange directory targetPath tags g) changes [].

Definition getFilteredChangeMap (directory targetPath : string)
    (currentTree desiredTree : Tree) (tags : option (list string))
    (globPattern : option string) : Error + ChangeMap :=
  let compiled :=
    match globPattern with
    | None =>
        match glob_Compile "**" with
        | inl err => inl (WrapErr err "Error compiling glob for pattern %s")
        | inr g => inr g
        end
    | Some pattern =>
        match glob_Compile pattern with
        | inl err => inl (WrapErr err "Error compiling glob for pattern %s")
        | inr g => inr g
        end
    end in
  match compiled with
  | inl err => inl err
  | inr g =>
      match Tree_Diff currentTree desiredTree with
      | inl err => inl (WrapErr err "Error getting diff between current and latest")
      | inr changes => inr (filterChanges directory targetPath tags g changes)
      end
  end.

(** ** The concurrent dispatcher *)

(** [runChangesConcurrent] starts one goroutine per entry of the change map
    and then receives from the unbuffered channel [ch].  A goroutine is
    about to call [EngineMethod], or blocked at [ch <- err] with the wrapped
    error, or blocked at [ch <- nil], or has returned. *)
Inductive Goroutine : Type :=
| GoReady (changePath : string) (change : Change)
| GoSendErr (err : Error)
| GoSendNil
| GoExit.

(** The caller: inside the receive loop with that many iterations left, or
    returned. *)
Inductive Coordinator : Type :=
| Receiving (remaining : nat)
| Returned (err : error).

(** [for range changeMap] with [k] iterations left. *)
Definition receiveLoop (k : nat) : Coordinator :=
  match k with
  | O => Returned None
  | S _ => Receiving k
  end.

(** The state of one dispatch.  [d_calls] records the calls of
    [EngineMethod] made so far with their results, [d_received] the values
    the caller has received from [ch]. *)
Record Dispatch : Type := mkDispatch {
  d_host : Host;
  d_tasks : list Goroutine;
  d_coord : Coordinator;
  d_calls : list (string * Change * error);
  d_received : list error
}.

(** Where the goroutine stands after [EngineMethod] returned [err]. *)
Definition afterMethod (err : error) : Goroutine :=
  match err with
  | Some e =>
      GoSendErr (WrapErr e "error running engine method for change from: %s to %s")
  | None => GoSendNil
  end.

(** Goroutine [i] takes its next step: it calls [EngineMethod] (taken as
    one step on the host), or its pending send meets a receive of the
    caller, who returns on an error and otherwise goes on with the loop.
    After [ch <- err] the goroutine goes on to [ch <- nil].  No step when
    the goroutine is blocked, has returned, or does not exist. *)
Definition step (mo : SingleMethodObj) (i : nat) (d : Dispatch) : option Dispatch :=
  match d_tasks d !! i with
  | Some (GoReady changePath change) =>
      let '(h, err) := EngineMethod mo changePath change (d_host d) in
      Some (mkDispatch h (<[i := afterMethod err]> (d_tasks d)) (d_coord d)
                       (d_calls d ++ [(changePath, change, err)])
                       (d_received d))
  | Some (GoSendErr e) =>
      match d_coord d with
      | Receiving (S k) =>
          Some (mkDispatch (d_host d) (<[i := GoSendNil]> (d_tasks d))
                           (Returned (Some e)) (d_calls d)
                           (d_received d ++ [Some e]))
      | _ => None
      end
  | Some GoSendNil =>
      match d_coord d with
      | Receiving (S k) =>
          Some (mkDispatch (d_host d) (<[i := GoExit]> (d_tasks d))
                           (receiveLoop k) (d_calls d)
                           (d_received d ++ [None]))
      | _ => None
      end
  | _ => None
  end.

(** The dispatch under a schedule, the list of the goroutines picked in
    turn, up to the return of the caller; a pick that cannot step is
    skipped. *)
Fixpoint run (mo : SingleMethodObj) (sched : list nat) (d : Dispatch) : Dispatch :=
  match d_coord d with
  | Returned _ => d
  | Receiving _ =>
      match sched with
      | [] => d
      | i :: rest => run mo rest (default d (step mo i d))
      end
  end.

Definition spawn (changeMap : ChangeMap) : list Goroutine :=
  map (fun entry => GoReady (snd entry) (fst entry)) changeMap.

Definition dispatch (changeMap : ChangeMap) (h : Host) : Dispatch :=
  mkDispatch h (spawn changeMap) (receiveLoop (length changeMap)) [] [].

(** What a call has come to: it returned [err], or the caller is still
    waiting when the schedule ends. *)
Inductive Outcome : Type :=
| Done (err : error)
| Waiting.

Definition runChangesConcurrent (sched : list nat) (mo : SingleMethodObj)
    (changeMap : ChangeMap) (w : World) : World * Outcome :=
  let d := run mo sched (dispatch changeMap (host w)) in
  let w' := mkWorld (repos w) (d_host d) (dispatched w ++ [changeMap]) in
  match d_coord d with
  | Returned err => (w', Done err)
  | Receiving _ => (w', Waiting)
  end.

(** ** Apply and the catch-up entry points *)

Definition Apply (sched : list nat) (mo : SingleMethodObj)
    (currentState desiredState : Hash) (targetPath : string)
    (tags : option (list string)) (globPattern : option string) (w : World)
  : World * Outcome :=
  if IsZero desiredState
  then (w, Done (Some (errors_New "Cannot run Apply if desired state is empty")))
  else
    let directory := filepath_Base (Url (mo_Target mo)) in
    match getSubTreeFromHash w directory currentState targetPath with
    | inl err =>
        (w, Done (Some (WrapErr err "Error getting sub tree from hash %s from repo %s")))
    | inr currentTree =>
    match getSubTreeFromHash w directory desiredState targetPath with
    | inl err =>
        (w, Done (Some (WrapErr err "Error getting sub tree from hash %s from repo %s")))
    | inr desiredTree =>
    match getFilteredChangeMap directory targetPath currentTree desiredTree
                               tags globPattern with
    | inl err =>
        (w, Done (Some (WrapErr err "Error getting filtered change map from %s to %s")))
    | inr changeMap =>
        match runChangesConcurrent sched mo changeMap w with
        | (w1, Done (Some err)) =>
            (w1, Done (Some (WrapErr err
               "Error applying change from %s to %s for path %s in %s")))
        | (w1, Done None) => (w1, Done None)
        | (w1, Waiting) => (w1, Waiting)
        end
    end end end.

Definition CatchUpCurrent (sched : list nat) (mo : SingleMethodObj)
    (current : Hash) (targetPath : string) (tags : option (list string))
    (globPattern : option string) (w : World) : World * Outcome :=
  match Apply sched mo zeroHash current targetPath tags globPattern w with
  | (w1, Done (Some err)) => (w1, Done (Some (WrapErr err "Failed to apply changes")))
  | (w1, Done None) => (w1, Done None)
  | (w1, Waiting) => (w1, Waiting)
  end.

(** The last statement of [CatchUpProgress]. *)
Definition deleteProgress (mo : SingleMethodObj) (w : World) : World * Outcome :=
  match DeleteInProgress (mo_Target mo) (mo_Method mo) w with
  | (w1, Some err) => (w1, Done (Some (WrapErr err "Failed to delete progress")))
  | (w1, None) => (w1, Done None)
  end.

Definition CatchUpProgress (sched : list nat) (mo : SingleMethodObj)
    (current progress : Hash) (targetPath : string)
    (tags : option (list string)) (globPattern : option string) (w : World)
  : World * Outcome :=
  if negb (progress =? current)%N then
    match Apply sched mo current progress targetPath tags globPattern w with
    | (w1, Waiting) => (w1, Waiting)
    | (w1, Done (Some err)) =>
        match DeleteInProgress (mo_Target mo) (mo_Method mo) w1 with
        | (w2, Some err') => (w2, Done (Some (WrapErr err' "Failed to delete progress")))
        | (w2, None) =>
            (w2, Done (Some (WrapErr err "Failed to apply from current to in progress")))
        end
    | (w1, Done None) =>
        match UpdateCurrent (mo_Target mo) (mo_Method mo) progress w1 with
        | (w2, Some err) =>
            (w2, Done (Some (WrapErr err "Failed to update current to progress")))
        | (w2, None) => deleteProgress mo w2
        end
    end
  else deleteProgress mo w.

Definition CatchUpLatest (sched : list nat) (mo : SingleMethodObj)
    (current latest : Hash) (targetPath : string)
    (tags : option (list string)) (globPattern : option string) (w : World)
  : World * Outcome :=
  match CreateInProgress (mo_Target mo) (mo_Method mo) latest w with
  | (w1, Some err) => (w1, Done (Some (WrapErr err "Failed to create progress tag")))
  | (w1, None) =>
      match Apply sched mo current latest targetPath tags globPattern w1 with
      | (w2, Waiting) => (w2, Waiting)
      | (w2, Done (Some err)) =>
          match DeleteInProgress (mo_Target mo) (mo_Method mo) w2 with
          | (w3, Some err') =>
              (w3, Done (Some (WrapErr err' "Error deleting progress tag")))
          | (w3, None) => (w3, Done (Some (WrapErr err "Failed to apply changes")))
          end
      | (w2, Done None) =>
          match UpdateCurrent (mo_Target mo) (mo_Method mo) latest w2 with
          | (w3, Some err) => (w3, Done (Some (WrapErr err "Error updating current tag")))
          | (w3, None) =>
              match DeleteInProgress (mo_Target mo) (mo_Method mo) w3 with
              | (w4, Some err) =>
                  (w4, Done (Some (WrapErr err "Error deleting progress tag")))
              | (w4, None) => (w4, Done None)
              end
          end
      end
  end.

End Engine.

(** ** Observations on a world *)

Section Observations.

Context `{C : Collaborators}.

(** The clone in [directory] opens and its reference storage works. *)
Definition accessible (w : World) (directory : string) : bool :=
  match repos w !! directory with
  | Some r => negb (storage_fails r)
  | None => false
  end.

(** The clone directory of a method object, as every function of
    [apply.go] computes it. *)
Definition cloneDir (mo : SingleMethodObj) : string :=
  filepath_Base (Url (mo_Target mo)).

Definition currentOf (w : World) (mo : SingleMethodObj) : option Hash :=
  tag_of w (cloneDir mo) (currentTag (mo_Method mo)).

Definition progressOf (w : World) (mo : SingleMethodObj) : option Hash :=
  tag_of w (cloneDir mo) (progressTag (mo_Method mo)).

(** The filename the policy is stated on, in the words of the
    specification: the "to" name, and the "from" name for a pure deletion. *)
Definition policyName (change : Change) : string :=
  if String.eqb (ce_Name (To change)) "" then ce_Name (From change)
  else ce_Name (To change).

(** What a tag operation leaves behind: the clone is still accessible, the
    tags of [directory] are those of [w] with [name] set to [v], and the
    host and the dispatch record are untouched. *)
Definition tags_updated (w w' : World) (directory name : string)
    (v : option Hash) : Prop :=
  accessible w' directory = true /\
  (forall n, tag_of w' directory n =
             if decide (n = name) then v else tag_of w directory n) /\
  host w' = host w /\ dispatched w' = dispatched w.

(** What one diff entry contributes to the change map. *)
Definition selected (directory targetPath : string) (tags : option (list string))
    (g : Glob) (change : Change) : ChangeMap :=
  addChange directory targetPath tags g [] change.

(** The number of elements of [l] that satisfy [P]. *)
Fixpoint count {A : Type} (P : A -> bool) (l : list A) : nat :=
  match l with
  | [] => 0
  | x :: rest => (if P x then 1 else 0) + count P rest
  end.

Definition isReady (g : Goroutine) : bool :=
  match g with GoReady _ _ => true | _ => false end.

Definition isSendErr (g : Goroutine) : bool :=
  match g with GoSendErr _ => true | _ => false end.

Definition isExit (g : Goroutine) : bool :=
  match g with GoExit => true | _ => false end.

Definition callFailed (call : string * Change * error) : bool :=
  match snd call with Some _ => true | None => false end.

(** The error [e] is the wrapped error of a recorded call. *)
Definition reported (d : Dispatch) (e : Error) : Prop :=
  exists changePath change e0,
    In (changePath, change, Some e0) (d_calls d) /\
    e = WrapErr e0 "error running engine method for change from: %s to %s".

(** A goroutine blocked at [ch <- err] holds the error of a recorded call. *)
Definition traced (d : Dispatch) : Prop :=
  Forall (fun g => forall e, g = GoSendErr e -> reported d e) (d_tasks d).

(** While the caller has received no error: it has received one [nil] from
    each goroutine that returned, every goroutine past its call is
    recorded, and the failed calls are those of the goroutines blocked at
    [ch <- err]. *)
Definition quiet (n : nat) (d : Dispatch) : Prop :=
  length (d_tasks d) = n /\
  count isExit (d_tasks d) = length (d_received d) /\
  d_received d = replicate (length (d_received d)) None /\
  length (d_calls d) + count isReady (d_tasks d) = n /\
  count callFailed (d_calls d) = count isSendErr (d_tasks d).

(** The invariant of a dispatch of [n] goroutines: before any error is
    received the state is [quiet]; the error the caller returned was
    reported by a call and came after [nil]s only. *)
Definition dispatch_inv (n : nat) (d : Dispatch) : Prop :=
  traced d /\
  match d_coord d with
  | Receiving k => 0 < k /\ length (d_received d) + k = n /\ quiet n d
  | Returned None => length (d_received d) = n /\ quiet n d
  | Returned (Some e) =>
      exists j, j < n /\ d_received d = (replicate j None ++ [Some e])%list /\
                reported d e /\ count isExit (d_tasks d) = j
  end.

(** Each goroutine in turn, twice: its call and its first send. *)
Definition eachInTurn (first n : nat) : list nat :=
  flat_map (fun i => [i; i]) (seq first n).

End Observations.

(** ** A small instance of the collaborators

    Trees are flat lists of file names with the hash of their content; the
    diff reports deletions, modifications, renames of unchanged content and
    insertions.  A glob is ["**"], ["*"] followed by a suffix, or a literal
    name.  The host is the log of the changes applied to it, and a method
    fails on a file whose name ends in [".bad"]. *)
Module Demo.

Definition FlatTree : Type := list (string * Hash).

Definition hasName (t : FlatTree) (name : string) : bool :=
  existsb (fun e => String.eqb (fst e) name) t.

Definition blobOf (t : FlatTree) (name : string) : option Hash :=
  snd <$> find (fun e => String.eqb (fst e) name) t.

(** The entries below [path ++ "/"], with that prefix removed. *)
Definition subTree (t : FlatTree) (path : string) : Error + FlatTree :=
  let prefix := path +:+ "/" in
  let n := String.length prefix in
  let below := filter (fun e => String.prefix prefix (fst e) = true) t in
  match below with
  | [] => inl ErrDirectoryNotFound
  | _ =>
      inr (map (fun e => (String.substring n (String.length (fst e) - n) (fst e), snd e))
               below)
  end.

(** Where the content of a file that left [a] went in [b], if anywhere new. *)
Definition movedTo (a b : FlatTree) (h : Hash) : option string :=
  fst <$> find (fun e => (snd e =? h)%N && negb (hasName a (fst e))) b.

Definition movedFrom (a b : FlatTree) (h : Hash) : bool :=
  existsb (fun e => (snd e =? h)%N && negb (hasName b (fst e))) a.

Definition leaving (a b : FlatTree) (e : string * Hash) : list Change :=
  match blobOf b (fst e) with
  | Some h' =>
      if (h' =? snd e)%N then []
      else [mkChange (mkChangeEntry (fst e)) (mkChangeEntry (fst e))]
  | None =>
      match movedTo a b (snd e) with
      | Some name => [mkChange (mkChangeEntry (fst e)) (mkChangeEntry name)]
      | None => [mkChange (mkChangeEntry (fst e)) (mkChangeEntry "")]
      end
  end.

Definition entering (a b : FlatTree) (e : string * Hash) : list Change :=
  if hasName a (fst e) || movedFrom a b (snd e) then []
  else [mkChange (mkChangeEntry "") (mkChangeEntry (fst e))].

Definition diff (a b : FlatTree) : Error + list Change :=
  inr (flat_map (leaving a b) a ++ flat_map (entering a b) b)%list.

Definition compile (pattern : string) : Error + string :=
  if String.eqb pattern "[" then inl (ErrExternal "unexpected end of input")
  else inr pattern.

Definition matches (g name : string) : bool :=
  if String.eqb g "**" then true
  else match g with
       | String "*"%char suffix => HasSuffix name suffix
       | _ => String.eqb g name
       end.

Fixpoint baseFrom (acc s : string) : string :=
  match s with
  | EmptyString => acc
  | String c rest =>
      if Ascii.eqb c "/"%char then baseFrom "" rest
      else baseFrom (acc +:+ String c "") rest
  end.

Fixpoint joinPath (elems : list string) : string :=
  match elems with
  | [] => ""
  | e :: rest =>
      if String.eqb e "" then joinPath rest
      else let r := joinPath rest in
           if String.eqb r "" then e else e +:+ "/" +:+ r
  end.

Definition method (mo : SingleMethodObj) (changePath : string) (change : Change)
    (h : list (string * Change)) : list (string * Change) * error :=
  ((h ++ [(changePath, change)])%list,
   if HasSuffix (ce_Name (To change)) ".bad"
   then Some (ErrExternal "method failed") else None).

Definition collaborators : Collaborators := {|
  Tree := FlatTree;
  Glob := string;
  Host := list (string * Change);
  emptyTree := [];
  Tree_Tree := subTree;
  Tree_Diff := diff;
  glob_Compile := compile;
  glob_Match := matches;
  filepath_Base := baseFrom "";
  filepath_Join := joinPath;
  deleteFile := "delete";
  EngineMethod := method
|}.

#[local] Existing Instance collaborators.

Definition target : Target := mkTarget "demo" "https://example.org/repo" "main".
Definition mo : SingleMethodObj := mkSingleMethodObj target "raw".

(** Commit [1] holds [units/a.yaml], commit [2] renames it to [units/b.txt]
    and adds [units/c.bad], commit [3] has [units/a.yaml] and
    [units/d.yaml]. *)
Definition repo (t : gmap string Hash) (fails : bool) : Repository :=
  mkRepository t
    (<[1%N := 11%N]> (<[2%N := 12%N]> (<[3%N := 13%N]> ∅)))
    (<[11%N := [("units/a.yaml", 100%N)]]>
       (<[12%N := [("units/b.txt", 100%N); ("units/c.bad", 101%N)]]>
          (<[13%N := [("units/a.yaml", 100%N); ("units/d.yaml", 102%N)]]> ∅)))
    fails.

Definition world (t : gmap string Hash) : World :=
  mkWorld (<["repo" := repo t false]> ∅) [] [].

End Demo.

(** ** Further observations on a dispatch *)

Section DispatchObservations.

Context `{C : Collaborators}.

(** How far a goroutine has come: before its call, at a send, returned. *)
Definition rank (g : Goroutine) : nat :=
  match g with
  | GoReady _ _ => 0
  | GoSendErr _ | GoSendNil => 1
  | GoExit => 2
  end.

(** The entry of the change map a recorded call was made for. *)
Definition callEntry (call : string * Change * error) : Change * string :=
  (snd (fst call), fst (fst call)).

(** The entries of the goroutines that have not made their call yet. *)
Definition readyEntries (tasks : list Goroutine) : ChangeMap :=
  flat_map (fun g => match g with
                     | GoReady changePath change => [(change, changePath)]
                     | _ => []
                     end) tasks.

(** The goroutines go on after the caller has returned: the steps of a
    schedule taken whatever the state of the caller. *)
Fixpoint afterwards (mo : SingleMethodObj) (sched : list nat) (d : Dispatch)
  : Dispatch :=
  match sched with
  | [] => d
  | i :: rest => afterwards mo rest (default d (step mo i d))
  end.

End DispatchObservations.


(** ** The deployment methods: [raw.go] and [systemd.go]

    The methods act on the host through podman and the file system.  What
    they call there is taken as given ([Podman]); the state behind it is
    [Pod].  A [MethodWorld] is that state with the environment variables of
    the process and the record of the calls made, in order. *)

Record Mount : Type := mkMount {
  Source : string;
  Destination : string;
  mt_Type : string;
  Options : list string
}.

Record PortMapping : Type := mkPortMapping {
  HostIP : string;
  ContainerPort : N;
  HostPort : N;
  Range : N;
  Protocol : string
}.

Record NamedVolume : Type := mkNamedVolume {
  nv_Name : string;
  nv_Dest : string;
  nv_Options : list string
}.

Record Namespace : Type := mkNamespace {
  NSMode : string;
  ns_Value : string
}.

(** [RawPod], the description of a container read from a file. *)
Record RawPod : Type := mkRawPod {
  rp_Image : string;
  rp_Name : string;
  rp_Env : gmap string string;
  rp_Ports : list PortMapping;
  rp_Mounts : list Mount;
  rp_Volumes : list NamedVolume
}.

(** The fields of [specgen.SpecGenerator] that the methods set. *)
Record SpecGenerator : Type := mkSpecGenerator {
  sg_Image : string;
  sg_Name : string;
  sg_Env : gmap string string;
  sg_Mounts : list Mount;
  sg_PortMappings : list PortMapping;
  sg_Volumes : list NamedVolume;
  sg_RestartPolicy : string;
  sg_Privileged : bool;
  sg_PidNS : Namespace
}.

(** [specgen.NewSpecGenerator(image, false)]: the image is set and every
    other field has its zero value. *)
Definition NewSpecGenerator (image : string) : SpecGenerator :=
  mkSpecGenerator image "" ∅ [] [] [] "" false (mkNamespace "" "").

(** The fields of [FileMountOptions] that [rawPodman] reads;
    [fm_PullImage] is [mo.Target.Raw.PullImage]. *)
Record FileMountOptions : Type := mkFileMountOptions {
  fm_Path : string;
  fm_Previous : option string;
  fm_PullImage : bool
}.

(** The fields of [Systemd], with those of its [CommonMethod], that
    [MethodEngine], [systemdPodman], [enableRestartSystemdService] and
    [Process] read or write. *)
Record Systemd : Type := mkSystemd {
  sd_Name : string;
  sd_TargetPath : string;
  initialRun : bool;
  AutoUpdateAll : bool;
  Root : bool;
  Restart : bool;
  Enable : bool
}.

Definition set_Name (sd : Systemd) (v : string) : Systemd :=
  mkSystemd v (sd_TargetPath sd) (initialRun sd) (AutoUpdateAll sd) (Root sd)
            (Restart sd) (Enable sd).

Definition set_initialRun (sd : Systemd) (v : bool) : Systemd :=
  mkSystemd (sd_Name sd) (sd_TargetPath sd) v (AutoUpdateAll sd) (Root sd)
            (Restart sd) (Enable sd).

Definition set_Root (sd : Systemd) (v : bool) : Systemd :=
  mkSystemd (sd_Name sd) (sd_TargetPath sd) (initialRun sd) (AutoUpdateAll sd) v
            (Restart sd) (Enable sd).

Definition set_Restart (sd : Systemd) (v : bool) : Systemd :=
  mkSystemd (sd_Name sd) (sd_TargetPath sd) (initialRun sd) (AutoUpdateAll sd)
            (Root sd) v (Enable sd).

Definition set_Enable (sd : Systemd) (v : bool) : Systemd :=
  mkSystemd (sd_Name sd) (sd_TargetPath sd) (initialRun sd) (AutoUpdateAll sd)
            (Root sd) (Restart sd) v.

(** What the methods call but [raw.go] and [systemd.go] do not define: the
    podman bindings, the file read, the decoders, [bytes.TrimSpace], and
    the functions of the engine declared in other files.
    [containers_Inspect] tells whether the data it returns is non-nil. *)
Class Podman : Type := {
  Pod : Type;
  MethodTarget : Type;
  images_Exists : string -> Pod -> bool * error;
  images_Pull : string -> Pod -> Pod * error;
  containers_Stop : string -> Pod -> Pod * error;
  containers_Remove : string -> Pod -> Pod * error;
  containers_Inspect : string -> Pod -> bool * error;
  containers_CreateWithSpec : SpecGenerator -> Pod -> Pod * (Error + string);
  containers_Start : string -> Pod -> Pod * error;
  ioutil_ReadFile : string -> Pod -> Error + list byte;
  bytes_TrimSpace : list byte -> list byte;
  json_Unmarshal : list byte -> RawPod -> Error + RawPod;
  yaml_Unmarshal : list byte -> RawPod -> Error + RawPod;
  createAndStartContainer : SpecGenerator -> Pod -> Pod * (Error + string);
  waitAndRemoveContainer : string -> Pod -> Pod * error;
  fileTransferPodman :
    string -> string -> string -> option string -> Pod -> Pod * error;
  GetTarget : Systemd -> MethodTarget;
  getClone : MethodTarget -> string -> Pod -> Pod * error;
  currentToLatest :
    Systemd -> MethodTarget -> list string -> Pod -> Systemd * Pod * error
}.

(** The calls made to the host. *)
Inductive Event : Type :=
| EvExists (image : string)
| EvPull (image : string)
| EvStop (name : string)
| EvRemove (name : string)
| EvInspect (name : string)
| EvReadFile (path : string)
| EvCreateWithSpec (s : SpecGenerator)
| EvStart (id : string)
| EvSetenv (key value : string)
| EvCreateAndStart (s : SpecGenerator)
| EvWaitAndRemove (id : string)
| EvFileTransfer (name path dest : string) (prev : option string)
| EvGetClone
| EvCurrentToLatest (tag : list string).

(** How a call ends: it returns an error value, or it panics. *)
Inductive Completion : Type :=
| Returns (err : error)
| Panics.

(** The result of a function that returns a value and an error, or
    panics. *)
Inductive Result (A : Type) : Type :=
| Ok (a : A)
| Failed (err : Error)
| Panicked.

Arguments Ok {A} a.
Arguments Failed {A} err.
Arguments Panicked {A}.

Definition podmanAutoUpdate : string := "podman-autoupdate".
Definition podmanAutoUpdateService : string := "podman-auto-update.service".
Definition podmanAutoUpdateTimer : string := "podman-auto-update.timer".
Definition podmanServicePath : string := "/usr/lib/systemd/system".
Definition systemdPathRoot : string := "/etc/systemd/system".
Definition systemdImage : string := "quay.io/fetchit/fetchit-systemd-amd:latest".

(** [define.TypeBind] and [define.TypeTmpfs] *)
Definition TypeBind : string := "bind".
Definition TypeTmpfs : string := "tmpfs".

(** [strconv.FormatBool] *)
Definition FormatBool (b : bool) : string := if b then "true" else "false".

Section Methods.

Context `{C : Collaborators} `{P : Podman}.

Record MethodWorld : Type := mkMethodWorld {
  mw_env : gmap string string;
  mw_pod : Pod;
  mw_trace : list Event
}.

(** A call of the host: the new state of the host, with the call recorded. *)
Definition called (mw : MethodWorld) (p : Pod) (ev : Event) : MethodWorld :=
  mkMethodWorld (mw_env mw) p (mw_trace mw ++ [ev]).

(** [os.Getenv]: the empty string for a variable that is not set. *)
Definition Getenv (mw : MethodWorld) (key : string) : string :=
  default "" (mw_env mw !! key).

(** [os.Setenv] *)
Definition Setenv (key value : string) (mw : MethodWorld) : MethodWorld :=
  mkMethodWorld (<[key := value]> (mw_env mw)) (mw_pod mw)
                (mw_trace mw ++ [EvSetenv key value]).

(** *** [raw.go] *)

Definition createSpecGen (raw : RawPod) : SpecGenerator :=
  let s := NewSpecGenerator (rp_Image raw) in
  mkSpecGenerator (sg_Image s) (rp_Name raw) (rp_Env raw) (rp_Mounts raw)
                  (rp_Ports raw) (rp_Volumes raw) "always"
                  (sg_Privileged s) (sg_PidNS s).

(** [deleteContainer]: the result of [containers.Remove] is not assigned,
    so the test after it reads the error of [containers.Stop] again. *)
Definition deleteContainer (podName : string) (mw : MethodWorld)
  : MethodWorld * error :=
  let '(p1, err) := containers_Stop podName (mw_pod mw) in
  let mw1 := called mw p1 (EvStop podName) in
  match err with
  | Some e => (mw1, Some e)
  | None =>
      let '(p2, _) := containers_Remove podName (mw_pod mw1) in
      let mw2 := called mw1 p2 (EvRemove podName) in
      match err with
      | Some e => (mw2, Some e)
      | None => (mw2, None)
      end
  end.

Definition detectOrFetchImage (imageName : string) (force : bool)
    (mw : MethodWorld) : MethodWorld * error :=
  let '(present, err) := images_Exists imageName (mw_pod mw) in
  let mw1 := called mw (mw_pod mw) (EvExists imageName) in
  match err with
  | Some e => (mw1, Some e)
  | None =>
      if negb present || force then
        let '(p2, err) := images_Pull imageName (mw_pod mw1) in
        let mw2 := called mw1 p2 (EvPull imageName) in
        match err with
        | Some e => (mw2, Some e)
        | None => (mw2, None)
        end
      else (mw1, None)
  end.

(** [RawPod{Ports: []types.PortMapping{}}] *)
Definition emptyRawPod : RawPod := mkRawPod "" "" ∅ [] [] [].

(** [rawPodFromBytes]: [b[0]] panics when nothing is left after
    [bytes.TrimSpace]. *)
Definition rawPodFromBytes (b : list byte) : Result RawPod :=
  let b := bytes_TrimSpace b in
  let raw := emptyRawPod in
  match b with
  | [] => Panicked
  | first :: _ =>
      if Byte.eqb first "{"%byte then
        match json_Unmarshal b raw with
        | inl err => Failed (WrapErr err "Unable to unmarshal yaml")
        | inr raw' => Ok raw'
        end
      else
        match yaml_Unmarshal b raw with
        | inl err => Failed (WrapErr err "Unable to unmarshal yaml")
        | inr raw' => Ok raw'
        end
  end.

Definition removeExisting (podName : string) (mw : MethodWorld)
  : MethodWorld * error :=
  let '(inspectData, err) := containers_Inspect podName (mw_pod mw) in
  let mw1 := called mw (mw_pod mw) (EvInspect podName) in
  if bool_decide (err = None) || negb inspectData then
    match deleteContainer podName mw1 with
    | (mw2, Some e) => (mw2, Some e)
    | (mw2, None) => (mw2, None)
    end
  else (mw1, None).

(** The part of [rawPodman] after the test of the delete sentinel. *)
Definition rawPodmanCreate (mo : FileMountOptions) (mw : MethodWorld)
  : MethodWorld * Completion :=
  let mw1 := called mw (mw_pod mw) (EvReadFile (fm_Path mo)) in
  match ioutil_ReadFile (fm_Path mo) (mw_pod mw) with
  | inl err => (mw1, Returns (Some err))
  | inr rawFile =>
      match rawPodFromBytes rawFile with
      | Panicked => (mw1, Panics)
      | Failed err => (mw1, Returns (Some err))
      | Ok raw =>
          match detectOrFetchImage (rp_Image raw) (fm_PullImage mo) mw1 with
          | (mw2, Some err) => (mw2, Returns (Some err))
          | (mw2, None) =>
              match removeExisting (rp_Name raw) mw2 with
              | (mw3, Some err) => (mw3, Returns (Some err))
              | (mw3, None) =>
                  let s := createSpecGen raw in
                  let '(p4, created) := containers_CreateWithSpec s (mw_pod mw3) in
                  let mw4 := called mw3 p4 (EvCreateWithSpec s) in
                  match created with
                  | inl err => (mw4, Returns (Some err))
                  | inr id =>
                      let '(p5, err) := containers_Start id (mw_pod mw4) in
                      let mw5 := called mw4 p5 (EvStart id) in
                      match err with
                      | Some e => (mw5, Returns (Some e))
                      | None => (mw5, Returns None)
                      end
                  end
              end
          end
      end
  end.

Definition rawPodman (mo : FileMountOptions) (mw : MethodWorld)
  : MethodWorld * Completion :=
  let continue (mw0 : MethodWorld) :=
    if String.eqb (fm_Path mo) deleteFile then (mw0, Returns None)
    else rawPodmanCreate mo mw0 in
  match fm_Previous mo with
  | Some previous =>
      match rawPodFromBytes (list_byte_of_string previous) with
      | Panicked => (mw, Panics)
      | Failed err => (mw, Returns (Some err))
      | Ok raw =>
          match deleteContainer (rp_Name raw) mw with
          | (mw1, Some err) => (mw1, Returns (Some err))
          | (mw1, None) => continue mw1
          end
      end
  | None => continue mw
  end.

(** *** [systemd.go] *)

(** The specification [enableRestartSystemdService] builds, from [s :=
    specgen.NewSpecGenerator] to [s.Env = envMap]; [mw] is the world after
    [os.Setenv("ROOT", ...)]. *)
Definition systemdSpecGen (sd : Systemd) (action dest service : string)
    (mw : MethodWorld) : SpecGenerator :=
  let act := if String.eqb action "autoupdate" then "enable" else action in
  let s := NewSpecGenerator systemdImage in
  let runMounttmp := "/run" in
  let runMountc := "/sys/fs/cgroup" in
  let xdg :=
    if negb (Root sd) then
      let x := Getenv mw "XDG_RUNTIME_DIR" in
      if String.eqb x "" then "/run/user/1000" else x
    else "" in
  let runMountsd := if negb (Root sd) then xdg +:+ "/systemd" else "/run/systemd" in
  let common :=
    [mkMount dest dest TypeBind ["rw"];
     mkMount runMounttmp runMounttmp TypeTmpfs ["rw"];
     mkMount runMountc runMountc TypeBind ["ro"];
     mkMount runMountsd runMountsd TypeBind ["rw"]] in
  let mounts :=
    if String.eqb action "autoupdate"
    then mkMount podmanServicePath podmanServicePath TypeBind ["rw"] :: common
    else common in
  let envMap0 : gmap string string :=
    <["HOME" := Getenv mw "HOME"]>
      (<["ACTION" := act]>
         (<["SERVICE" := service]>
            (<["ROOT" := FormatBool (Root sd)]> ∅))) in
  let envMap :=
    if negb (Root sd) then <["XDG_RUNTIME_DIR" := xdg]> envMap0 else envMap0 in
  mkSpecGenerator (sg_Image s)
                  ("systemd-" +:+ act +:+ "-" +:+ service +:+ "-" +:+ sd_Name sd)
                  envMap mounts (sg_PortMappings s) (sg_Volumes s)
                  (sg_RestartPolicy s) true (mkNamespace "host" "").

Definition enableRestartSystemdService (sd : Systemd)
    (action dest service : string) (mw : MethodWorld) : MethodWorld * error :=
  match detectOrFetchImage systemdImage false mw with
  | (mw1, Some err) => (mw1, Some err)
  | (mw1, None) =>
      let mw2 := Setenv "ROOT" (FormatBool (Root sd)) mw1 in
      let s := systemdSpecGen sd action dest service mw2 in
      let '(p3, created) := createAndStartContainer s (mw_pod mw2) in
      let mw3 := called mw2 p3 (EvCreateAndStart s) in
      match created with
      | inl err => (mw3, Some err)
      | inr id =>
          let '(p4, err) := waitAndRemoveContainer id (mw_pod mw3) in
          let mw4 := called mw3 p4 (EvWaitAndRemove id) in
          match err with
          | Some e => (mw4, Some e)
          | None => (mw4, None)
          end
      end
  end.

(** The part of [systemdPodman] after the file transfer. *)
Definition systemdEnable (sd : Systemd) (path dest : string) (mw : MethodWorld)
  : MethodWorld * error :=
  if negb (Enable sd) then (mw, None)
  else if (Enable sd && negb (Restart sd)) || initialRun sd then
    if Enable sd
    then enableRestartSystemdService sd "enable" dest (filepath_Base path) mw
    else if Restart sd
         then enableRestartSystemdService sd "restart" dest (filepath_Base path) mw
         else (mw, None)
  else if Restart sd
       then enableRestartSystemdService sd "restart" dest (filepath_Base path) mw
       else (mw, None).

Definition systemdPodman (sd : Systemd) (path dest : string)
    (prev : option string) (mw : MethodWorld) : MethodWorld * error :=
  if AutoUpdateAll sd then
    if negb (initialRun sd) then (mw, None)
    else
      match enableRestartSystemdService sd "autoupdate" dest podmanAutoUpdateTimer mw with
      | (mw1, Some err) =>
          (mw1, Some (WrapErr err "Error running systemctl enable --now  %s"))
      | (mw1, None) =>
          enableRestartSystemdService sd "autoupdate" dest podmanAutoUpdateService mw1
      end
  else if initialRun sd then
    let '(p1, err) :=
      fileTransferPodman (sd_Name sd) path dest prev (mw_pod mw) in
    let mw1 := called mw p1 (EvFileTransfer (sd_Name sd) path dest prev) in
    match err with
    | Some e =>
        (mw1, Some (WrapErr e "Error deploying systemd %s file(s), Path: %s"))
    | None => systemdEnable sd path dest mw1
    end
  else systemdEnable sd path dest mw.

(** [MethodEngine]; [fmt.Errorf] is given as [errors_New]. *)
Definition MethodEngine (sd : Systemd) (change : option Change) (path : string)
    (mw : MethodWorld) : Systemd * MethodWorld * error :=
  let prev :=
    match change with
    | Some c =>
        if negb (String.eqb (ce_Name (To c)) "") then Some (ce_Name (To c))
        else None
    | None => None
    end in
  let nonRootHomeDir := Getenv mw "HOME" in
  if String.eqb nonRootHomeDir ""
  then (sd, mw,
        Some (errors_New "Could not determine $HOME for host, must set $HOME on host machine for non-root systemd method"))
  else
    let dest :=
      if Root sd then systemdPathRoot
      else filepath_Join [nonRootHomeDir; ".config"; "systemd"; "user"] in
    let sd1 :=
      match change with
      | Some _ => set_initialRun sd true
      | None => sd
      end in
    let '(mw1, err) := systemdPodman sd1 path dest prev mw in
    (sd1, mw1, err).

(** [Process], without the sleep and the lock of the target; errors are
    logged only. *)
Definition Process (sd : Systemd) (PAT : string) (mw : MethodWorld)
  : Systemd * MethodWorld :=
  let target := GetTarget sd in
  if AutoUpdateAll sd && negb (initialRun sd) then (sd, mw)
  else
    let sd1 :=
      if AutoUpdateAll sd
      then set_Name (set_Restart (set_Root (set_Enable sd true) true) false)
                    podmanAutoUpdate
      else sd in
    let tag := [".service"] in
    let sd2 := if Restart sd1 then set_Enable sd1 true else sd1 in
    let latest (mw0 : MethodWorld) :=
      let '(sd3, p, err) := currentToLatest sd2 target tag (mw_pod mw0) in
      let mw1 := called mw0 p (EvCurrentToLatest tag) in
      match err with
      | Some _ => (sd3, mw1)
      | None => (set_initialRun sd3 false, mw1)
      end in
    if initialRun sd2 then
      if AutoUpdateAll sd2 then
        let '(sd3, mw1, _) := MethodEngine sd2 None "" mw in
        (set_initialRun sd3 false, mw1)
      else
        let '(p, err) := getClone target PAT (mw_pod mw) in
        let mw1 := called mw p EvGetClone in
        match err with
        | Some _ => (sd2, mw1)
        | None => latest mw1
        end
    else latest mw.

(** The action [enableRestartSystemdService] passes to systemctl. *)
Definition systemctlAction (action : string) : string :=
  if String.eqb action "autoupdate" then "enable" else action.

(** The runtime directory of a user unit. *)
Definition runtimeDir (mw : MethodWorld) : string :=
  if String.eqb (Getenv mw "XDG_RUNTIME_DIR") "" then "/run/user/1000"
  else Getenv mw "XDG_RUNTIME_DIR".

End Methods.


(** ** A small instance of the host

    Containers and images are kept by name, files by path.  A container
    named ["stubborn"] cannot be stopped and one named ["pinned"] cannot be
    removed; an image under ["registry.invalid/"] cannot be pulled.  A file
    describes a container as [{name,image}] or as [name image]. *)
Module DemoPod.

Record State : Type := mkState {
  images : list string;
  containers : list string;
  files : list (string * string)
}.

Definition has (l : list string) (x : string) : bool :=
  existsb (String.eqb x) l.

Definition without (l : list string) (x : string) : list string :=
  List.filter (fun y => negb (String.eqb x y)) l.

Definition imageExists (image : string) (p : State) : bool * error :=
  (has (images p) image, None).

Definition pull (image : string) (p : State) : State * error :=
  if String.prefix "registry.invalid/" image
  then (p, Some (ErrExternal "pull failed"))
  else (mkState (image :: images p) (containers p) (files p), None).

Definition stop (name : string) (p : State) : State * error :=
  if String.eqb name "stubborn" then (p, Some (ErrExternal "cannot stop"))
  else if has (containers p) name then (p, None)
       else (p, Some (ErrExternal "no such container")).

Definition remove (name : string) (p : State) : State * error :=
  if String.eqb name "pinned" then (p, Some (ErrExternal "cannot remove"))
  else (mkState (images p) (without (containers p) name) (files p), None).

Definition inspect (name : string) (p : State) : bool * error :=
  if has (containers p) name then (true, None)
  else (true, Some (ErrExternal "no such container")).

Definition create (s : SpecGenerator) (p : State) : State * (Error + string) :=
  if has (containers p) (sg_Name s) then (p, inl (ErrExternal "name in use"))
  else (mkState (images p) (sg_Name s :: containers p) (files p),
        inr ("id-" +:+ sg_Name s)).

Definition start (id : string) (p : State) : State * error := (p, None).

Definition readFile (path : string) (p : State) : Error + list byte :=
  match find (fun f => String.eqb (fst f) path) (files p) with
  | Some f => inr (list_byte_of_string (snd f))
  | None => inl (ErrExternal "no such file")
  end.

Definition isSpace (b : byte) : bool :=
  Byte.eqb b " "%byte || Byte.eqb b "009"%byte || Byte.eqb b "010"%byte
  || Byte.eqb b "013"%byte.

Fixpoint trimLeft (b : list byte) : list byte :=
  match b with
  | c :: rest => if isSpace c then trimLeft rest else b
  | [] => []
  end.

Definition trimSpace (b : list byte) : list byte :=
  rev (trimLeft (rev (trimLeft b))).

(** The text before and after the first [sep]. *)
Fixpoint splitAt (sep : ascii) (s : string) : option (string * string) :=
  match s with
  | EmptyString => None
  | String c rest =>
      if Ascii.eqb c sep then Some ("", rest)
      else match splitAt sep rest with
           | Some (a, b) => Some (String c a, b)
           | None => None
           end
  end.

Definition named (parts : option (string * string)) (raw : RawPod)
  : Error + RawPod :=
  match parts with
  | Some (name, image) =>
      inr (mkRawPod image name (rp_Env raw) (rp_Ports raw) (rp_Mounts raw)
                    (rp_Volumes raw))
  | None => inl (ErrExternal "cannot decode")
  end.

Definition fromJSON (b : list byte) (raw : RawPod) : Error + RawPod :=
  let s := string_of_list_byte b in
  named (splitAt ","%char
           (String.substring 1 (String.length s - 2) s)) raw.

Definition fromYAML (b : list byte) (raw : RawPod) : Error + RawPod :=
  named (splitAt " "%char (string_of_list_byte b)) raw.

Definition createAndStart (s : SpecGenerator) (p : State)
  : State * (Error + string) :=
  (mkState (images p) (sg_Name s :: containers p) (files p),
   inr ("id-" +:+ sg_Name s)).

Definition waitAndRemove (id : string) (p : State) : State * error := (p, None).

Definition transfer (name path dest : string) (prev : option string) (p : State)
  : State * error :=
  (mkState (images p) (containers p) ((dest +:+ "/" +:+ path, name) :: files p),
   None).

Definition podman : Podman := {|
  Pod := State;
  MethodTarget := unit;
  images_Exists := imageExists;
  images_Pull := pull;
  containers_Stop := stop;
  containers_Remove := remove;
  containers_Inspect := inspect;
  containers_CreateWithSpec := create;
  containers_Start := start;
  ioutil_ReadFile := readFile;
  bytes_TrimSpace := trimSpace;
  json_Unmarshal := fromJSON;
  yaml_Unmarshal := fromYAML;
  createAndStartContainer := createAndStart;
  waitAndRemoveContainer := waitAndRemove;
  fileTransferPodman := transfer;
  GetTarget := fun _ => tt;
  getClone := fun _ _ p => (p, None);
  currentToLatest := fun sd _ _ p => (sd, p, None)
|}.

Local Existing Instance podman.
Local Existing Instance Demo.collaborators.

Definition machine : State :=
  mkState ["docker.io/library/nginx"] ["web"; "stubborn"; "pinned"]
          [("pods/web.json", "  {web,docker.io/library/nginx}  ");
           ("pods/db.yaml", "db docker.io/library/postgres");
           ("pods/blank.json", "   ")].

Definition world (env : gmap string string) : MethodWorld :=
  mkMethodWorld env machine [].

(** A unit that is placed and enabled, for a user. *)
Definition service : Systemd :=
  mkSystemd "units" "units" false false false false true.

End DemoPod.


(** ** The definitions on small inputs *)

Example HasSuffix_yaml : HasSuffix "units/a.yaml" ".yaml" = true.
Proof. reflexivity. Qed.

Example HasSuffix_longer : HasSuffix "yaml" "a.yaml" = false.
Proof. reflexivity. Qed.

Example HasSuffix_empty : HasSuffix "a.yaml" "" = true.
Proof. reflexivity. Qed.

Example checkTag_second : checkTag (Some [".service"; ".yaml"]) "a.yaml" = true.
Proof. reflexivity. Qed.

Example checkTag_none : checkTag (Some [".service"]) "a.yaml" = false.
Proof. reflexivity. Qed.

Example getSubTreeFromHash_commit_2 :
  getSubTreeFromHash (C := Demo.collaborators) (Demo.world ∅) "repo" 2%N "units"
  = inr [("b.txt", 100%N); ("c.bad", 101%N)].
Proof. reflexivity. Qed.

Example getSubTreeFromHash_unknown_commit :
  getSubTreeFromHash (C := Demo.collaborators) (Demo.world ∅) "repo" 9%N "units"
  = inl (WrapErr ErrObjectNotFound "Error getting commit at hash %s from repo %s").
Proof. reflexivity. Qed.

Example diff_rename_and_insert :
  Demo.diff [("a.yaml", 100%N)] [("b.txt", 100%N); ("c.bad", 101%N)]
  = inr [mkChange (mkChangeEntry "a.yaml") (mkChangeEntry "b.txt");
         mkChange (mkChangeEntry "") (mkChangeEntry "c.bad")].
Proof. reflexivity. Qed.

Example Apply_all_succeed :
  snd (Apply (C := Demo.collaborators) [1; 0; 1; 0] Demo.mo 1%N 3%N "units"
             (Some [".yaml"]) None (Demo.world ∅))
  = Done None.
Proof. reflexivity. Qed.

Example Apply_waits_for_second_signal :
  snd (Apply (C := Demo.collaborators) [0; 0; 1] Demo.mo 0%N 3%N "units"
             None None (Demo.world ∅))
  = Waiting.
Proof. reflexivity. Qed.

(** ** Properties of the state tags *)

Section TagStore.

Context `{C : Collaborators}.

Lemma currentTag_neq_progressTag (m m' : string) : currentTag m ≠ progressTag m'.
Proof. unfold currentTag, progressTag. intros H. simpl in H. discriminate H. Qed.

Lemma failed_other_than_same (e : Error) : failed_other_than e (Some e) = false.
Proof. unfold failed_other_than. by rewrite bool_decide_eq_true_2. Qed.

Lemma tag_of_with_repo (w : World) (directory : string) (r : Repository)
    (name : string) :
  tag_of (with_repo w directory r) directory name = tags r !! name.
Proof. unfold tag_of, with_repo. simpl. by rewrite lookup_insert_eq. Qed.

Lemma accessible_with_repo (w : World) (directory : string) (r : Repository) :
  accessible (with_repo w directory r) directory = negb (storage_fails r).
Proof. unfold accessible, with_repo. simpl. by rewrite lookup_insert_eq. Qed.

Lemma accessible_open (w : World) (directory : string) :
  accessible w directory = true ->
  exists r, repos w !! directory = Some r /\ storage_fails r = false.
Proof.
  unfold accessible. destruct (repos w !! directory) as [r|]; [|done].
  intros H. exists r. split; [done|]. by destruct (storage_fails r).
Qed.

Lemma DeleteInProgress_accessible (target : Target) (method : string) (w : World) :
  accessible w (filepath_Base (Url target)) = true ->
  exists w', DeleteInProgress target method w = (w', None) /\
    tags_updated w w' (filepath_Base (Url target)) (progressTag method) None.
Proof.
  intros Hacc. destruct (accessible_open _ _ Hacc) as (r & Hr & Hs).
  unfold DeleteInProgress, PlainOpen, Repository_DeleteTag, Repository_Tag.
  rewrite Hr, Hs.
  destruct (tags r !! progressTag method) as [h|] eqn:Ht.
  - eexists. split; [reflexivity|]. unfold tags_updated.
    rewrite accessible_with_repo. simpl. rewrite Hs. repeat split; try done.
    intros n. rewrite tag_of_with_repo. simpl. case_decide as Hn.
    + subst n. apply lookup_delete_eq.
    + rewrite lookup_delete_ne by done. unfold tag_of. by rewrite Hr.
  - rewrite failed_other_than_same.
    eexists. split; [reflexivity|]. unfold tags_updated.
    rewrite accessible_with_repo, Hs. repeat split; try done.
    intros n. rewrite tag_of_with_repo. case_decide as Hn.
    + by subst n.
    + unfold tag_of. by rewrite Hr.
Qed.

Lemma UpdateCurrent_accessible (target : Target) (method : string)
    (newCurrent : Hash) (w : World) :
  accessible w (filepath_Base (Url target)) = true ->
  exists w', UpdateCurrent target method newCurrent w = (w', None) /\
    tags_updated w w' (filepath_Base (Url target)) (currentTag method)
                 (Some newCurrent).
Proof.
  intros Hacc. destruct (accessible_open _ _ Hacc) as (r & Hr & Hs).
  unfold UpdateCurrent, PlainOpen, Repository_DeleteTag, Repository_Tag.
  rewrite Hr, Hs.
  destruct (tags r !! currentTag method) as [h|] eqn:Ht.
  - simpl. unfold Repository_CreateTag. simpl. rewrite Hs, lookup_delete_eq.
    eexists. split; [reflexivity|]. unfold tags_updated.
    rewrite accessible_with_repo. simpl. rewrite Hs. repeat split; try done.
    intros n. rewrite tag_of_with_repo. simpl. case_decide as Hn.
    + subst n. apply lookup_insert_eq.
    + rewrite lookup_insert_ne, lookup_delete_ne by done.
      unfold tag_of. by rewrite Hr.
  - rewrite failed_other_than_same.
    unfold Repository_CreateTag. rewrite Hs, Ht.
    eexists. split; [reflexivity|]. unfold tags_updated.
    rewrite accessible_with_repo. simpl. rewrite Hs. repeat split; try done.
    intros n. rewrite tag_of_with_repo. simpl. case_decide as Hn.
    + subst n. apply lookup_insert_eq.
    + rewrite lookup_insert_ne by done. unfold tag_of. by rewrite Hr.
Qed.

Lemma CreateInProgress_accessible (target : Target) (method : string)
    (latest : Hash) (w : World) :
  accessible w (filepath_Base (Url target)) = true ->
  exists w', CreateInProgress target method latest w = (w', None) /\
    tags_updated w w' (filepath_Base (Url target)) (progressTag method)
      (Some (default latest
               (tag_of w (filepath_Base (Url target)) (progressTag method)))).
Proof.
  intros Hacc. destruct (accessible_open _ _ Hacc) as (r & Hr & Hs).
  unfold CreateInProgress, PlainOpen, Repository_CreateTag.
  rewrite Hr, Hs. unfold tag_of at 1. rewrite Hr. simpl.
  destruct (tags r !! progressTag method) as [h|] eqn:Ht.
  - rewrite failed_other_than_same.
    eexists. split; [reflexivity|]. unfold tags_updated.
    rewrite accessible_with_repo, Hs. repeat split; try done.
    intros n. rewrite tag_of_with_repo. case_decide as Hn.
    + by subst n.
    + unfold tag_of. by rewrite Hr.
  - simpl. eexists. split; [reflexivity|]. unfold tags_updated.
    rewrite accessible_with_repo. simpl. rewrite Hs. repeat split; try done.
    intros n. rewrite tag_of_with_repo. simpl. case_decide as Hn.
    + subst n. apply lookup_insert_eq.
    + rewrite lookup_insert_ne by done. unfold tag_of. by rewrite Hr.
Qed.

Lemma GetCurrent_accessible (target : Target) (method : string) (w : World) :
  accessible w (filepath_Base (Url target)) = true ->
  GetCurrent target method w =
  inr (default 0%N (tag_of w (filepath_Base (Url target)) (currentTag method))).
Proof.
  intros Hacc. destruct (accessible_open _ _ Hacc) as (r & Hr & Hs).
  unfold GetCurrent, PlainOpen, Repository_Tag, tag_of. rewrite Hr, Hs. simpl.
  by destruct (tags r !! currentTag method).
Qed.

Lemma GetInProgress_accessible (target : Target) (method : string) (w : World) :
  accessible w (filepath_Base (Url target)) = true ->
  GetInProgress target method w =
  inr (default 0%N (tag_of w (filepath_Base (Url target)) (progressTag method))).
Proof.
  intros Hacc. destruct (accessible_open _ _ Hacc) as (r & Hr & Hs).
  unfold GetInProgress, PlainOpen, Repository_Tag, tag_of. rewrite Hr, Hs. simpl.
  by destruct (tags r !! progressTag method).
Qed.

(** C5 (as amended).  On an accessible clone both tag writes succeed.  After
    [UpdateCurrent] the tag [current-<method>] exists and points at the new
    commit, whether or not it existed before and wherever it pointed: the
    old tag is deleted and a new one created.  After [CreateInProgress] the
    tag [progress-<method>] exists; it points at the new commit when there
    was no such tag, and when there was one it still points where it did,
    the "tag already exists" of the store being taken as success. *)
Theorem tag_write_postcondition (target : Target) (method : string)
    (c : Hash) (w : World) :
  accessible w (filepath_Base (Url target)) = true ->
  (exists w', UpdateCurrent target method c w = (w', None) /\
     tag_of w' (filepath_Base (Url target)) (currentTag method) = Some c) /\
  (exists w', CreateInProgress target method c w = (w', None) /\
     tag_of w' (filepath_Base (Url target)) (progressTag method) =
     match tag_of w (filepath_Base (Url target)) (progressTag method) with
     | Some old => Some old
     | None => Some c
     end).
Proof.
  intros Hacc. split.
  - destruct (UpdateCurrent_accessible target method c w Hacc)
      as (w' & Heq & _ & Htags & _).
    exists w'. split; [done|]. rewrite Htags. by rewrite decide_True.
  - destruct (CreateInProgress_accessible target method c w Hacc)
      as (w' & Heq & _ & Htags & _).
    exists w'. split; [done|]. rewrite Htags. rewrite decide_True by done.
    by destruct (tag_of w _ _).
Qed.

(** C8.  Reading [current-<method>] or [progress-<method>] on an accessible
    clone where the tag is absent returns the zero hash and no error; a
    read fails only when the clone cannot be accessed; and
    [DeleteInProgress] on an accessible clone without the progress tag
    returns no error and leaves every tag as it was. *)
Theorem absent_tag_is_not_an_error (target : Target) (method : string) (w : World) :
  (accessible w (filepath_Base (Url target)) = true ->
   tag_of w (filepath_Base (Url target)) (currentTag method) = None ->
   exists h, GetCurrent target method w = inr h /\ IsZero h = true) /\
  (accessible w (filepath_Base (Url target)) = true ->
   tag_of w (filepath_Base (Url target)) (progressTag method) = None ->
   exists h, GetInProgress target method w = inr h /\ IsZero h = true) /\
  (forall err, GetCurrent target method w = inl err ->
     accessible w (filepath_Base (Url target)) = false) /\
  (forall err, GetInProgress target method w = inl err ->
     accessible w (filepath_Base (Url target)) = false) /\
  (accessible w (filepath_Base (Url target)) = true ->
   tag_of w (filepath_Base (Url target)) (progressTag method) = None ->
   exists w', DeleteInProgress target method w = (w', None) /\
     forall n, tag_of w' (filepath_Base (Url target)) n =
               tag_of w (filepath_Base (Url target)) n).
Proof.
  repeat split.
  - intros Hacc Habs. rewrite (GetCurrent_accessible _ _ _ Hacc), Habs. by exists 0%N.
  - intros Hacc Habs. rewrite (GetInProgress_accessible _ _ _ Hacc), Habs. by exists 0%N.
  - intros err Herr.
    destruct (accessible w (filepath_Base (Url target))) eqn:Hacc; [|done].
    by rewrite (GetCurrent_accessible _ _ _ Hacc) in Herr.
  - intros err Herr.
    destruct (accessible w (filepath_Base (Url target))) eqn:Hacc; [|done].
    by rewrite (GetInProgress_accessible _ _ _ Hacc) in Herr.
  - intros Hacc Habs.
    destruct (DeleteInProgress_accessible target method w Hacc)
      as (w' & Heq & _ & Htags & _).
    exists w'. split; [done|]. intros n. rewrite Htags.
    case_decide; [by subst n|done].
Qed.

End TagStore.

(** ** Properties of [Apply] and the catch-up entry points *)

Section CatchUp.

Context `{C : Collaborators}.

Lemma tag_of_same_repos (w w' : World) (directory name : string) :
  repos w' = repos w -> tag_of w' directory name = tag_of w directory name.
Proof. unfold tag_of. by intros ->. Qed.

Lemma accessible_same_repos (w w' : World) (directory : string) :
  repos w' = repos w -> accessible w' directory = accessible w directory.
Proof. unfold accessible. by intros ->. Qed.

Lemma runChangesConcurrent_world (sched : list nat) (mo : SingleMethodObj)
    (changeMap : ChangeMap) (w : World) :
  repos (fst (runChangesConcurrent sched mo changeMap w)) = repos w /\
  dispatched (fst (runChangesConcurrent sched mo changeMap w)) =
  (dispatched w ++ [changeMap])%list.
Proof.
  unfold runChangesConcurrent.
  by destruct (d_coord (run mo sched (dispatch changeMap (host w)))).
Qed.

Lemma Apply_repos (sched : list nat) (mo : SingleMethodObj)
    (currentState desiredState : Hash) (targetPath : string)
    (tags : option (list string)) (globPattern : option string) (w : World) :
  repos (fst (Apply sched mo currentState desiredState targetPath tags globPattern w))
  = repos w.
Proof.
  unfold Apply.
  destruct (IsZero desiredState); [done|].
  destruct (getSubTreeFromHash w _ currentState targetPath); [done|].
  destruct (getSubTreeFromHash w _ desiredState targetPath); [done|].
  destruct (getFilteredChangeMap _ _ _ _ _ _) as [|changeMap]; [done|].
  pose proof (runChangesConcurrent_world sched mo changeMap w) as [Hr _].
  destruct (runChangesConcurrent sched mo changeMap w) as [w1 [[err|]|]]; done.
Qed.

Lemma DeleteInProgress_success (target : Target) (method : string) (w w' : World) :
  DeleteInProgress target method w = (w', None) ->
  tag_of w' (filepath_Base (Url target)) (progressTag method) = None.
Proof.
  unfold DeleteInProgress, PlainOpen.
  destruct (repos w !! filepath_Base (Url target)) as [r|]; [|done].
  unfold Repository_DeleteTag, Repository_Tag.
  destruct (storage_fails r); [done|].
  destruct (tags r !! progressTag method) as [h|] eqn:Ht.
  - intros [= <-]. rewrite tag_of_with_repo. simpl. apply lookup_delete_eq.
  - rewrite failed_other_than_same. intros [= <-]. by rewrite tag_of_with_repo.
Qed.

(** C9.  [Apply] with a zero desired state returns its error at once, for
    every schedule and whatever the trees, the diff and the glob are, and
    leaves the world as it was: no change map is handed to the dispatcher
    and the host is untouched.  So [CatchUpCurrent] returns an error when
    [current] is zero, and that is the hash [GetCurrent] returns when the
    current tag is absent. *)
Theorem Apply_rejects_zero_desired_state (sched : list nat) (mo : SingleMethodObj)
    (currentState desiredState : Hash) (targetPath : string)
    (tags : option (list string)) (globPattern : option string) (w : World) :
  (IsZero desiredState = true ->
   Apply sched mo currentState desiredState targetPath tags globPattern w =
   (w, Done (Some (errors_New "Cannot run Apply if desired state is empty")))) /\
  (IsZero desiredState = true ->
   CatchUpCurrent sched mo desiredState targetPath tags globPattern w =
   (w, Done (Some (WrapErr
                     (errors_New "Cannot run Apply if desired state is empty")
                     "Failed to apply changes")))) /\
  (accessible w (cloneDir mo) = true -> currentOf w mo = None ->
   exists current,
     GetCurrent (mo_Target mo) (mo_Method mo) w = inr current /\
     CatchUpCurrent sched mo current targetPath tags globPattern w =
     (w, Done (Some (WrapErr
                       (errors_New "Cannot run Apply if desired state is empty")
                       "Failed to apply changes")))).
Proof.
  assert (Hzero : forall from h, IsZero h = true ->
            Apply sched mo from h targetPath tags globPattern w =
            (w, Done (Some (errors_New "Cannot run Apply if desired state is empty")))).
  { intros from h Hz. unfold Apply. by rewrite Hz. }
  repeat split.
  - apply Hzero.
  - intros Hz. unfold CatchUpCurrent. by rewrite (Hzero _ _ Hz).
  - intros Hacc Habs. exists 0%N. split.
    + unfold cloneDir in Hacc. rewrite (GetCurrent_accessible _ _ _ Hacc).
      unfold currentOf, cloneDir in Habs. by rewrite Habs.
    + unfold CatchUpCurrent. by rewrite (Hzero _ 0%N eq_refl).
Qed.

(** C6.  [CatchUpCurrent] applies from the zero commit to [current]: the
    zero commit resolves to the empty tree, so once [current] resolves to
    its subtree at the target path, the change map handed to the dispatcher
    is the one selected from the diff of the empty tree against that
    subtree. *)
Theorem CatchUpCurrent_diffs_against_empty_tree (sched : list nat)
    (mo : SingleMethodObj) (current : Hash) (targetPath : string)
    (tags : option (list string)) (globPattern : option string) (w : World)
    (desiredTree : Tree) (g : Glob) (changes : list Change) :
  IsZero current = false ->
  getSubTreeFromHash w (cloneDir mo) current targetPath = inr desiredTree ->
  glob_Compile (default "**" globPattern) = inr g ->
  Tree_Diff emptyTree desiredTree = inr changes ->
  getSubTreeFromHash w (cloneDir mo) zeroHash targetPath = inr emptyTree /\
  getFilteredChangeMap (cloneDir mo) targetPath emptyTree desiredTree tags globPattern
  = inr (filterChanges (cloneDir mo) targetPath tags g changes) /\
  dispatched (fst (CatchUpCurrent sched mo current targetPath tags globPattern w))
  = (dispatched w ++ [filterChanges (cloneDir mo) targetPath tags g changes])%list.
Proof.
  intros Hnz Hsub Hglob Hdiff.
  assert (Hmap : getFilteredChangeMap (cloneDir mo) targetPath emptyTree desiredTree
                   tags globPattern
                 = inr (filterChanges (cloneDir mo) targetPath tags g changes)).
  { unfold getFilteredChangeMap. destruct globPattern as [pattern|]; simpl in Hglob;
      by rewrite Hglob, Hdiff. }
  split; [done|]. split; [done|].
  unfold CatchUpCurrent, Apply. rewrite Hnz.
  fold (cloneDir mo). simpl getSubTreeFromHash at 1.
  assert (Hz : getSubTreeFromHash w (cloneDir mo) zeroHash targetPath = inr emptyTree)
    by done.
  rewrite Hz, Hsub, Hmap.
  pose proof (runChangesConcurrent_world sched mo
                (filterChanges (cloneDir mo) targetPath tags g changes) w) as [_ Hd].
  destruct (runChangesConcurrent sched mo _ w) as [w1 [[err|]|]]; done.
Qed.

(** C1.  On an accessible clone, for every schedule of the dispatch: when
    [progress] differs from [current], [CatchUpProgress] runs [Apply] from
    [current] to [progress] (it is not given any later commit), and what
    that run did to the host and the change map it dispatched are what
    [CatchUpProgress] leaves behind; if [Apply] returns no error
    [CatchUpProgress] returns none either, with the current tag at
    [progress] and the progress tag gone; if it returns an error, the
    progress tag is deleted, that error is returned wrapped, and the current
    tag is as before; while the dispatch has not returned, neither has
    [CatchUpProgress].  When [progress] equals [current] nothing is applied
    and the progress tag is deleted.  And whenever [CatchUpProgress] returns
    no error, on any world, the progress tag is absent afterwards. *)
Theorem CatchUpProgress_replays_interrupted_changeset (sched : list nat)
    (mo : SingleMethodObj) (current progress : Hash) (targetPath : string)
    (tags : option (list string)) (globPattern : option string) (w : World) :
  (accessible w (cloneDir mo) = true -> progress <> current ->
   match Apply sched mo current progress targetPath tags globPattern w with
   | (w1, Done None) =>
       exists w2,
         CatchUpProgress sched mo current progress targetPath tags globPattern w
         = (w2, Done None) /\
         currentOf w2 mo = Some progress /\ progressOf w2 mo = None /\
         host w2 = host w1 /\ dispatched w2 = dispatched w1
   | (w1, Done (Some err)) =>
       exists w2,
         CatchUpProgress sched mo current progress targetPath tags globPattern w
         = (w2, Done (Some (WrapErr err "Failed to apply from current to in progress")))
         /\ progressOf w2 mo = None /\ currentOf w2 mo = currentOf w mo /\
         host w2 = host w1 /\ dispatched w2 = dispatched w1
   | (w1, Waiting) =>
       CatchUpProgress sched mo current progress targetPath tags globPattern w
       = (w1, Waiting)
   end) /\
  (accessible w (cloneDir mo) = true -> progress = current ->
   exists w2,
     CatchUpProgress sched mo current progress targetPath tags globPattern w
     = (w2, Done None) /\
     progressOf w2 mo = None /\ currentOf w2 mo = currentOf w mo /\
     dispatched w2 = dispatched w /\ host w2 = host w) /\
  (forall w2,
     CatchUpProgress sched mo current progress targetPath tags globPattern w
     = (w2, Done None) ->
     progressOf w2 mo = None).
Proof.
  unfold currentOf, progressOf, cloneDir.
  split; [|split].
  - intros Hacc Hne. unfold CatchUpProgress.
    apply N.eqb_neq in Hne. rewrite Hne. simpl.
    pose proof (Apply_repos sched mo current progress targetPath tags globPattern w)
      as Hrepos.
    destruct (Apply sched mo current progress targetPath tags globPattern w)
      as [w1 [[err|]|]]; simpl in Hrepos; [| |done].
    + rewrite <- (accessible_same_repos _ _ _ Hrepos) in Hacc.
      destruct (DeleteInProgress_accessible (mo_Target mo) (mo_Method mo) w1 Hacc)
        as (w2 & -> & _ & Htags & Hhost & Hdisp).
      exists w2. split; [done|]. rewrite !Htags.
      rewrite decide_True by done.
      rewrite decide_False by apply currentTag_neq_progressTag.
      split; [done|]. split; [by apply tag_of_same_repos|]. by split.
    + rewrite <- (accessible_same_repos _ _ _ Hrepos) in Hacc.
      destruct (UpdateCurrent_accessible (mo_Target mo) (mo_Method mo) progress w1 Hacc)
        as (w2 & -> & Hacc2 & Htags2 & Hhost2 & Hdisp2).
      unfold deleteProgress.
      destruct (DeleteInProgress_accessible (mo_Target mo) (mo_Method mo) w2 Hacc2)
        as (w3 & -> & _ & Htags3 & Hhost3 & Hdisp3).
      exists w3. split; [done|]. rewrite !Htags3.
      rewrite decide_False by apply currentTag_neq_progressTag.
      rewrite Htags2. rewrite !decide_True by done.
      split; [done|]. split; [done|].
      split; [by rewrite Hhost3|by rewrite Hdisp3].
  - intros Hacc ->. unfold CatchUpProgress. rewrite N.eqb_refl. simpl.
    unfold deleteProgress.
    destruct (DeleteInProgress_accessible (mo_Target mo) (mo_Method mo) w Hacc)
      as (w2 & -> & _ & Htags & Hhost & Hdisp).
    exists w2. split; [done|]. rewrite !Htags.
    rewrite decide_True by done.
    by rewrite decide_False by apply currentTag_neq_progressTag.
  - intros w2. unfold CatchUpProgress, deleteProgress.
    destruct (negb (progress =? current)%N).
    + destruct (Apply sched mo current progress targetPath tags globPattern w)
        as [w1 [[err|]|]]; [| |done].
      * by destruct (DeleteInProgress (mo_Target mo) (mo_Method mo) w1) as [w3 [e|]].
      * destruct (UpdateCurrent (mo_Target mo) (mo_Method mo) progress w1)
          as [w3 [e|]]; [done|].
        destruct (DeleteInProgress (mo_Target mo) (mo_Method mo) w3)
          as [w4 [e|]] eqn:Hdel; [done|].
        intros [= <-]. by apply DeleteInProgress_success in Hdel.
    + destruct (DeleteInProgress (mo_Target mo) (mo_Method mo) w)
        as [w4 [e|]] eqn:Hdel; [done|].
      intros [= <-]. by apply DeleteInProgress_success in Hdel.
Qed.

(** C2 (as amended).  On an accessible clone, for every schedule of the
    dispatch: [CatchUpLatest] first creates the progress tag, before any
    change map is computed or dispatched and with the host untouched; the
    tag then points at [latest] when there was no progress tag, and where it
    already pointed otherwise.  [Apply] from [current] to [latest] runs on
    that world.  If it returns no error, neither does [CatchUpLatest], the
    current tag is at [latest] and the progress tag is gone; if it returns
    an error, the progress tag is deleted, that error is returned wrapped
    and the current tag is as before; while the dispatch has not returned
    the progress tag stays as created. *)
Theorem CatchUpLatest_write_ahead (sched : list nat) (mo : SingleMethodObj)
    (current latest : Hash) (targetPath : string)
    (tags : option (list string)) (globPattern : option string) (w : World) :
  accessible w (cloneDir mo) = true ->
  exists w0,
    CreateInProgress (mo_Target mo) (mo_Method mo) latest w = (w0, None) /\
    progressOf w0 mo =
      match progressOf w mo with Some old => Some old | None => Some latest end /\
    currentOf w0 mo = currentOf w mo /\
    dispatched w0 = dispatched w /\ host w0 = host w /\
    match Apply sched mo current latest targetPath tags globPattern w0 with
    | (w1, Done None) =>
        exists w2,
          CatchUpLatest sched mo current latest targetPath tags globPattern w
          = (w2, Done None) /\
          currentOf w2 mo = Some latest /\ progressOf w2 mo = None
    | (w1, Done (Some err)) =>
        exists w2,
          CatchUpLatest sched mo current latest targetPath tags globPattern w
          = (w2, Done (Some (WrapErr err "Failed to apply changes"))) /\
          progressOf w2 mo = None /\ currentOf w2 mo = currentOf w mo
    | (w1, Waiting) =>
        CatchUpLatest sched mo current latest targetPath tags globPattern w
        = (w1, Waiting) /\
        progressOf w1 mo = progressOf w0 mo
    end.
Proof.
  unfold currentOf, progressOf, cloneDir. intros Hacc.
  destruct (CreateInProgress_accessible (mo_Target mo) (mo_Method mo) latest w Hacc)
    as (w0 & Hcreate & Hacc0 & Htags0 & Hhost0 & Hdisp0).
  exists w0. split; [done|]. rewrite !Htags0.
  rewrite decide_True by done.
  rewrite decide_False by apply currentTag_neq_progressTag.
  split; [by destruct (tag_of w _ (progressTag _))|].
  do 3 (split; [done|]).
  unfold CatchUpLatest. rewrite Hcreate.
  pose proof (Apply_repos sched mo current latest targetPath tags globPattern w0)
    as Hrepos.
  destruct (Apply sched mo current latest targetPath tags globPattern w0)
    as [w1 [[err|]|]]; simpl in Hrepos.
  - rewrite <- (accessible_same_repos _ _ _ Hrepos) in Hacc0.
    destruct (DeleteInProgress_accessible (mo_Target mo) (mo_Method mo) w1 Hacc0)
      as (w2 & -> & _ & Htags2 & _).
    exists w2. split; [done|]. rewrite !Htags2.
    rewrite decide_True by done.
    rewrite decide_False by apply currentTag_neq_progressTag.
    split; [done|]. rewrite (tag_of_same_repos _ _ _ _ Hrepos), Htags0.
    by rewrite decide_False by apply currentTag_neq_progressTag.
  - rewrite <- (accessible_same_repos _ _ _ Hrepos) in Hacc0.
    destruct (UpdateCurrent_accessible (mo_Target mo) (mo_Method mo) latest w1 Hacc0)
      as (w2 & -> & Hacc2 & Htags2 & _).
    destruct (DeleteInProgress_accessible (mo_Target mo) (mo_Method mo) w2 Hacc2)
      as (w3 & -> & _ & Htags3 & _).
    exists w3. split; [done|]. rewrite !Htags3.
    rewrite decide_False by apply currentTag_neq_progressTag.
    rewrite Htags2. by rewrite !decide_True.
  - split; [done|]. rewrite (tag_of_same_repos _ _ _ _ Hrepos), Htags0.
    by rewrite decide_True.
Qed.

End CatchUp.

(** ** Properties of the change selector *)

Section Selector.

Context `{C : Collaborators}.

Lemma addChange_app (directory targetPath : string) (tags : option (list string))
    (g : Glob) (acc : ChangeMap) (change : Change) :
  addChange directory targetPath tags g acc change =
  (acc ++ selected directory targetPath tags g change)%list.
Proof.
  unfold selected, addChange.
  destruct (keepTo tags g change); [done|].
  destruct (keepFrom tags g change); [done|].
  by rewrite app_nil_r.
Qed.

Lemma fold_addChange (directory targetPath : string) (tags : option (list string))
    (g : Glob) (changes : list Change) (acc : ChangeMap) :
  fold_left (addChange directory targetPath tags g) changes acc =
  (acc ++ flat_map (selected directory targetPath tags g) changes)%list.
Proof.
  revert acc. induction changes as [|change changes IH]; intros acc; simpl.
  - by rewrite app_nil_r.
  - rewrite IH, addChange_app. by rewrite <- app_assoc.
Qed.

Lemma filterChanges_flat_map (directory targetPath : string)
    (tags : option (list string)) (g : Glob) (changes : list Change) :
  filterChanges directory targetPath tags g changes =
  flat_map (selected directory targetPath tags g) changes.
Proof. unfold filterChanges. by rewrite fold_addChange. Qed.

Lemma eqb_empty_false (s : string) : negb (String.eqb s "") = true <-> s <> "".
Proof.
  rewrite negb_true_iff. split.
  - intros H ->. by rewrite String.eqb_refl in H.
  - intros H. by apply String.eqb_neq.
Qed.

(** The entries of a change map come from the diff through one of the two
    branches of the loop. *)
Lemma filterChanges_member (directory targetPath : string)
    (tags : option (list string)) (g : Glob) (changes : list Change)
    (change : Change) (dest : string) :
  In (change, dest) (filterChanges directory targetPath tags g changes) ->
  In change changes /\
  ((keepTo tags g change = true /\
    dest = filepath_Join [directory; targetPath; ce_Name (To change)]) \/
   (keepTo tags g change = false /\ keepFrom tags g change = true /\
    dest = deleteFile)).
Proof.
  rewrite filterChanges_flat_map, in_flat_map.
  intros (c & Hin & Hsel). unfold selected, addChange in Hsel.
  destruct (keepTo tags g c) eqn:Hto; [|destruct (keepFrom tags g c) eqn:Hfrom];
    simpl in Hsel; try done.
  - destruct Hsel as [[= -> <-]|[]]. split; [done|]. left. by rewrite Hto.
  - destruct Hsel as [[= -> <-]|[]]. split; [done|]. right. by rewrite Hto, Hfrom.
Qed.

Lemma getFilteredChangeMap_inr (directory targetPath : string)
    (currentTree desiredTree : Tree) (tags : option (list string))
    (globPattern : option string) (changeMap : ChangeMap) :
  getFilteredChangeMap directory targetPath currentTree desiredTree tags globPattern
  = inr changeMap ->
  exists g changes,
    glob_Compile (default "**" globPattern) = inr g /\
    Tree_Diff currentTree desiredTree = inr changes /\
    changeMap = filterChanges directory targetPath tags g changes.
Proof.
  unfold getFilteredChangeMap.
  destruct globPattern as [pattern|]; simpl.
  - destruct (glob_Compile pattern) as [|g]; [done|].
    destruct (Tree_Diff currentTree desiredTree) as [|changes]; [done|].
    intros [= <-]. by exists g, changes.
  - destruct (glob_Compile "**") as [|g]; [done|].
    destruct (Tree_Diff currentTree desiredTree) as [|changes]; [done|].
    intros [= <-]. by exists g, changes.
Qed.

(** C4 (as amended).  A diff entry is a member of the change map only if
    its "to" name is non-empty, ends with one of the allowed suffixes and
    matches the compiled glob, or its "from" name is non-empty and ends
    with one of the allowed suffixes.  A nil suffix list accepts every name
    and a nil pattern is compiled as ["**"]. *)
Theorem member_only_if_policy (directory targetPath : string)
    (currentTree desiredTree : Tree) (tags : option (list string))
    (globPattern : option string) (changeMap : ChangeMap)
    (change : Change) (dest : string) :
  getFilteredChangeMap directory targetPath currentTree desiredTree tags globPattern
  = inr changeMap ->
  In (change, dest) changeMap ->
  (exists g,
     glob_Compile (match globPattern with Some pattern => pattern | None => "**" end)
     = inr g /\
     ((ce_Name (To change) <> "" /\
       checkTag tags (ce_Name (To change)) = true /\
       glob_Match g (ce_Name (To change)) = true) \/
      (ce_Name (From change) <> "" /\
       checkTag tags (ce_Name (From change)) = true))) /\
  (forall name, checkTag None name = true) /\
  getFilteredChangeMap directory targetPath currentTree desiredTree tags None =
  getFilteredChangeMap directory targetPath currentTree desiredTree tags (Some "**").
Proof.
  intros Hmap Hin. split; [|done].
  destruct (getFilteredChangeMap_inr _ _ _ _ _ _ _ Hmap) as (g & changes & Hg & _ & ->).
  exists g. split; [by destruct globPattern|].
  destruct (filterChanges_member _ _ _ _ _ _ _ Hin) as [_ [[Hto _]|(_ & Hfrom & _)]].
  - left. unfold keepTo in Hto. rewrite !andb_true_iff, eqb_empty_false in Hto.
    tauto.
  - right. unfold keepFrom in Hfrom. rewrite !andb_true_iff, eqb_empty_false in Hfrom.
    tauto.
Qed.

(** C7 (as amended).  The destination of a member of the change map is the
    join of the clone directory, the target path and the "to" name when the
    "to" name is non-empty and passes the suffix and glob checks; otherwise
    it is the delete sentinel and the "from" name is non-empty.  So a pure
    deletion gets the sentinel, and an entry whose two names are both empty
    is never a member. *)
Theorem member_destination (directory targetPath : string)
    (currentTree desiredTree : Tree) (tags : option (list string))
    (globPattern : option string) (changeMap : ChangeMap)
    (change : Change) (dest : string) :
  getFilteredChangeMap directory targetPath currentTree desiredTree tags globPattern
  = inr changeMap ->
  In (change, dest) changeMap ->
  (exists g,
     glob_Compile (match globPattern with Some pattern => pattern | None => "**" end)
     = inr g /\
     ((ce_Name (To change) <> "" /\
       checkTag tags (ce_Name (To change)) = true /\
       glob_Match g (ce_Name (To change)) = true /\
       dest = filepath_Join [directory; targetPath; ce_Name (To change)]) \/
      ((ce_Name (To change) = "" \/
        checkTag tags (ce_Name (To change)) = false \/
        glob_Match g (ce_Name (To change)) = false) /\
       ce_Name (From change) <> "" /\
       dest = deleteFile))) /\
  (ce_Name (To change) = "" -> ce_Name (From change) <> "" /\ dest = deleteFile) /\
  ~ (ce_Name (To change) = "" /\ ce_Name (From change) = "").
Proof.
  intros Hmap Hin.
  destruct (getFilteredChangeMap_inr _ _ _ _ _ _ _ Hmap) as (g & changes & Hg & _ & ->).
  destruct (filterChanges_member _ _ _ _ _ _ _ Hin)
    as [_ [[Hto ->]|(Hto & Hfrom & ->)]].
  - unfold keepTo in Hto. rewrite !andb_true_iff, eqb_empty_false in Hto.
    split; [|split].
    + exists g. split; [by destruct globPattern|]. left. tauto.
    + tauto.
    + tauto.
  - unfold keepFrom in Hfrom. rewrite !andb_true_iff, eqb_empty_false in Hfrom.
    split; [|split].
    + exists g. split; [by destruct globPattern|]. right.
      split; [|tauto]. unfold keepTo in Hto.
      destruct (String.eqb_spec (ce_Name (To change)) ""); [by left|].
      right. simpl in Hto.
      destruct (checkTag tags (ce_Name (To change))); [by right|by left].
    + tauto.
    + tauto.
Qed.

(** C10.  [checkTag] tells a nil suffix list from an empty one: the nil
    list accepts every name, the empty list rejects every name, and so the
    change map selected under an empty list has no entry. *)
Theorem empty_suffix_list_selects_nothing (directory targetPath : string)
    (currentTree desiredTree : Tree) (globPattern : option string)
    (changeMap : ChangeMap) :
  (forall name, checkTag None name = true) /\
  (forall name, checkTag (Some []) name = false) /\
  (getFilteredChangeMap directory targetPath currentTree desiredTree (Some [])
                        globPattern = inr changeMap ->
   changeMap = []).
Proof.
  split; [done|]. split; [done|]. intros Hmap.
  destruct (getFilteredChangeMap_inr _ _ _ _ _ _ _ Hmap) as (g & changes & _ & _ & ->).
  rewrite filterChanges_flat_map. clear Hmap.
  induction changes as [|change changes IH]; [done|].
  simpl. rewrite IH. unfold selected, addChange, keepTo, keepFrom. simpl.
  by rewrite !andb_false_r.
Qed.

End Selector.

(** ** Properties of the concurrent dispatcher *)

Section Dispatcher.

Context `{C : Collaborators}.

Lemma count_app {A : Type} (P : A -> bool) (l l' : list A) :
  count P (l ++ l') = count P l + count P l'.
Proof. induction l as [|x l IH]; simpl; [done|]. rewrite IH. lia. Qed.

Lemma count_insert {A : Type} (P : A -> bool) (l : list A) (i : nat) (x y : A) :
  l !! i = Some x ->
  count P (<[i := y]> l) + (if P x then 1 else 0) =
  count P l + (if P y then 1 else 0).
Proof.
  revert i. induction l as [|z l IH]; intros i Hi; [done|].
  destruct i as [|i]; simpl in *.
  - injection Hi as ->. lia.
  - specialize (IH i Hi). lia.
Qed.

Lemma count_le_length {A : Type} (P : A -> bool) (l : list A) :
  count P l <= length l.
Proof. induction l as [|x l IH]; simpl; [lia|]. destruct (P x); lia. Qed.

Lemma count_zero {A : Type} (P : A -> bool) (l : list A) :
  count P l = 0 -> Forall (fun x => P x = false) l.
Proof.
  induction l as [|x l IH]; simpl; intros H; [constructor|].
  destruct (P x) eqn:HP; [lia|]. constructor; [done|]. apply IH. lia.
Qed.

Lemma all_exit (l : list Goroutine) :
  count isExit l = length l -> count isReady l = 0 /\ count isSendErr l = 0.
Proof.
  induction l as [|g l IH]; simpl; [done|].
  pose proof (count_le_length isExit l) as Hle.
  destruct g; simpl; intros Hall; lia.
Qed.

Lemma reported_more_calls (d d' : Dispatch) (e : Error) :
  (forall call, In call (d_calls d) -> In call (d_calls d')) ->
  reported d e -> reported d' e.
Proof. intros Hsub (p & c & e0 & Hin & ->). exists p, c, e0. auto. Qed.

Lemma dispatch_inv_init (changeMap : ChangeMap) (h : Host) :
  dispatch_inv (length changeMap) (dispatch changeMap h).
Proof.
  assert (Hspawn : length (spawn changeMap) = length changeMap /\
                   count isExit (spawn changeMap) = 0 /\
                   count isReady (spawn changeMap) = length changeMap /\
                   count isSendErr (spawn changeMap) = 0 /\
                   Forall (fun g => forall e, g = GoSendErr e -> False)
                          (spawn changeMap)).
  { induction changeMap as [|entry changeMap (H1 & H2 & H3 & H4 & H5)]; simpl.
    - repeat split; constructor.
    - repeat split; try lia. constructor; [done|apply H5]. }
  destruct Hspawn as (H1 & H2 & H3 & H4 & H5).
  assert (Hq : quiet (length changeMap) (dispatch changeMap h)).
  { unfold quiet, dispatch. simpl. repeat split; try done. }
  split.
  - unfold traced, dispatch. simpl.
    eapply Forall_impl; [exact H5|]. intros g Hg e He. destruct (Hg e He).
  - change (d_coord (dispatch changeMap h)) with (receiveLoop (length changeMap)).
    change (d_received (dispatch changeMap h)) with (@nil error).
    revert Hq. generalize (dispatch changeMap h). generalize (length changeMap).
    intros [|n] D Hq; simpl; [done|]. split; [lia|done].
Qed.

Lemma dispatch_inv_step (mo : SingleMethodObj) (n i k : nat) (d d' : Dispatch) :
  dispatch_inv n d -> d_coord d = Receiving k -> step mo i d = Some d' ->
  dispatch_inv n d'.
Proof.
  intros [Htr Hinv] Hco Hstep. rewrite Hco in Hinv.
  destruct Hinv as (Hk & Hrecv & Hlen & Hexit & Hnil & Hcalls & Hfail).
  unfold step in Hstep.
  destruct (d_tasks d !! i) as [[changePath change|e| |]|] eqn:Hi; try done.
  - destruct (EngineMethod mo changePath change (d_host d)) as [h err].
    injection Hstep as <-. split.
    + unfold traced. simpl. apply Forall_insert.
      * eapply Forall_impl; [exact Htr|]. intros g Hg e He.
        eapply reported_more_calls; [|exact (Hg e He)].
        simpl. intros call Hin. apply in_or_app. by left.
      * intros e He. destruct err as [e0|]; [|done]. injection He as <-.
        exists changePath, change, e0. split; [|done].
        simpl. apply in_or_app. right. by left.
    + simpl. rewrite Hco. split; [done|]. split; [done|].
      unfold quiet. simpl. rewrite length_insert, length_app. simpl.
      pose proof (count_insert isExit _ _ _ (afterMethod err) Hi) as H1.
      pose proof (count_insert isReady _ _ _ (afterMethod err) Hi) as H2.
      pose proof (count_insert isSendErr _ _ _ (afterMethod err) Hi) as H3.
      rewrite count_app. simpl. unfold callFailed at 2. simpl.
      destruct err as [e0|]; simpl in *; repeat split; try done; lia.
  - rewrite Hco in Hstep. destruct k as [|k]; [done|]. injection Hstep as <-.
    split.
    + unfold traced. simpl. apply Forall_insert; [|done].
      eapply Forall_impl; [exact Htr|]. intros g Hg e' He'.
      eapply reported_more_calls; [|exact (Hg e' He')]. by simpl.
    + simpl. exists (length (d_received d)). split; [lia|].
      split; [by rewrite Hnil at 1|]. split.
      * eapply reported_more_calls;
          [|exact (Forall_lookup_1 _ _ _ _ Htr Hi e eq_refl)]. by simpl.
      * pose proof (count_insert isExit _ _ _ GoSendNil Hi) as H1.
        simpl in H1. lia.
  - rewrite Hco in Hstep. destruct k as [|k]; [done|]. injection Hstep as <-.
    assert (Hq : quiet n (mkDispatch (d_host d) (<[i := GoExit]> (d_tasks d))
                            (receiveLoop k) (d_calls d) (d_received d ++ [None]))).
    { unfold quiet. simpl. rewrite length_insert, length_app. simpl.
      pose proof (count_insert isExit _ _ _ GoExit Hi) as H1.
      pose proof (count_insert isReady _ _ _ GoExit Hi) as H2.
      pose proof (count_insert isSendErr _ _ _ GoExit Hi) as H3.
      simpl in *. repeat split; try lia.
      rewrite Nat.add_1_r, replicate_S_end. by rewrite <- Hnil. }
    split.
    + unfold traced. simpl. apply Forall_insert; [|done].
      eapply Forall_impl; [exact Htr|]. intros g Hg e' He'.
      eapply reported_more_calls; [|exact (Hg e' He')]. by simpl.
    + simpl. destruct k as [|k]; simpl.
      * split; [|done]. rewrite length_app. simpl. lia.
      * split; [lia|]. split; [|done]. rewrite length_app. simpl. lia.
Qed.

Lemma dispatch_inv_run (mo : SingleMethodObj) (n : nat) (sched : list nat)
    (d : Dispatch) :
  dispatch_inv n d -> dispatch_inv n (run mo sched d).
Proof.
  revert d. induction sched as [|i sched IH]; intros d Hinv; simpl.
  - by destruct (d_coord d).
  - destruct (d_coord d) as [k|] eqn:Hco; [|done].
    apply IH. destruct (step mo i d) as [d'|] eqn:Hstep; simpl; [|done].
    by eapply dispatch_inv_step.
Qed.

(** X12.  Whatever the schedule: when the caller has returned [nil], it received
    one [nil] per entry of the change map, [EngineMethod] was called once
    per entry and no call failed; when it has returned an error, that is
    the wrapped error of a call that failed and the first value received
    that is not [nil]; while it waits it has received [nil]s only. *)
Lemma dispatch_outcome (mo : SingleMethodObj) (changeMap : ChangeMap) (h : Host)
    (sched : list nat) :
  let d := run mo sched (dispatch changeMap h) in
  match d_coord d with
  | Returned None =>
      d_received d = replicate (length changeMap) None /\
      length (d_calls d) = length changeMap /\
      Forall (fun call => snd call = None) (d_calls d)
  | Returned (Some e) =>
      reported d e /\
      exists j, j < length changeMap /\
                d_received d = (replicate j None ++ [Some e])%list
  | Receiving k =>
      0 < k /\ d_received d = replicate (length changeMap - k) None
  end.
Proof.
  intros d.
  pose proof (dispatch_inv_run mo _ sched _ (dispatch_inv_init changeMap h))
    as [_ Hinv].
  fold d in Hinv. destruct (d_coord d) as [k|[e|]].
  - destruct Hinv as (Hk & Hrecv & _ & _ & Hnil & _).
    split; [done|]. rewrite Hnil. f_equal. lia.
  - destruct Hinv as (j & Hj & Hrecv & Hrep & _). split; [done|]. by exists j.
  - destruct Hinv as (Hrecv & Hlen & Hexit & Hnil & Hcalls & Hfail).
    rewrite Hrecv in Hnil, Hexit. rewrite <- Hlen in Hexit.
    destruct (all_exit _ Hexit) as [Hready Herr].
    split; [done|]. split; [lia|].
    rewrite Herr in Hfail. apply count_zero in Hfail.
    eapply Forall_impl; [exact Hfail|]. intros call.
    unfold callFailed. by destruct (snd call).
Qed.

Lemma lookup_after_exits (done : nat) (g : Goroutine) (rest : list Goroutine) :
  (replicate done GoExit ++ g :: rest) !! done = Some g.
Proof. induction done as [|done IH]; simpl; done. Qed.

Lemma insert_after_exits (done : nat) (g g' : Goroutine) (rest : list Goroutine) :
  <[done := g']> (replicate done GoExit ++ g :: rest) =
  (replicate done GoExit ++ g' :: rest)%list.
Proof. induction done as [|done IH]; simpl; [done|]. by rewrite IH. Qed.

Lemma run_cons (mo : SingleMethodObj) (i k : nat) (sched : list nat) (d : Dispatch) :
  d_coord d = Receiving k ->
  run mo (i :: sched) d = run mo sched (default d (step mo i d)).
Proof. intros H. simpl. by rewrite H. Qed.

Lemma run_returned (mo : SingleMethodObj) (sched : list nat) (d : Dispatch)
    (err : error) :
  d_coord d = Returned err -> run mo sched d = d.
Proof. intros H. destruct sched; simpl; by rewrite H. Qed.

Lemma step_call (mo : SingleMethodObj) (i : nat) (d : Dispatch)
    (changePath : string) (change : Change) :
  d_tasks d !! i = Some (GoReady changePath change) ->
  step mo i d =
  Some (mkDispatch (fst (EngineMethod mo changePath change (d_host d)))
          (<[i := afterMethod (snd (EngineMethod mo changePath change (d_host d)))]>
             (d_tasks d))
          (d_coord d)
          (d_calls d ++
           [(changePath, change, snd (EngineMethod mo changePath change (d_host d)))])
          (d_received d)).
Proof.
  intros Hi. unfold step. rewrite Hi.
  by destruct (EngineMethod mo changePath change (d_host d)).
Qed.

Lemma step_send_err (mo : SingleMethodObj) (i k : nat) (d : Dispatch) (e : Error) :
  d_tasks d !! i = Some (GoSendErr e) -> d_coord d = Receiving (S k) ->
  step mo i d =
  Some (mkDispatch (d_host d) (<[i := GoSendNil]> (d_tasks d)) (Returned (Some e))
                   (d_calls d) (d_received d ++ [Some e])).
Proof. intros Hi Hco. unfold step. by rewrite Hi, Hco. Qed.

Lemma step_send_nil (mo : SingleMethodObj) (i k : nat) (d : Dispatch) :
  d_tasks d !! i = Some GoSendNil -> d_coord d = Receiving (S k) ->
  step mo i d =
  Some (mkDispatch (d_host d) (<[i := GoExit]> (d_tasks d)) (receiveLoop k)
                   (d_calls d) (d_received d ++ [None])).
Proof. intros Hi Hco. unfold step. by rewrite Hi, Hco. Qed.

Lemma run_each_in_turn (mo : SingleMethodObj) (rest : ChangeMap) :
  forall (done : nat) (h : Host) (calls : list (string * Change * error))
         (received : list error),
  exists err,
    d_coord (run mo (eachInTurn done (length rest))
               (mkDispatch h (replicate done GoExit ++ spawn rest)
                           (receiveLoop (length rest)) calls received))
    = Returned err.
Proof.
  induction rest as [|entry rest IH]; intros done h calls received.
  - by exists None.
  - unfold eachInTurn. cbn [length seq flat_map app spawn map receiveLoop].
    rewrite (run_cons mo done (S (length rest))) by done.
    rewrite (step_call mo done _ (snd entry) (fst entry))
      by apply lookup_after_exits.
    cbn [default from_option id d_tasks d_host d_coord d_calls d_received].
    rewrite insert_after_exits.
    destruct (EngineMethod mo (snd entry) (fst entry) h) as [h' [e|]];
      cbn [fst snd afterMethod];
      rewrite (run_cons mo done (S (length rest))) by done.
    + erewrite (step_send_err mo done (length rest));
        [|apply lookup_after_exits|reflexivity].
      cbn [default from_option id].
      erewrite run_returned by done. by eexists.
    + erewrite (step_send_nil mo done (length rest));
        [|apply lookup_after_exits|reflexivity].
      cbn [default from_option id d_tasks d_host d_coord d_calls d_received].
      rewrite insert_after_exits.
      replace (replicate done GoExit ++ GoExit :: map _ rest)
        with (replicate (S done) GoExit ++ spawn rest)
        by (rewrite replicate_S_end, <- app_assoc; done).
      apply IH.
Qed.

(** The caller returns under the schedule that takes the goroutines in
    turn. *)
Lemma runChangesConcurrent_returns (mo : SingleMethodObj) (changeMap : ChangeMap)
    (w : World) :
  exists w' err,
    runChangesConcurrent (eachInTurn 0 (length changeMap)) mo changeMap w
    = (w', Done err).
Proof.
  unfold runChangesConcurrent.
  destruct (run_each_in_turn mo changeMap 0 (host w) [] []) as [err Herr].
  simpl in Herr. unfold dispatch. rewrite Herr. eauto.
Qed.

(** [Apply] returns under some schedule, whatever its arguments. *)
Lemma Apply_returns (mo : SingleMethodObj) (currentState desiredState : Hash)
    (targetPath : string) (tags : option (list string))
    (globPattern : option string) (w : World) :
  exists sched w' err,
    Apply sched mo currentState desiredState targetPath tags globPattern w
    = (w', Done err).
Proof.
  unfold Apply.
  destruct (IsZero desiredState); [by exists [], w; eexists|].
  destruct (getSubTreeFromHash w _ currentState targetPath);
    [by exists [], w; eexists|].
  destruct (getSubTreeFromHash w _ desiredState targetPath);
    [by exists [], w; eexists|].
  destruct (getFilteredChangeMap _ _ _ _ _ _) as [|changeMap];
    [by exists [], w; eexists|].
  destruct (runChangesConcurrent_returns mo changeMap w) as (w' & err & Hrun).
  exists (eachInTurn 0 (length changeMap)), w'. rewrite Hrun.
  destruct err; by eexists.
Qed.

End Dispatcher.

(** ** More on the state tags and the catch-up entry points *)

Section TagFrames.

Context `{C : Collaborators}.

Lemma currentTag_inj (m m' : string) : currentTag m = currentTag m' -> m = m'.
Proof. unfold currentTag. intros H. cbn in H. by injection H. Qed.

Lemma progressTag_inj (m m' : string) : progressTag m = progressTag m' -> m = m'.
Proof. unfold progressTag. intros H. cbn in H. by injection H. Qed.

Lemma tag_of_with_repo_frame (w : World) (directory : string)
    (r r' : Repository) (d n : string) :
  repos w !! directory = Some r -> tags r' !! n = tags r !! n ->
  tag_of (with_repo w directory r') d n = tag_of w d n.
Proof.
  intros Hr Ht. unfold tag_of, with_repo. simpl.
  destruct (decide (directory = d)) as [<-|Hne].
  - rewrite lookup_insert_eq, Hr. simpl. done.
  - by rewrite lookup_insert_ne.
Qed.

Lemma UpdateCurrent_frame (target : Target) (method : string) (c : Hash)
    (w : World) (d n : string) :
  n <> currentTag method ->
  tag_of (fst (UpdateCurrent target method c w)) d n = tag_of w d n.
Proof.
  intros Hn. unfold UpdateCurrent, PlainOpen.
  destruct (repos w !! filepath_Base (Url target)) as [r|] eqn:Hr; [|done].
  unfold Repository_DeleteTag, Repository_Tag, Repository_CreateTag.
  destruct (storage_fails r) eqn:Hs; simpl;
    [|destruct (tags r !! currentTag method) eqn:Ht; simpl;
      rewrite ?Hs, ?Ht, ?lookup_delete_eq; simpl];
    (apply (tag_of_with_repo_frame _ _ r); [done|]; simpl;
     by rewrite ?lookup_insert_ne, ?lookup_delete_ne).
Qed.

Lemma CreateInProgress_frame (target : Target) (method : string) (c : Hash)
    (w : World) (d n : string) :
  n <> progressTag method ->
  tag_of (fst (CreateInProgress target method c w)) d n = tag_of w d n.
Proof.
  intros Hn. unfold CreateInProgress, PlainOpen.
  destruct (repos w !! filepath_Base (Url target)) as [r|] eqn:Hr; [|done].
  unfold Repository_CreateTag.
  destruct (storage_fails r) eqn:Hs; simpl;
    [|destruct (tags r !! progressTag method) eqn:Ht; simpl];
    (apply (tag_of_with_repo_frame _ _ r); [done|]; simpl;
     by rewrite ?lookup_insert_ne, ?lookup_delete_ne).
Qed.

Lemma DeleteInProgress_frame (target : Target) (method : string)
    (w : World) (d n : string) :
  n <> progressTag method ->
  tag_of (fst (DeleteInProgress target method w)) d n = tag_of w d n.
Proof.
  intros Hn. unfold DeleteInProgress, PlainOpen.
  destruct (repos w !! filepath_Base (Url target)) as [r|] eqn:Hr; [|done].
  unfold Repository_DeleteTag, Repository_Tag.
  destruct (storage_fails r) eqn:Hs; simpl;
    [|destruct (tags r !! progressTag method) eqn:Ht; simpl];
    (apply (tag_of_with_repo_frame _ _ r); [done|]; simpl;
     by rewrite ?lookup_insert_ne, ?lookup_delete_ne).
Qed.

Lemma Apply_frame (sched : list nat) (mo : SingleMethodObj)
    (currentState desiredState : Hash) (targetPath : string)
    (tags : option (list string)) (globPattern : option string) (w : World)
    (d n : string) :
  tag_of (fst (Apply sched mo currentState desiredState targetPath tags
                     globPattern w)) d n
  = tag_of w d n.
Proof. apply tag_of_same_repos, Apply_repos. Qed.

End TagFrames.


Section CatchUpMore.

Context `{C : Collaborators}.

Lemma tag_ops_keep_host (target : Target) (method : string) (c : Hash) (w : World) :
  (host (fst (UpdateCurrent target method c w)) = host w /\
   dispatched (fst (UpdateCurrent target method c w)) = dispatched w) /\
  (host (fst (CreateInProgress target method c w)) = host w /\
   dispatched (fst (CreateInProgress target method c w)) = dispatched w) /\
  (host (fst (DeleteInProgress target method w)) = host w /\
   dispatched (fst (DeleteInProgress target method w)) = dispatched w).
Proof.
  unfold UpdateCurrent, CreateInProgress, DeleteInProgress, PlainOpen.
  destruct (repos w !! filepath_Base (Url target)) as [r|]; [|done].
  repeat split.
  all: try (destruct (Repository_DeleteTag r _) as [r1 e1];
            destruct (failed_other_than ErrTagNotFound e1); [done|];
            try (destruct (Repository_CreateTag r1 _ c) as [r2 [e2|]]); done).
  all: destruct (Repository_CreateTag r _ c) as [r1 e1];
       by destruct (failed_other_than ErrTagExists e1).
Qed.

Lemma CatchUp_frame (sched : list nat) (mo : SingleMethodObj) (a b : Hash)
    (targetPath : string) (tags : option (list string))
    (globPattern : option string) (w : World) (d n : string) :
  n <> currentTag (mo_Method mo) -> n <> progressTag (mo_Method mo) ->
  tag_of (fst (CatchUpCurrent sched mo a targetPath tags globPattern w)) d n
  = tag_of w d n /\
  tag_of (fst (CatchUpProgress sched mo a b targetPath tags globPattern w)) d n
  = tag_of w d n /\
  tag_of (fst (CatchUpLatest sched mo a b targetPath tags globPattern w)) d n
  = tag_of w d n.
Proof.
  intros Hc Hp.
  assert (Hdel : forall w0, tag_of (fst (deleteProgress mo w0)) d n = tag_of w0 d n).
  { intros w0. unfold deleteProgress.
    pose proof (DeleteInProgress_frame (mo_Target mo) (mo_Method mo) w0 d n Hp) as H.
    by destruct (DeleteInProgress _ _ w0) as [w1 [e|]]. }
  split; [|split].
  - unfold CatchUpCurrent.
    pose proof (Apply_frame sched mo zeroHash a targetPath tags globPattern w d n) as H.
    by destruct (Apply sched mo zeroHash a _ _ _ w) as [w1 [[e|]|]].
  - unfold CatchUpProgress. destruct (negb (b =? a)%N); [|apply Hdel].
    pose proof (Apply_frame sched mo a b targetPath tags globPattern w d n) as H.
    destruct (Apply sched mo a b _ _ _ w) as [w1 [[e|]|]]; simpl in H; [| |done].
    + pose proof (DeleteInProgress_frame (mo_Target mo) (mo_Method mo) w1 d n Hp) as H1.
      destruct (DeleteInProgress _ _ w1) as [w2 [e'|]]; simpl in *; congruence.
    + pose proof (UpdateCurrent_frame (mo_Target mo) (mo_Method mo) b w1 d n Hc) as H1.
      destruct (UpdateCurrent _ _ b w1) as [w2 [e'|]]; simpl in *; [congruence|].
      rewrite Hdel. congruence.
  - unfold CatchUpLatest.
    pose proof (CreateInProgress_frame (mo_Target mo) (mo_Method mo) b w d n Hp) as H0.
    destruct (CreateInProgress _ _ b w) as [w0 [e0|]]; simpl in H0; [done|].
    pose proof (Apply_frame sched mo a b targetPath tags globPattern w0 d n) as H.
    destruct (Apply sched mo a b _ _ _ w0) as [w1 [[e|]|]]; simpl in H;
      [| |simpl; congruence].
    + pose proof (DeleteInProgress_frame (mo_Target mo) (mo_Method mo) w1 d n Hp) as H1.
      destruct (DeleteInProgress _ _ w1) as [w2 [e'|]]; simpl in *; congruence.
    + pose proof (UpdateCurrent_frame (mo_Target mo) (mo_Method mo) b w1 d n Hc) as H1.
      destruct (UpdateCurrent _ _ b w1) as [w2 [e'|]]; simpl in *; [congruence|].
      pose proof (DeleteInProgress_frame (mo_Target mo) (mo_Method mo) w2 d n Hp) as H2.
      destruct (DeleteInProgress _ _ w2) as [w3 [e''|]]; simpl in *; congruence.
Qed.

(** X1.  On an accessible clone [UpdateCurrent] succeeds and [GetCurrent]
    then reads back the commit that was written, whatever the tag was
    before. *)
Theorem UpdateCurrent_then_GetCurrent (target : Target) (method : string)
    (c : Hash) (w : World) :
  accessible w (filepath_Base (Url target)) = true ->
  exists w', UpdateCurrent target method c w = (w', None) /\
             GetCurrent target method w' = inr c.
Proof.
  intros Hacc.
  destruct (UpdateCurrent_accessible target method c w Hacc)
    as (w' & Heq & Hacc' & Htags & _).
  exists w'. split; [done|].
  rewrite (GetCurrent_accessible _ _ _ Hacc'), Htags. by rewrite decide_True.
Qed.

(** X2.  On an accessible clone: where there is no progress tag,
    [CreateInProgress] followed by [GetInProgress] reads back the commit
    written; and after [DeleteInProgress], from any state of the tag,
    [GetInProgress] reads the zero hash and a second [DeleteInProgress]
    succeeds as well. *)
Theorem progress_tag_lifecycle (target : Target) (method : string)
    (latest : Hash) (w : World) :
  accessible w (filepath_Base (Url target)) = true ->
  (tag_of w (filepath_Base (Url target)) (progressTag method) = None ->
   exists w', CreateInProgress target method latest w = (w', None) /\
              GetInProgress target method w' = inr latest) /\
  (exists w', DeleteInProgress target method w = (w', None) /\
              GetInProgress target method w' = inr 0%N /\
              exists w'', DeleteInProgress target method w' = (w'', None) /\
                          GetInProgress target method w'' = inr 0%N).
Proof.
  intros Hacc. split.
  - intros Habs.
    destruct (CreateInProgress_accessible target method latest w Hacc)
      as (w' & Heq & Hacc' & Htags & _).
    exists w'. split; [done|].
    rewrite (GetInProgress_accessible _ _ _ Hacc'), Htags, Habs.
    by rewrite decide_True.
  - destruct (DeleteInProgress_accessible target method w Hacc)
      as (w' & Heq & Hacc' & Htags & _).
    exists w'. split; [done|]. split.
    + rewrite (GetInProgress_accessible _ _ _ Hacc'), Htags. by rewrite decide_True.
    + destruct (DeleteInProgress_accessible target method w' Hacc')
        as (w'' & Heq' & Hacc'' & Htags' & _).
      exists w''. split; [done|].
      rewrite (GetInProgress_accessible _ _ _ Hacc''), Htags'. by rewrite decide_True.
Qed.

(** X3.  The catch-up entry points of one method never move the tags of
    another method: after [CatchUpCurrent], [CatchUpProgress] or
    [CatchUpLatest] for [mo], whatever their outcome, the current and the
    progress tag of a method object with a different method name are as
    before. *)
Theorem catch_up_keeps_tags_of_other_methods (sched : list nat)
    (mo mo' : SingleMethodObj) (a b : Hash) (targetPath : string)
    (tags : option (list string)) (globPattern : option string) (w w' : World) :
  mo_Method mo' <> mo_Method mo ->
  w' = fst (CatchUpCurrent sched mo a targetPath tags globPattern w) \/
  w' = fst (CatchUpProgress sched mo a b targetPath tags globPattern w) \/
  w' = fst (CatchUpLatest sched mo a b targetPath tags globPattern w) ->
  currentOf w' mo' = currentOf w mo' /\ progressOf w' mo' = progressOf w mo'.
Proof.
  intros Hne Hw'. unfold currentOf, progressOf.
  assert (Hframe : forall n, n <> currentTag (mo_Method mo) ->
                             n <> progressTag (mo_Method mo) ->
                             tag_of w' (cloneDir mo') n = tag_of w (cloneDir mo') n).
  { intros n Hc Hp.
    destruct (CatchUp_frame sched mo a b targetPath tags globPattern w
                (cloneDir mo') n Hc Hp) as (H1 & H2 & H3).
    by destruct Hw' as [->|[->| ->]]. }
  split; apply Hframe.
  - intros H. by apply currentTag_inj in H.
  - apply currentTag_neq_progressTag.
  - intros H. symmetry in H. by apply currentTag_neq_progressTag in H.
  - intros H. by apply progressTag_inj in H.
Qed.

(** X4.  [Apply] and [CatchUpCurrent] move no tag: for every schedule and
    every outcome the clones are as they were, although the comment on
    [Apply] speaks of moving the current tag.  And when [Apply] has handed
    no change map to the dispatcher, it has changed nothing at all. *)
Theorem Apply_moves_no_tag (sched : list nat) (mo : SingleMethodObj)
    (currentState desiredState : Hash) (targetPath : string)
    (tags : option (list string)) (globPattern : option string) (w : World) :
  repos (fst (Apply sched mo currentState desiredState targetPath tags
                    globPattern w)) = repos w /\
  repos (fst (CatchUpCurrent sched mo desiredState targetPath tags
                             globPattern w)) = repos w /\
  (dispatched (fst (Apply sched mo currentState desiredState targetPath tags
                          globPattern w)) = dispatched w ->
   fst (Apply sched mo currentState desiredState targetPath tags globPattern w)
   = w).
Proof.
  split; [apply Apply_repos|]. split.
  - unfold CatchUpCurrent.
    pose proof (Apply_repos sched mo zeroHash desiredState targetPath tags
                  globPattern w) as H.
    by destruct (Apply sched mo zeroHash desiredState _ _ _ w) as [w1 [[e|]|]].
  - unfold Apply.
    destruct (IsZero desiredState); [done|].
    destruct (getSubTreeFromHash w _ currentState targetPath); [done|].
    destruct (getSubTreeFromHash w _ desiredState targetPath); [done|].
    destruct (getFilteredChangeMap _ _ _ _ _ _) as [|changeMap]; [done|].
    pose proof (runChangesConcurrent_world sched mo changeMap w) as [_ Hd].
    destruct (runChangesConcurrent sched mo changeMap w) as [w1 [[e|]|]];
      simpl in *; rewrite Hd; intros Habs;
      apply (f_equal length) in Habs; rewrite length_app in Habs;
      simpl in Habs; lia.
Qed.

(** X5.  [CatchUpProgress] called with a zero [progress] and a different
    [current], as the tags read on a clone that has a current tag and no
    progress tag, always returns an error: [Apply] refuses the zero desired
    state, nothing is dispatched, the host is untouched and no tag other
    than the progress tag is touched. *)
Theorem CatchUpProgress_fails_on_zero_progress (sched : list nat)
    (mo : SingleMethodObj) (current progress : Hash) (targetPath : string)
    (tags : option (list string)) (globPattern : option string) (w : World) :
  IsZero progress = true -> progress <> current ->
  exists w' err,
    CatchUpProgress sched mo current progress targetPath tags globPattern w
    = (w', Done (Some err)) /\
    host w' = host w /\ dispatched w' = dispatched w /\
    forall d n, n <> progressTag (mo_Method mo) -> tag_of w' d n = tag_of w d n.
Proof.
  intros Hz Hne. unfold CatchUpProgress.
  apply N.eqb_neq in Hne. rewrite Hne. simpl.
  unfold Apply. rewrite Hz.
  destruct (tag_ops_keep_host (mo_Target mo) (mo_Method mo) 0%N w)
    as (_ & _ & Hh & Hd).
  pose proof (DeleteInProgress_frame (mo_Target mo) (mo_Method mo) w) as Hf.
  destruct (DeleteInProgress (mo_Target mo) (mo_Method mo) w) as [w' [e|]];
    simpl in *; by eexists w', _.
Qed.

(** X6.  The write-ahead step guards the dispatch: on a clone that cannot
    be accessed [CatchUpLatest] returns the error of [CreateInProgress],
    wrapped, and leaves the world as it was; no change map is computed or
    dispatched. *)
Theorem CatchUpLatest_stops_without_progress_tag (sched : list nat)
    (mo : SingleMethodObj) (current latest : Hash) (targetPath : string)
    (tags : option (list string)) (globPattern : option string) (w : World) :
  accessible w (cloneDir mo) = false ->
  exists err,
    CatchUpLatest sched mo current latest targetPath tags globPattern w
    = (w, Done (Some (WrapErr err "Failed to create progress tag"))).
Proof.
  unfold accessible, cloneDir, CatchUpLatest, CreateInProgress, PlainOpen.
  destruct (repos w !! filepath_Base (Url (mo_Target mo))) as [r|] eqn:Hr.
  - intros Hs. apply negb_false_iff in Hs.
    unfold Repository_CreateTag. rewrite Hs. simpl.
    eexists. f_equal. unfold with_repo. rewrite (insert_id _ _ _ Hr).
    by destruct w.
  - intros _. by eexists.
Qed.

(** X7.  Resuming after an interruption.  Start on an accessible clone
    without a progress tag and let [CatchUpLatest] be cut off while its
    dispatch is under way.  Then [GetInProgress] reads [latest] and
    [GetCurrent] reads what it read before; and [CatchUpProgress] called
    with these two commits runs [Apply] over the same range: if that
    returns no error, the current tag is at [latest] and the progress tag
    is gone. *)
Theorem interrupted_CatchUpLatest_is_replayed (sched sched' : list nat)
    (mo : SingleMethodObj) (current latest : Hash) (targetPath : string)
    (tags : option (list string)) (globPattern : option string) (w w1 : World) :
  accessible w (cloneDir mo) = true ->
  progressOf w mo = None ->
  CatchUpLatest sched mo current latest targetPath tags globPattern w
  = (w1, Waiting) ->
  GetInProgress (mo_Target mo) (mo_Method mo) w1 = inr latest /\
  GetCurrent (mo_Target mo) (mo_Method mo) w1
  = GetCurrent (mo_Target mo) (mo_Method mo) w /\
  (latest <> current ->
   forall w2,
     Apply sched' mo current latest targetPath tags globPattern w1 = (w2, Done None) ->
     exists w3,
       CatchUpProgress sched' mo current latest targetPath tags globPattern w1
       = (w3, Done None) /\
       currentOf w3 mo = Some latest /\ progressOf w3 mo = None).
Proof.
  unfold progressOf, currentOf, cloneDir. intros Hacc Habs Hrun.
  destruct (CreateInProgress_accessible (mo_Target mo) (mo_Method mo) latest w Hacc)
    as (w0 & Hcreate & Hacc0 & Htags0 & _).
  unfold CatchUpLatest in Hrun. rewrite Hcreate in Hrun.
  pose proof (Apply_repos sched mo current latest targetPath tags globPattern w0)
    as Hrepos.
  destruct (Apply sched mo current latest targetPath tags globPattern w0)
    as [w1' [[e|]|]]; simpl in Hrepos.
  - by destruct (DeleteInProgress _ _ w1') as [? [?|]].
  - destruct (UpdateCurrent _ _ latest w1') as [? [?|]]; [done|].
    by destruct (DeleteInProgress _ _ _) as [? [?|]].
  - injection Hrun as ->.
    assert (Hacc1 : accessible w1 (filepath_Base (Url (mo_Target mo))) = true)
      by (by rewrite (accessible_same_repos _ _ _ Hrepos)).
    assert (Htags1 : forall n, tag_of w1 (filepath_Base (Url (mo_Target mo))) n
                               = tag_of w0 (filepath_Base (Url (mo_Target mo))) n)
      by (intros n; by apply tag_of_same_repos).
    split; [|split].
    + rewrite (GetInProgress_accessible _ _ _ Hacc1), Htags1, Htags0, Habs.
      by rewrite decide_True.
    + rewrite (GetCurrent_accessible _ _ _ Hacc1), (GetCurrent_accessible _ _ _ Hacc).
      rewrite Htags1, Htags0.
      by rewrite decide_False by apply currentTag_neq_progressTag.
    + intros Hne w2 Happly. unfold CatchUpProgress.
      apply N.eqb_neq in Hne. rewrite Hne. simpl. rewrite Happly.
      pose proof (Apply_repos sched' mo current latest targetPath tags globPattern w1)
        as Hrepos2.
      rewrite Happly in Hrepos2. simpl in Hrepos2.
      rewrite <- (accessible_same_repos _ _ _ Hrepos2) in Hacc1.
      destruct (UpdateCurrent_accessible (mo_Target mo) (mo_Method mo) latest w2 Hacc1)
        as (w3 & -> & Hacc3 & Htags3 & _).
      unfold deleteProgress.
      destruct (DeleteInProgress_accessible (mo_Target mo) (mo_Method mo) w3 Hacc3)
        as (w4 & -> & _ & Htags4 & _).
      exists w4. split; [done|]. rewrite !Htags4.
      rewrite decide_False by apply currentTag_neq_progressTag.
      rewrite Htags3. by rewrite !decide_True.
Qed.

End CatchUpMore.


(** ** More on the change selector *)

Section SelectorMore.

Context `{C : Collaborators}.

Lemma substring_all (s : string) : String.substring 0 (String.length s) s = s.
Proof. induction s as [|c s IH]; simpl; [done|]. by rewrite IH. Qed.

Lemma substring_skip_prefix (p t : string) (n : nat) :
  String.substring (String.length p) n (p +:+ t) = String.substring 0 n t.
Proof. induction p as [|c p IH]; simpl; [done|]. apply IH. Qed.

Lemma length_append (p t : string) :
  String.length (p +:+ t) = String.length p + String.length t.
Proof. induction p as [|c p IH]; simpl; [done|]. by rewrite IH. Qed.

Lemma substring_split (s : string) (n : nat) :
  n <= String.length s ->
  s = String.substring 0 n s +:+ String.substring n (String.length s - n) s.
Proof.
  revert n. induction s as [|c s IH]; intros n Hn; simpl in *.
  - by destruct n.
  - destruct n as [|n]; simpl.
    + by rewrite substring_all.
    + rewrite (IH n) at 1 by lia. reflexivity.
Qed.

Lemma append_empty_r (s : string) : s +:+ "" = s.
Proof.
  induction s as [|c s IH]; [done|].
  change (String c (s +:+ "") = String c s). by rewrite IH.
Qed.

Lemma HasSuffix_spec (s suffix : string) :
  HasSuffix s suffix = true <-> exists prefix, s = prefix +:+ suffix.
Proof.
  unfold HasSuffix. rewrite andb_true_iff, Nat.leb_le, String.eqb_eq. split.
  - intros [Hlen Hsub].
    exists (String.substring 0 (String.length s - String.length suffix) s).
    rewrite (substring_split s (String.length s - String.length suffix)) at 1 by lia.
    replace (String.length s - (String.length s - String.length suffix))
      with (String.length suffix) by lia.
    by rewrite Hsub.
  - intros [prefix ->]. rewrite length_append. split; [lia|].
    replace (String.length prefix + String.length suffix - String.length suffix)
      with (String.length prefix) by lia.
    by rewrite substring_skip_prefix, substring_all.
Qed.

(** X8.  [checkTag] with a suffix list accepts a name exactly when the name
    is some prefix followed by one of the listed suffixes; a list that
    holds the empty string therefore accepts every name. *)
Theorem checkTag_accepts_listed_suffixes (suffixes : list string) (name : string) :
  (checkTag (Some suffixes) name = true <->
   exists suffix prefix, In suffix suffixes /\ name = prefix +:+ suffix) /\
  (In "" suffixes -> checkTag (Some suffixes) name = true).
Proof.
  assert (Hspec : checkTag (Some suffixes) name = true <->
                  exists suffix prefix, In suffix suffixes /\ name = prefix +:+ suffix).
  { simpl. induction suffixes as [|s suffixes IH]; simpl.
    - split; [done|]. by intros (? & ? & [] & _).
    - destruct (HasSuffix name s) eqn:Hs.
      + split; [|done]. intros _. apply HasSuffix_spec in Hs as [prefix ->].
        exists s, prefix. by split; [left|].
      + rewrite IH. split.
        * intros (suffix & prefix & Hin & ->). exists suffix, prefix. by split; [right|].
        * intros (suffix & prefix & [<-|Hin] & ->).
          -- assert (HasSuffix (prefix +:+ s) s = true) as Habs
               by (apply HasSuffix_spec; by exists prefix).
             congruence.
          -- by exists suffix, prefix. }
  split; [done|]. intros Hin. apply Hspec. exists "", name. split; [done|].
  by rewrite append_empty_r.
Qed.

(** X9.  Every entry of the diff whose "to" name is non-empty, ends with an
    allowed suffix and matches the compiled glob is a member of the change
    map, with the joined path as its destination. *)
Theorem create_or_modify_is_selected (directory targetPath : string)
    (currentTree desiredTree : Tree) (tags : option (list string))
    (globPattern : option string) (g : Glob) (changes : list Change)
    (change : Change) :
  glob_Compile (match globPattern with Some pattern => pattern | None => "**" end)
  = inr g ->
  Tree_Diff currentTree desiredTree = inr changes ->
  In change changes ->
  ce_Name (To change) <> "" ->
  checkTag tags (ce_Name (To change)) = true ->
  glob_Match g (ce_Name (To change)) = true ->
  exists changeMap,
    getFilteredChangeMap directory targetPath currentTree desiredTree tags
                         globPattern = inr changeMap /\
    In (change, filepath_Join [directory; targetPath; ce_Name (To change)])
       changeMap.
Proof.
  intros Hg Hdiff Hin Hname Htag Hglob.
  exists (filterChanges directory targetPath tags g changes). split.
  - unfold getFilteredChangeMap. destruct globPattern; by rewrite Hg, Hdiff.
  - rewrite filterChanges_flat_map. apply in_flat_map. exists change.
    split; [done|]. unfold selected, addChange, keepTo.
    apply eqb_empty_false in Hname. rewrite Hname, Htag, Hglob. by left.
Qed.

(** X10.  The change map follows the diff: its changes are a sublist of the
    diff, in the order of the diff and each entry of the diff at most once,
    so it never has more entries than the diff. *)
Theorem change_map_follows_diff (directory targetPath : string)
    (currentTree desiredTree : Tree) (tags : option (list string))
    (globPattern : option string) (changeMap : ChangeMap) :
  getFilteredChangeMap directory targetPath currentTree desiredTree tags
                       globPattern = inr changeMap ->
  exists changes,
    Tree_Diff currentTree desiredTree = inr changes /\
    sublist (map fst changeMap) changes /\
    length changeMap <= length changes.
Proof.
  intros Hmap.
  destruct (getFilteredChangeMap_inr _ _ _ _ _ _ _ Hmap)
    as (g & changes & _ & Hdiff & ->).
  exists changes. split; [done|].
  assert (Hsub : sublist (map fst (filterChanges directory targetPath tags g changes))
                         changes).
  { rewrite filterChanges_flat_map. clear Hdiff Hmap.
    induction changes as [|change changes IH]; simpl; [constructor|].
    rewrite map_app. unfold selected at 1, addChange.
    destruct (keepTo tags g change); [|destruct (keepFrom tags g change)]; simpl.
    - by apply sublist_skip.
    - by apply sublist_skip.
    - by apply sublist_cons. }
  split; [done|]. apply sublist_length in Hsub. by rewrite length_map in Hsub.
Qed.

(** X11.  For a pure deletion (empty "to" name) the suffixes are checked on
    the "from" name and the glob is asked about the "to" name, the empty
    string: the entry is a member exactly when the "from" name is
    non-empty, ends with an allowed suffix and the glob matches the empty
    string, and its destination is the delete sentinel.  Under a glob that
    does not match the empty string no pure deletion is a member. *)
Theorem pure_deletion_selected_iff (directory targetPath : string)
    (currentTree desiredTree : Tree) (tags : option (list string))
    (globPattern : option string) (g : Glob) (changes : list Change)
    (changeMap : ChangeMap) (change : Change) (dest : string) :
  glob_Compile (match globPattern with Some pattern => pattern | None => "**" end)
  = inr g ->
  Tree_Diff currentTree desiredTree = inr changes ->
  getFilteredChangeMap directory targetPath currentTree desiredTree tags
                       globPattern = inr changeMap ->
  In change changes ->
  ce_Name (To change) = "" ->
  (In (change, dest) changeMap <->
   ce_Name (From change) <> "" /\
   checkTag tags (ce_Name (From change)) = true /\
   glob_Match g "" = true /\
   dest = deleteFile) /\
  (glob_Match g "" = false -> ~ In (change, dest) changeMap).
Proof.
  intros Hg Hdiff Hmap Hin Hto.
  assert (Heq : changeMap = filterChanges directory targetPath tags g changes).
  { unfold getFilteredChangeMap in Hmap.
    destruct globPattern; rewrite Hg, Hdiff in Hmap; congruence. }
  subst changeMap.
  assert (Hiff : In (change, dest) (filterChanges directory targetPath tags g changes)
                 <-> ce_Name (From change) <> "" /\
                     checkTag tags (ce_Name (From change)) = true /\
                     glob_Match g "" = true /\ dest = deleteFile).
  { split.
    - intros Hmem.
      destruct (filterChanges_member _ _ _ _ _ _ _ Hmem)
        as [_ [[Hk _]|(_ & Hk & ->)]].
      + unfold keepTo in Hk. by rewrite Hto in Hk.
      + unfold keepFrom in Hk. rewrite Hto in Hk.
        rewrite !andb_true_iff, eqb_empty_false in Hk. tauto.
    - intros (Hname & Htag & Hglob & ->).
      rewrite filterChanges_flat_map. apply in_flat_map. exists change.
      split; [done|]. unfold selected, addChange, keepTo, keepFrom.
      apply eqb_empty_false in Hname. rewrite Hto, Hname, Htag, Hglob. by left. }
  split; [done|]. intros Hno Hmem. apply Hiff in Hmem. destruct Hmem as (_ & _ & H & _).
  congruence.
Qed.

End SelectorMore.


(** ** More on the concurrent dispatcher *)

Section DispatcherMore.

Context `{C : Collaborators}.

Lemma step_length (mo : SingleMethodObj) (i : nat) (d d' : Dispatch) :
  step mo i d = Some d' -> length (d_tasks d') = length (d_tasks d).
Proof.
  unfold step.
  destruct (d_tasks d !! i) as [[changePath change|e| |]|]; try done.
  - destruct (EngineMethod mo changePath change (d_host d)) as [h err].
    intros [= <-]. simpl. apply length_insert.
  - destruct (d_coord d) as [[|k]|]; try done.
    intros [= <-]. simpl. apply length_insert.
  - destruct (d_coord d) as [[|k]|]; try done.
    intros [= <-]. simpl. apply length_insert.
Qed.

Lemma run_length (mo : SingleMethodObj) (sched : list nat) (d : Dispatch) :
  length (d_tasks (run mo sched d)) = length (d_tasks d).
Proof.
  revert d. induction sched as [|i sched IH]; intros d; simpl.
  - by destruct (d_coord d).
  - destruct (d_coord d); [|done]. rewrite IH.
    destruct (step mo i d) as [d'|] eqn:Hstep; simpl; [|done].
    by apply step_length in Hstep.
Qed.

Lemma step_after_return (mo : SingleMethodObj) (i : nat) (d d' : Dispatch)
    (err : error) :
  d_coord d = Returned err -> step mo i d = Some d' ->
  d_coord d' = Returned err /\
  count isExit (d_tasks d') = count isExit (d_tasks d).
Proof.
  intros Hco. unfold step. rewrite Hco.
  destruct (d_tasks d !! i) as [[changePath change|e| |]|] eqn:Hi; try done.
  destruct (EngineMethod mo changePath change (d_host d)) as [h e].
  intros [= <-]. simpl. split; [done|].
  pose proof (count_insert isExit _ _ _ (afterMethod e) Hi) as H.
  destruct e; simpl in *; lia.
Qed.

Lemma afterwards_after_return (mo : SingleMethodObj) (later : list nat)
    (d : Dispatch) (err : error) :
  d_coord d = Returned err ->
  d_coord (afterwards mo later d) = Returned err /\
  count isExit (d_tasks (afterwards mo later d)) = count isExit (d_tasks d) /\
  length (d_tasks (afterwards mo later d)) = length (d_tasks d).
Proof.
  revert d. induction later as [|i later IH]; intros d Hco; simpl; [done|].
  destruct (step mo i d) as [d'|] eqn:Hstep; simpl; [|by apply IH].
  destruct (step_after_return _ _ _ _ _ Hco Hstep) as [Hco' Hexit].
  destruct (IH d' Hco') as (H1 & H2 & H3).
  rewrite H1, H2, H3, Hexit. by rewrite (step_length _ _ _ _ Hstep).
Qed.

Lemma count_all {A : Type} (P : A -> bool) (l : list A) :
  Forall (fun x => P x = true) l -> count P l = length l.
Proof. induction 1 as [|x l Hx _ IH]; simpl; [done|]. by rewrite Hx, IH. Qed.

Lemma count_lt_length {A : Type} (P : A -> bool) (l : list A) :
  count P l < length l -> exists i x, l !! i = Some x /\ P x = false.
Proof.
  induction l as [|x l IH]; simpl; [lia|].
  destruct (P x) eqn:HP.
  - intros H. destruct IH as (i & y & Hi & Hy); [lia|]. by exists (S i), y.
  - intros _. by exists 0, x.
Qed.

(** X13.  A goroutine is lost on every error return.  When
    [runChangesConcurrent] has returned an error, fewer goroutines have
    returned than were started, and this stays so whatever steps the
    goroutines take afterwards: nobody receives from the channel any more,
    so a goroutine that has not returned by then never does. *)
Theorem error_return_strands_goroutines (mo : SingleMethodObj)
    (changeMap : ChangeMap) (h : Host) (sched later : list nat) (e : Error) :
  d_coord (run mo sched (dispatch changeMap h)) = Returned (Some e) ->
  let d := afterwards mo later (run mo sched (dispatch changeMap h)) in
  d_coord d = Returned (Some e) /\
  length (d_tasks d) = length changeMap /\
  count isExit (d_tasks d) < length changeMap /\
  exists i g, d_tasks d !! i = Some g /\ g <> GoExit.
Proof.
  intros Hco d.
  pose proof (dispatch_inv_run mo _ sched _ (dispatch_inv_init changeMap h))
    as [_ Hinv].
  rewrite Hco in Hinv. destruct Hinv as (j & Hj & _ & _ & Hexit).
  destruct (afterwards_after_return mo later _ _ Hco) as (H1 & H2 & H3).
  fold d in H1, H2, H3.
  assert (Hlen : length (d_tasks d) = length changeMap).
  { rewrite H3, run_length. unfold dispatch, spawn. simpl. apply length_map. }
  assert (Hlt : count isExit (d_tasks d) < length changeMap) by lia.
  repeat split; try done.
  destruct (count_lt_length isExit (d_tasks d)) as (i & g & Hi & Hg); [lia|].
  exists i, g. split; [done|]. by intros ->.
Qed.

Lemma count_cons_eqb (i j : nat) (sched : list nat) :
  count (Nat.eqb i) (j :: sched) =
  (if decide (i = j) then 1 else 0) + count (Nat.eqb i) sched.
Proof.
  cbn [count]. destruct (decide (i = j)) as [->|Hne].
  - by rewrite Nat.eqb_refl.
  - apply Nat.eqb_neq in Hne. by rewrite Hne.
Qed.

Lemma step_other (mo : SingleMethodObj) (i j : nat) (d d' : Dispatch) :
  i <> j -> step mo j d = Some d' -> d_tasks d' !! i = d_tasks d !! i.
Proof.
  intros Hne. unfold step.
  destruct (d_tasks d !! j) as [[changePath change|e| |]|]; try done.
  - destruct (EngineMethod mo changePath change (d_host d)) as [h' err].
    intros [= <-]. simpl. by rewrite list_lookup_insert_ne.
  - destruct (d_coord d) as [[|k1]|]; try done.
    intros [= <-]. simpl. by rewrite list_lookup_insert_ne.
  - destruct (d_coord d) as [[|k1]|]; try done.
    intros [= <-]. simpl. by rewrite list_lookup_insert_ne.
Qed.

(** A step of goroutine [j] while the caller receives moves it one rank
    up, unless it makes the caller return. *)
Lemma step_own (mo : SingleMethodObj) (j k : nat) (d d' : Dispatch) (g : Goroutine) :
  d_coord d = Receiving k -> d_tasks d !! j = Some g -> step mo j d = Some d' ->
  (exists e, d_coord d' = Returned (Some e)) \/
  (exists g', d_tasks d' !! j = Some g' /\ rank g' = rank g + 1).
Proof.
  intros Hco Hj. unfold step. rewrite Hj, Hco.
  assert (Hlt : j < length (d_tasks d)) by (by eapply lookup_lt_Some).
  destruct g as [changePath change|e| |]; try done.
  - destruct (EngineMethod mo changePath change (d_host d)) as [h' err].
    intros [= <-]. right. simpl. rewrite list_lookup_insert_eq by done.
    eexists. split; [done|]. by destruct err.
  - destruct k as [|k]; [done|]. intros [= <-]. left. by eexists.
  - destruct k as [|k]; [done|]. intros [= <-]. right. simpl.
    rewrite list_lookup_insert_eq by done. by eexists.
Qed.

(** A goroutine that cannot step while the caller receives has returned. *)
Lemma step_none (mo : SingleMethodObj) (j k : nat) (d : Dispatch) (g : Goroutine) :
  d_coord d = Receiving k -> 0 < k -> d_tasks d !! j = Some g ->
  step mo j d = None -> rank g = 2.
Proof.
  intros Hco Hk Hj. unfold step. rewrite Hj, Hco.
  destruct g as [changePath change|e| |]; try done.
  - by destruct (EngineMethod mo changePath change (d_host d)).
  - destruct k; [lia|done].
  - destruct k; [lia|done].
Qed.

Lemma run_rank (mo : SingleMethodObj) (n : nat) (sched : list nat) :
  forall (d : Dispatch) (k : nat),
    dispatch_inv n d ->
    d_coord (run mo sched d) = Receiving k ->
    forall i g, d_tasks d !! i = Some g ->
      exists g', d_tasks (run mo sched d) !! i = Some g' /\
                 Nat.min 2 (rank g + count (Nat.eqb i) sched) <= rank g'.
Proof.
  induction sched as [|j sched IH]; intros d k Hinv Hfinal i g Hi.
  - exists g. split; [by destruct d as [? ? []]|]. cbn [count]. lia.
  - destruct (d_coord d) as [k0|err] eqn:Hco;
      [|by rewrite (run_returned _ _ _ _ Hco), Hco in Hfinal].
    rewrite (run_cons _ _ _ _ _ Hco) in Hfinal |- *.
    rewrite count_cons_eqb.
    destruct (step mo j d) as [d1|] eqn:Hstep.
    + change (default d (Some d1)) with d1 in *.
      pose proof (dispatch_inv_step _ _ _ _ _ _ Hinv Hco Hstep) as Hinv1.
      destruct (decide (i = j)) as [->|Hne].
      * destruct (step_own _ _ _ _ _ _ Hco Hi Hstep) as [[e He]|(g1 & Hj1 & Hrank)].
        { by rewrite (run_returned _ _ _ _ He), He in Hfinal. }
        destruct (IH d1 k Hinv1 Hfinal j g1 Hj1) as (g' & Hg' & Hle).
        exists g'. split; [done|]. lia.
      * rewrite <- (step_other _ _ _ _ _ Hne Hstep) in Hi.
        destruct (IH d1 k Hinv1 Hfinal i g Hi) as (g' & Hg' & Hle).
        exists g'. split; [done|]. lia.
    + change (default d None) with d in *.
      destruct (IH d k Hinv Hfinal i g Hi) as (g' & Hg' & Hle).
      exists g'. split; [done|].
      destruct (decide (i = j)) as [->|Hne]; [|lia].
      assert (Hrank : rank g = 2).
      { destruct Hinv as [_ Hinv]. rewrite Hco in Hinv. destruct Hinv as (Hk & _).
        by eapply step_none. }
      lia.
Qed.

(** X14.  The caller cannot be left waiting: under every schedule that
    gives each goroutine at least two turns, [runChangesConcurrent] has
    returned by the end of the schedule. *)
Theorem returns_when_every_goroutine_had_two_turns (mo : SingleMethodObj)
    (changeMap : ChangeMap) (w : World) (sched : list nat) :
  (forall i, i < length changeMap -> 2 <= count (Nat.eqb i) sched) ->
  exists w' err, runChangesConcurrent sched mo changeMap w = (w', Done err).
Proof.
  intros Hfair. unfold runChangesConcurrent.
  pose proof (dispatch_inv_init changeMap (host w)) as Hinit.
  pose proof (dispatch_inv_run mo _ sched _ Hinit) as [_ Hinv].
  destruct (d_coord (run mo sched (dispatch changeMap (host w)))) as [k|err] eqn:Hco;
    [|by eexists _, _].
  exfalso. destruct Hinv as (Hk & Hrecv & Hlen & Hexit & _).
  assert (Hall : Forall (fun g => isExit g = true)
                        (d_tasks (run mo sched (dispatch changeMap (host w))))).
  { apply Forall_lookup. intros i g' Hi'.
    assert (Hlt : i < length changeMap).
    { apply lookup_lt_Some in Hi'. by rewrite Hlen in Hi'. }
    assert (Hinit_i : is_Some (d_tasks (dispatch changeMap (host w)) !! i)).
    { apply lookup_lt_is_Some. unfold dispatch, spawn. simpl. by rewrite length_map. }
    destruct Hinit_i as [g Hg].
    destruct (run_rank mo _ sched _ k Hinit Hco i g Hg) as (g'' & Hg'' & Hle).
    rewrite Hi' in Hg''. injection Hg'' as <-.
    specialize (Hfair i Hlt).
    assert (Hrank : 2 <= rank g') by lia. clear Hle.
    destruct g'; simpl in Hrank; try lia. done. }
  apply count_all in Hall. lia.
Qed.

Lemma readyEntries_call (l : list Goroutine) (i : nat) (changePath : string)
    (change : Change) (g' : Goroutine) :
  l !! i = Some (GoReady changePath change) -> isReady g' = false ->
  readyEntries l ≡ₚ (change, changePath) :: readyEntries (<[i := g']> l).
Proof.
  revert i. induction l as [|g l IH]; intros i Hi Hg'; [done|].
  destruct i as [|i]; simpl in *.
  - injection Hi as ->. unfold readyEntries. simpl. by destruct g'.
  - unfold readyEntries in *. simpl. rewrite (IH i Hi Hg').
    destruct g; simpl; [|done..]. apply Permutation_swap.
Qed.

Lemma readyEntries_same (l : list Goroutine) (i : nat) (g g' : Goroutine) :
  l !! i = Some g -> isReady g = false -> isReady g' = false ->
  readyEntries (<[i := g']> l) = readyEntries l.
Proof.
  revert i. induction l as [|g0 l IH]; intros i Hi Hg Hg'; [done|].
  destruct i as [|i]; simpl in *.
  - injection Hi as ->. unfold readyEntries. simpl. by destruct g, g'.
  - unfold readyEntries in *. simpl. by rewrite (IH i Hi Hg Hg').
Qed.

Lemma readyEntries_none (l : list Goroutine) :
  count isReady l = 0 -> readyEntries l = [].
Proof.
  induction l as [|g l IH]; [done|]. unfold readyEntries in *. simpl.
  destruct g; simpl; intros H; try lia; by apply IH.
Qed.

Lemma accounted_step (mo : SingleMethodObj) (changeMap : ChangeMap) (i : nat)
    (d d' : Dispatch) :
  map callEntry (d_calls d) ++ readyEntries (d_tasks d) ≡ₚ changeMap ->
  step mo i d = Some d' ->
  map callEntry (d_calls d') ++ readyEntries (d_tasks d') ≡ₚ changeMap.
Proof.
  intros Hacc. unfold step.
  destruct (d_tasks d !! i) as [[changePath change|e| |]|] eqn:Hi; try done.
  - destruct (EngineMethod mo changePath change (d_host d)) as [h err].
    intros [= <-]. simpl. rewrite <- Hacc.
    rewrite (readyEntries_call _ _ _ _ (afterMethod err) Hi) by (by destruct err).
    rewrite map_app. simpl. unfold callEntry at 2. simpl.
    rewrite <- app_assoc. done.
  - destruct (d_coord d) as [[|k]|]; try done. intros [= <-]. simpl.
    by rewrite (readyEntries_same _ _ _ _ Hi).
  - destruct (d_coord d) as [[|k]|]; try done. intros [= <-]. simpl.
    by rewrite (readyEntries_same _ _ _ _ Hi).
Qed.

Lemma accounted_run (mo : SingleMethodObj) (changeMap : ChangeMap)
    (sched : list nat) (d : Dispatch) :
  map callEntry (d_calls d) ++ readyEntries (d_tasks d) ≡ₚ changeMap ->
  map callEntry (d_calls (run mo sched d)) ++ readyEntries (d_tasks (run mo sched d))
  ≡ₚ changeMap.
Proof.
  revert d. induction sched as [|i sched IH]; intros d Hacc; simpl.
  - by destruct (d_coord d).
  - destruct (d_coord d); [|done]. apply IH.
    destruct (step mo i d) as [d'|] eqn:Hstep; simpl; [|done].
    by eapply accounted_step.
Qed.

Lemma accounted_afterwards (mo : SingleMethodObj) (changeMap : ChangeMap)
    (later : list nat) (d : Dispatch) :
  map callEntry (d_calls d) ++ readyEntries (d_tasks d) ≡ₚ changeMap ->
  map callEntry (d_calls (afterwards mo later d))
  ++ readyEntries (d_tasks (afterwards mo later d)) ≡ₚ changeMap.
Proof.
  revert d. induction later as [|i later IH]; intros d Hacc; simpl; [done|].
  apply IH. destruct (step mo i d) as [d'|] eqn:Hstep; simpl; [|done].
  by eapply accounted_step.
Qed.

(** X15.  [EngineMethod] is called on entries of the change map only, with
    the path of the entry, and at most once per entry: at every moment of a
    dispatch, also after the caller has returned, the calls made so far are
    a sub-multiset of the change map.  When the caller returns [nil] they
    are the whole change map. *)
Theorem method_called_at_most_once_per_entry (mo : SingleMethodObj)
    (changeMap : ChangeMap) (h : Host) (sched later : list nat) :
  map callEntry
      (d_calls (afterwards mo later (run mo sched (dispatch changeMap h))))
  ⊆+ changeMap /\
  (d_coord (run mo sched (dispatch changeMap h)) = Returned None ->
   map callEntry (d_calls (run mo sched (dispatch changeMap h))) ≡ₚ changeMap).
Proof.
  assert (Hinit : map callEntry (d_calls (dispatch changeMap h))
                  ++ readyEntries (d_tasks (dispatch changeMap h)) ≡ₚ changeMap).
  { unfold dispatch, spawn, readyEntries. simpl.
    induction changeMap as [|[change changePath] changeMap IH]; simpl; [done|].
    by rewrite IH. }
  pose proof (accounted_run mo changeMap sched _ Hinit) as Hrun.
  split.
  - pose proof (accounted_afterwards mo changeMap later _ Hrun) as Hlater.
    etrans; [|by apply Permutation_submseteq]. by apply submseteq_inserts_r.
  - intros Hco.
    pose proof (dispatch_inv_run mo _ sched _ (dispatch_inv_init changeMap h))
      as [_ Hinv].
    rewrite Hco in Hinv.
    destruct Hinv as (Hrecv & Hlen & Hexit & _).
    rewrite Hrecv, <- Hlen in Hexit. apply all_exit in Hexit as [Hready _].
    rewrite (readyEntries_none _ Hready), app_nil_r in Hrun. done.
Qed.

End DispatcherMore.


(** ** Properties of the raw method *)

Section RawMethod.

Context `{C : Collaborators} `{P : Podman}.

(** The calls [deleteContainer] adds. *)
Lemma deleteContainer_calls (podName : string) (mw : MethodWorld) :
  mw_env (fst (deleteContainer podName mw)) = mw_env mw /\
  mw_trace (fst (deleteContainer podName mw)) =
  mw_trace mw ++
  EvStop podName ::
  match snd (containers_Stop podName (mw_pod mw)) with
  | None => [EvRemove podName]
  | Some _ => []
  end.
Proof.
  unfold deleteContainer.
  destruct (containers_Stop podName (mw_pod mw)) as [p1 [e|]]; simpl; [done|].
  destruct (containers_Remove podName p1) as [p2 e2]; simpl.
  by rewrite <- app_assoc.
Qed.

Lemma deleteContainer_result (podName : string) (mw : MethodWorld) :
  snd (deleteContainer podName mw) = snd (containers_Stop podName (mw_pod mw)).
Proof.
  unfold deleteContainer.
  destruct (containers_Stop podName (mw_pod mw)) as [p1 [e|]]; simpl; [done|].
  by destruct (containers_Remove podName p1).
Qed.

Lemma detectOrFetchImage_calls (imageName : string) (force : bool)
    (mw : MethodWorld) :
  mw_env (fst (detectOrFetchImage imageName force mw)) = mw_env mw /\
  mw_trace (fst (detectOrFetchImage imageName force mw)) =
  mw_trace mw ++
  EvExists imageName ::
  match images_Exists imageName (mw_pod mw) with
  | (present, None) => if negb present || force then [EvPull imageName] else []
  | (_, Some _) => []
  end.
Proof.
  unfold detectOrFetchImage.
  destruct (images_Exists imageName (mw_pod mw)) as [present [e|]]; simpl; [done|].
  destruct (negb present || force); simpl; [|done].
  destruct (images_Pull imageName (mw_pod mw)) as [p2 [e|]]; simpl;
    by rewrite <- app_assoc.
Qed.

Lemma removeExisting_calls (podName : string) (mw : MethodWorld) :
  mw_env (fst (removeExisting podName mw)) = mw_env mw /\
  exists evs,
    mw_trace (fst (removeExisting podName mw)) =
    mw_trace mw ++ EvInspect podName :: evs /\
    Forall (fun ev => ev = EvStop podName \/ ev = EvRemove podName) evs.
Proof.
  unfold removeExisting.
  destruct (containers_Inspect podName (mw_pod mw)) as [inspectData err].
  destruct (bool_decide (err = None) || negb inspectData).
  - pose proof (deleteContainer_calls podName
                  (called mw (mw_pod mw) (EvInspect podName))) as [Henv Htr].
    assert (Hgoal : mw_env (fst (deleteContainer podName
                       (called mw (mw_pod mw) (EvInspect podName)))) = mw_env mw /\
              exists evs,
                mw_trace (fst (deleteContainer podName
                       (called mw (mw_pod mw) (EvInspect podName)))) =
                mw_trace mw ++ EvInspect podName :: evs /\
                Forall (fun ev => ev = EvStop podName \/ ev = EvRemove podName) evs).
    { split; [done|]. eexists. rewrite Htr. simpl. rewrite <- app_assoc. simpl.
      split; [reflexivity|].
      destruct (snd (containers_Stop podName (mw_pod mw)));
        repeat (apply Forall_cons_2; [first [by left|by right]|]);
        apply Forall_nil_2. }
    by destruct (deleteContainer podName _) as [mw2 [e|]].
  - split; [done|]. exists []. by split.
Qed.

(** X16.  [deleteContainer] reports the error of [containers.Stop] and
    nothing else: [containers.Remove] is called exactly when the stop
    succeeded, and whatever it returns, [deleteContainer] then returns
    [nil]. *)
Theorem deleteContainer_reports_Stop_only (podName : string) (mw : MethodWorld) :
  snd (deleteContainer podName mw) = snd (containers_Stop podName (mw_pod mw)) /\
  (In (EvRemove podName) (mw_trace (fst (deleteContainer podName mw)))
   <-> In (EvRemove podName) (mw_trace mw) \/
       snd (containers_Stop podName (mw_pod mw)) = None) /\
  (snd (containers_Stop podName (mw_pod mw)) = None ->
   mw_pod (fst (deleteContainer podName mw)) =
   fst (containers_Remove podName (fst (containers_Stop podName (mw_pod mw))))).
Proof.
  destruct (deleteContainer_calls podName mw) as [_ Htr].
  split; [|split].
  - unfold deleteContainer.
    destruct (containers_Stop podName (mw_pod mw)) as [p1 [e|]]; simpl; [done|].
    by destruct (containers_Remove podName p1).
  - rewrite Htr, in_app_iff.
    destruct (snd (containers_Stop podName (mw_pod mw))); simpl;
      split; intros H; try tauto.
    + destruct H as [H|[H|[]]]; [by left|done].
    + destruct H as [H|H]; [by left|done].
  - unfold deleteContainer.
    destruct (containers_Stop podName (mw_pod mw)) as [p1 [e|]]; simpl; [done|].
    by destruct (containers_Remove podName p1).
Qed.

(** X17.  [detectOrFetchImage] asks once whether the image exists and pulls
    exactly when that call succeeded and the image is absent or the pull is
    forced; with the image present and no force it returns [nil] and leaves
    the host as it is. *)
Theorem detectOrFetchImage_pulls_when_needed (imageName : string) (force : bool)
    (mw : MethodWorld) :
  (exists evs,
     mw_trace (fst (detectOrFetchImage imageName force mw)) =
     mw_trace mw ++ EvExists imageName :: evs /\
     (In (EvPull imageName) evs <->
      snd (images_Exists imageName (mw_pod mw)) = None /\
      (fst (images_Exists imageName (mw_pod mw)) = false \/ force = true))) /\
  (images_Exists imageName (mw_pod mw) = (true, None) -> force = false ->
   snd (detectOrFetchImage imageName force mw) = None /\
   mw_pod (fst (detectOrFetchImage imageName force mw)) = mw_pod mw).
Proof.
  split.
  - destruct (detectOrFetchImage_calls imageName force mw) as [_ Htr].
    eexists. split; [exact Htr|].
    destruct (images_Exists imageName (mw_pod mw)) as [present [e|]]; simpl.
    + split; [done|]. by intros [? _].
    + destruct present, force; simpl; split; intros H; try tauto; auto.
      * by destruct H as [_ [?|?]].
  - intros Hex ->. unfold detectOrFetchImage. by rewrite Hex.
Qed.

(** X18.  [rawPodFromBytes] looks at the first byte left by
    [bytes.TrimSpace]: an opening brace sends the bytes to the JSON
    decoder, anything else to the YAML decoder, and when nothing is left,
    as for an empty file, the function panics instead of returning an
    error.  [rawPodman] given such a previous content panics before any
    call to the host. *)
Theorem rawPodFromBytes_by_first_byte (b : list byte) (mo : FileMountOptions)
    (previous : string) (mw : MethodWorld) :
  (bytes_TrimSpace b = [] -> rawPodFromBytes b = Panicked) /\
  (forall rest,
     bytes_TrimSpace b = "{"%byte :: rest ->
     rawPodFromBytes b =
     match json_Unmarshal (bytes_TrimSpace b) emptyRawPod with
     | inl err => Failed (WrapErr err "Unable to unmarshal yaml")
     | inr raw => Ok raw
     end) /\
  (forall first rest,
     bytes_TrimSpace b = first :: rest -> first <> "{"%byte ->
     rawPodFromBytes b =
     match yaml_Unmarshal (bytes_TrimSpace b) emptyRawPod with
     | inl err => Failed (WrapErr err "Unable to unmarshal yaml")
     | inr raw => Ok raw
     end) /\
  (fm_Previous mo = Some previous ->
   bytes_TrimSpace (list_byte_of_string previous) = [] ->
   rawPodman mo mw = (mw, Panics)).
Proof.
  unfold rawPodFromBytes. repeat split.
  - by intros ->.
  - intros rest ->. done.
  - intros first rest -> Hne.
    destruct (Byte.eqb first "{") eqn:Heq; [|done].
    by apply Byte.byte_dec_bl in Heq.
  - intros Hprev Hblank. unfold rawPodman, rawPodFromBytes.
    by rewrite Hprev, Hblank.
Qed.

(** X19.  With the delete sentinel as its path [rawPodman] only takes the
    previous container away: the calls it makes are [containers.Stop] and
    [containers.Remove]; no file is read, no image looked up or pulled and
    no container created or started.  Without a previous content it does
    nothing and returns [nil]. *)
Theorem rawPodman_delete_sentinel (mo : FileMountOptions) (mw : MethodWorld) :
  fm_Path mo = deleteFile ->
  (exists evs,
     mw_trace (fst (rawPodman mo mw)) = mw_trace mw ++ evs /\
     Forall (fun ev => exists name, ev = EvStop name \/ ev = EvRemove name) evs) /\
  (fm_Previous mo = None -> rawPodman mo mw = (mw, Returns None)).
Proof.
  intros Hpath. unfold rawPodman. rewrite Hpath, String.eqb_refl. split.
  - destruct (fm_Previous mo) as [previous|];
      [|exists []; by rewrite app_nil_r].
    destruct (rawPodFromBytes (list_byte_of_string previous)) as [raw|err|];
      try (exists []; by rewrite app_nil_r).
    pose proof (deleteContainer_calls (rp_Name raw) mw) as [_ Htr].
    destruct (deleteContainer (rp_Name raw) mw) as [mw1 [e|]]; simpl in *;
      eexists; (split; [exact Htr|]);
      destruct (snd (containers_Stop (rp_Name raw) (mw_pod mw)));
      repeat (apply Forall_cons_2; [eexists; first [by left|by right]|]);
      apply Forall_nil_2.
  - by intros ->.
Qed.

Lemma rawPodmanCreate_success (mo : FileMountOptions) (mw mw' : MethodWorld) :
  rawPodmanCreate mo mw = (mw', Returns None) ->
  exists rawFile raw id evs,
    let mw1 := called mw (mw_pod mw) (EvReadFile (fm_Path mo)) in
    let mw2 := fst (detectOrFetchImage (rp_Image raw) (fm_PullImage mo) mw1) in
    let mw3 := fst (removeExisting (rp_Name raw) mw2) in
    let created := containers_CreateWithSpec (createSpecGen raw) (mw_pod mw3) in
    ioutil_ReadFile (fm_Path mo) (mw_pod mw) = inr rawFile /\
    rawPodFromBytes rawFile = Ok raw /\
    snd (detectOrFetchImage (rp_Image raw) (fm_PullImage mo) mw1) = None /\
    snd (removeExisting (rp_Name raw) mw2) = None /\
    snd created = inr id /\
    containers_Start id (fst created) = (mw_pod mw', None) /\
    mw_env mw' = mw_env mw /\
    mw_trace mw' =
    mw_trace mw ++ EvReadFile (fm_Path mo) :: EvExists (rp_Image raw) :: evs
    ++ [EvCreateWithSpec (createSpecGen raw); EvStart id] /\
    In (EvInspect (rp_Name raw)) evs.
Proof.
  intros Hrun. unfold rawPodmanCreate in Hrun.
  destruct (ioutil_ReadFile (fm_Path mo) (mw_pod mw)) as [|rawFile] eqn:Hread;
    [done|].
  destruct (rawPodFromBytes rawFile) as [raw|err|] eqn:Hraw; try done.
  exists rawFile, raw. cbv zeta.
  set (mw1 := called mw (mw_pod mw) (EvReadFile (fm_Path mo))) in *.
  assert (exists evs2,
            mw_env (fst (detectOrFetchImage (rp_Image raw) (fm_PullImage mo) mw1))
            = mw_env mw1 /\
            mw_trace (fst (detectOrFetchImage (rp_Image raw) (fm_PullImage mo) mw1))
            = mw_trace mw1 ++ EvExists (rp_Image raw) :: evs2)
    as (evs2 & Henv2 & Htr2)
    by (eexists; apply detectOrFetchImage_calls).
  destruct (detectOrFetchImage (rp_Image raw) (fm_PullImage mo) mw1)
    as [mw2 [e|]] eqn:Himg; [done|].
  cbn [fst snd] in *.
  destruct (removeExisting_calls (rp_Name raw) mw2) as [Henv3 (evs3 & Htr3 & _)].
  destruct (removeExisting (rp_Name raw) mw2) as [mw3 [e|]] eqn:Hrem; [done|].
  cbn [fst snd] in *.
  destruct (containers_CreateWithSpec (createSpecGen raw) (mw_pod mw3))
    as [p4 [err|id]] eqn:Hcreate; [done|].
  cbn [fst snd called mw_pod] in *.
  destruct (containers_Start id p4) as [p5 [e|]] eqn:Hstart; [done|].
  injection Hrun as <-.
  exists id, (evs2 ++ EvInspect (rp_Name raw) :: evs3).
  cbn [mw_trace mw_env mw_pod called].
  split; [done|]. split; [done|]. split; [done|]. split; [done|].
  split; [done|]. split; [done|].
  split; [by rewrite Henv3, Henv2|].
  split.
  - rewrite Htr3, Htr2. subst mw1. cbn [mw_trace called].
    rewrite <- !app_assoc. cbn [app]. reflexivity.
  - apply in_app_iff. right. by left.
Qed.

(** X20.  When [rawPodman] returns [nil] for a path other than the delete
    sentinel, every step of it has succeeded on the state its predecessor
    left: the previous container, if any, was deleted; the file at the path
    was read and decoded to a pod description; the image was found or
    pulled and [removeExisting] returned [nil]; [containers.CreateWithSpec]
    was given the specification built from that description (same name and
    image, restart policy ["always"]) and the identifier it returned is the
    one [containers.Start] was given, whose resulting host state is the
    final one.  The environment is untouched, and the calls are: the read
    of the file, the image lookup, the inspection of the name, and last the
    creation and the start. *)
Theorem rawPodman_success_creates_and_starts (mo : FileMountOptions)
    (mw mw' : MethodWorld) :
  fm_Path mo <> deleteFile ->
  rawPodman mo mw = (mw', Returns None) ->
  exists mw0 rawFile raw id evs,
    let mw1 := called mw0 (mw_pod mw0) (EvReadFile (fm_Path mo)) in
    let mw2 := fst (detectOrFetchImage (rp_Image raw) (fm_PullImage mo) mw1) in
    let mw3 := fst (removeExisting (rp_Name raw) mw2) in
    let created := containers_CreateWithSpec (createSpecGen raw) (mw_pod mw3) in
    match fm_Previous mo with
    | None => mw0 = mw
    | Some previous =>
        exists old,
          rawPodFromBytes (list_byte_of_string previous) = Ok old /\
          deleteContainer (rp_Name old) mw = (mw0, None)
    end /\
    ioutil_ReadFile (fm_Path mo) (mw_pod mw0) = inr rawFile /\
    rawPodFromBytes rawFile = Ok raw /\
    snd (detectOrFetchImage (rp_Image raw) (fm_PullImage mo) mw1) = None /\
    snd (removeExisting (rp_Name raw) mw2) = None /\
    snd created = inr id /\
    containers_Start id (fst created) = (mw_pod mw', None) /\
    mw_env mw' = mw_env mw /\
    mw_trace mw' =
    mw_trace mw ++ evs ++ [EvCreateWithSpec (createSpecGen raw); EvStart id] /\
    In (EvReadFile (fm_Path mo)) evs /\
    In (EvExists (rp_Image raw)) evs /\
    In (EvInspect (rp_Name raw)) evs /\
    sg_Name (createSpecGen raw) = rp_Name raw /\
    sg_Image (createSpecGen raw) = rp_Image raw /\
    sg_RestartPolicy (createSpecGen raw) = "always".
Proof.
  intros Hpath. apply String.eqb_neq in Hpath.
  unfold rawPodman. rewrite Hpath.
  assert (Hcreate : forall mw0 pre,
            mw_env mw0 = mw_env mw ->
            mw_trace mw0 = mw_trace mw ++ pre ->
            rawPodmanCreate mo mw0 = (mw', Returns None) ->
            exists rawFile raw id evs,
              let mw1 := called mw0 (mw_pod mw0) (EvReadFile (fm_Path mo)) in
              let mw2 :=
                fst (detectOrFetchImage (rp_Image raw) (fm_PullImage mo) mw1) in
              let mw3 := fst (removeExisting (rp_Name raw) mw2) in
              let created :=
                containers_CreateWithSpec (createSpecGen raw) (mw_pod mw3) in
              ioutil_ReadFile (fm_Path mo) (mw_pod mw0) = inr rawFile /\
              rawPodFromBytes rawFile = Ok raw /\
              snd (detectOrFetchImage (rp_Image raw) (fm_PullImage mo) mw1) = None /\
              snd (removeExisting (rp_Name raw) mw2) = None /\
              snd created = inr id /\
              containers_Start id (fst created) = (mw_pod mw', None) /\
              mw_env mw' = mw_env mw /\
              mw_trace mw' =
              mw_trace mw ++ evs
              ++ [EvCreateWithSpec (createSpecGen raw); EvStart id] /\
              In (EvReadFile (fm_Path mo)) evs /\
              In (EvExists (rp_Image raw)) evs /\
              In (EvInspect (rp_Name raw)) evs /\
              sg_Name (createSpecGen raw) = rp_Name raw /\
              sg_Image (createSpecGen raw) = rp_Image raw /\
              sg_RestartPolicy (createSpecGen raw) = "always").
  { intros mw0 pre Henv Hpre Hrun.
    destruct (rawPodmanCreate_success _ _ _ Hrun)
      as (rawFile & raw & id & evs & Hok).
    cbv zeta in Hok.
    destruct Hok as (Hread & Hdec & Himg & Hrem & Hid & Hstart & Henv' & Htr & Hin).
    exists rawFile, raw, id,
      (pre ++ EvReadFile (fm_Path mo) :: EvExists (rp_Image raw) :: evs).
    cbv zeta.
    split; [done|]. split; [done|]. split; [done|]. split; [done|].
    split; [done|]. split; [done|].
    split; [by rewrite Henv'|].
    split; [rewrite Htr, Hpre; rewrite <- !app_assoc; reflexivity|].
    split; [apply in_app_iff; right; by left|].
    split; [apply in_app_iff; right; right; by left|].
    split; [apply in_app_iff; right; right; right; done|].
    done. }
  destruct (fm_Previous mo) as [previous|].
  - destruct (rawPodFromBytes (list_byte_of_string previous)) as [old|err|]
      eqn:Hold; try done.
    pose proof (deleteContainer_calls (rp_Name old) mw) as [Henv Htr].
    destruct (deleteContainer (rp_Name old) mw) as [mw1 [e|]] eqn:Hdel; [done|].
    intros Hrun.
    destruct (Hcreate mw1 _ Henv Htr Hrun) as (rawFile & raw & id & evs & Hok).
    exists mw1, rawFile, raw, id, evs. cbv zeta in *.
    split; [by exists old|]. exact Hok.
  - intros Hrun.
    destruct (Hcreate mw [] eq_refl (eq_sym (app_nil_r _)) Hrun)
      as (rawFile & raw & id & evs & Hok).
    exists mw, rawFile, raw, id, evs. cbv zeta in *.
    split; [done|]. exact Hok.
Qed.

(** X21.  The only error [removeExisting] returns is the error of
    [containers.Stop]: an error of [containers.Inspect] is never returned,
    and when [Inspect] fails with data the container is left alone. *)
Theorem removeExisting_returns_Stop_error (podName : string)
    (mw mw' : MethodWorld) (e : Error) :
  (removeExisting podName mw = (mw', Some e) ->
   snd (containers_Stop podName (mw_pod mw)) = Some e) /\
  (forall inspectErr,
     containers_Inspect podName (mw_pod mw) = (true, Some inspectErr) ->
     removeExisting podName mw
     = (called mw (mw_pod mw) (EvInspect podName), None)).
Proof.
  split.
  - unfold removeExisting.
    destruct (containers_Inspect podName (mw_pod mw)) as [inspectData err].
    destruct (bool_decide (err = None) || negb inspectData); [|done].
    pose proof (deleteContainer_result podName
                  (called mw (mw_pod mw) (EvInspect podName))) as Hres.
    destruct (deleteContainer podName _) as [mw2 [e'|]]; [|done].
    intros [= _ ->]. simpl in Hres. done.
  - intros inspectErr Hins. unfold removeExisting. by rewrite Hins.
Qed.

End RawMethod.


(** ** Properties of the systemd method *)

Section SystemdMethod.

Context `{C : Collaborators} `{P : Podman}.

Lemma runtimeDir_not_empty (mw : MethodWorld) : runtimeDir mw <> "".
Proof.
  unfold runtimeDir.
  destruct (String.eqb_spec (Getenv mw "XDG_RUNTIME_DIR") ""); [done|done].
Qed.

Lemma systemdSpecGen_env (sd : Systemd) (action dest service : string)
    (mw : MethodWorld) :
  let s := systemdSpecGen sd action dest service mw in
  sg_Env s !! "ACTION" = Some (systemctlAction action) /\
  sg_Env s !! "SERVICE" = Some service /\
  sg_Env s !! "ROOT" = Some (FormatBool (Root sd)) /\
  sg_Env s !! "HOME" = Some (Getenv mw "HOME") /\
  sg_Env s !! "XDG_RUNTIME_DIR" =
    (if Root sd then None else Some (runtimeDir mw)).
Proof.
  unfold systemdSpecGen, systemctlAction, runtimeDir. simpl.
  destruct (Root sd); simpl; repeat split;
    repeat (first [rewrite lookup_insert_eq | rewrite lookup_insert_ne by done]);
    done.
Qed.

Lemma systemdSpecGen_mounts (sd : Systemd) (action dest service : string)
    (mw : MethodWorld) :
  let s := systemdSpecGen sd action dest service mw in
  let runMountsd :=
    if Root sd then "/run/systemd" else runtimeDir mw +:+ "/systemd" in
  In (mkMount dest dest TypeBind ["rw"]) (sg_Mounts s) /\
  In (mkMount runMountsd runMountsd TypeBind ["rw"]) (sg_Mounts s) /\
  Forall (fun m => Source m = Destination m) (sg_Mounts s) /\
  length (sg_Mounts s) = (if String.eqb action "autoupdate" then 5 else 4).
Proof.
  unfold systemdSpecGen, runtimeDir. simpl.
  destruct (String.eqb action "autoupdate"), (Root sd); simpl;
    repeat split; auto 10; repeat constructor.
Qed.

(** The calls [enableRestartSystemdService] adds: a container is created
    only after the variable [ROOT] has been set, and from the
    specification built in that environment. *)
Lemma enableRestartSystemdService_calls (sd : Systemd)
    (action dest service : string) (mw : MethodWorld) :
  exists evs,
    mw_trace (fst (enableRestartSystemdService sd action dest service mw)) =
    mw_trace mw ++ evs /\
    Forall (fun ev => match ev with
                      | EvFileTransfer _ _ _ _ | EvGetClone
                      | EvCurrentToLatest _ => False
                      | _ => True
                      end) evs /\
    forall s, In (EvCreateAndStart s) evs ->
      exists mw2,
        s = systemdSpecGen sd action dest service mw2 /\
        mw_env mw2 = <["ROOT" := FormatBool (Root sd)]> (mw_env mw) /\
        mw_env (fst (enableRestartSystemdService sd action dest service mw))
        = mw_env mw2.
Proof.
  unfold enableRestartSystemdService.
  destruct (detectOrFetchImage_calls systemdImage false mw) as [Henv Htr].
  set (evs1 := match images_Exists systemdImage (mw_pod mw) with
               | (present, None) =>
                   if negb present || false then [EvPull systemdImage] else []
               | (_, Some _) => []
               end) in Htr.
  assert (Hevs1 : Forall (fun ev => match ev with
                      | EvFileTransfer _ _ _ _ | EvGetClone
                      | EvCurrentToLatest _ => False
                      | _ => True
                      end) (EvExists systemdImage :: evs1) /\
                  forall s, ~ In (EvCreateAndStart s) (EvExists systemdImage :: evs1)).
  { subst evs1.
    destruct (images_Exists systemdImage (mw_pod mw)) as [present [e|]];
      [|destruct (negb present || false)];
      (split; [repeat constructor|]); intros s Hin; simpl in Hin;
      repeat (destruct Hin as [Hin|Hin]; [done|]); done. }
  destruct Hevs1 as [Hall1 Hno1].
  destruct (detectOrFetchImage systemdImage false mw) as [mw1 [e|]]; simpl in *.
  - exists (EvExists systemdImage :: evs1). split; [done|]. split; [done|].
    intros s Hin. by destruct (Hno1 s).
  - set (mw2 := Setenv "ROOT" (FormatBool (Root sd)) mw1).
    set (s0 := systemdSpecGen sd action dest service mw2).
    assert (Henv2 : mw_env mw2 = <["ROOT" := FormatBool (Root sd)]> (mw_env mw))
      by (subst mw2; simpl; by rewrite Henv).
    assert (Htr2 : mw_trace mw2 =
                   mw_trace mw ++ (EvExists systemdImage :: evs1)
                   ++ [EvSetenv "ROOT" (FormatBool (Root sd))])
      by (subst mw2; simpl; rewrite Htr, <- app_assoc; done).
    destruct (createAndStartContainer s0 _) as [p3 [err|id]];
      cbn [fst mw_trace mw_env called].
    + exists ((EvExists systemdImage :: evs1)
              ++ [EvSetenv "ROOT" (FormatBool (Root sd)); EvCreateAndStart s0]).
      split; [|split].
      * rewrite Htr2. rewrite <- !app_assoc. by simpl.
      * apply Forall_app. split; [done|]. by repeat constructor.
      * intros s Hin. apply in_app_iff in Hin as [Hin|Hin]; [by destruct (Hno1 s)|].
        destruct Hin as [Hin|[[= <-]|[]]]; [done|]. by exists mw2.
    + destruct (waitAndRemoveContainer id _) as [p4 [e|]];
        cbn [fst mw_trace mw_env called];
        (exists ((EvExists systemdImage :: evs1)
                 ++ [EvSetenv "ROOT" (FormatBool (Root sd)); EvCreateAndStart s0;
                     EvWaitAndRemove id]));
        (split; [|split];
         [rewrite Htr2; rewrite <- !app_assoc; by simpl
         |apply Forall_app; split; [done|]; by repeat constructor
         |intros s Hin; apply in_app_iff in Hin as [Hin|Hin];
          [by destruct (Hno1 s)|];
          destruct Hin as [Hin|[[= <-]|[Hin|[]]]]; [done| |done]; by exists mw2]).
Qed.

(** X22.  The container that runs systemctl.  Every container
    [enableRestartSystemdService] creates has the systemd image, is
    privileged in the host PID namespace, and has in its environment the
    service, the action, which is ["enable"] for an auto-update and never
    ["autoupdate"], and [ROOT] as the process variable [ROOT] is left set.
    For a user unit [XDG_RUNTIME_DIR] is set and never empty
    (["/run/user/1000"] when the process has none) and its [systemd]
    directory is mounted; for a root unit it is not set and
    ["/run/systemd"] is mounted.  The destination directory is mounted
    read-write and every mount has the same source and destination. *)
Theorem systemctl_container_specification (sd : Systemd)
    (action dest service : string) (mw : MethodWorld) (s : SpecGenerator) :
  In (EvCreateAndStart s)
     (mw_trace (fst (enableRestartSystemdService sd action dest service mw))) ->
  ~ In (EvCreateAndStart s) (mw_trace mw) ->
  sg_Image s = systemdImage /\
  sg_Privileged s = true /\ NSMode (sg_PidNS s) = "host" /\
  sg_Env s !! "SERVICE" = Some service /\
  sg_Env s !! "ACTION" =
    Some (if String.eqb action "autoupdate" then "enable" else action) /\
  sg_Env s !! "ACTION" <> Some "autoupdate" /\
  sg_Env s !! "ROOT" = Some (FormatBool (Root sd)) /\
  mw_env (fst (enableRestartSystemdService sd action dest service mw)) !! "ROOT"
  = Some (FormatBool (Root sd)) /\
  (Root sd = false ->
   exists x, sg_Env s !! "XDG_RUNTIME_DIR" = Some x /\ x <> "" /\
             In (mkMount (x +:+ "/systemd") (x +:+ "/systemd") TypeBind ["rw"])
                (sg_Mounts s)) /\
  (Root sd = true ->
   sg_Env s !! "XDG_RUNTIME_DIR" = None /\
   In (mkMount "/run/systemd" "/run/systemd" TypeBind ["rw"]) (sg_Mounts s)) /\
  In (mkMount dest dest TypeBind ["rw"]) (sg_Mounts s) /\
  Forall (fun m => Source m = Destination m) (sg_Mounts s).
Proof.
  intros Hin Hold.
  destruct (enableRestartSystemdService_calls sd action dest service mw)
    as (evs & Htr & _ & Hspec).
  rewrite Htr in Hin. apply in_app_iff in Hin as [Hin|Hin]; [done|].
  destruct (Hspec s Hin) as (mw2 & -> & Henv2 & Henv').
  destruct (systemdSpecGen_env sd action dest service mw2)
    as (Hact & Hsvc & Hroot & _ & Hxdg).
  destruct (systemdSpecGen_mounts sd action dest service mw2)
    as (Hdest & Hsd & Hsame & _).
  do 5 (split; [done|]).
  split.
  { rewrite Hact. unfold systemctlAction.
    destruct (String.eqb_spec action "autoupdate") as [->|Hne]; [done|].
    by intros [= ->]. }
  split; [done|].
  split; [by rewrite Henv', Henv2, lookup_insert_eq|].
  split.
  { intros Hr. rewrite Hr in Hxdg, Hsd. exists (runtimeDir mw2).
    split; [done|]. split; [apply runtimeDir_not_empty|done]. }
  split.
  { intros Hr. rewrite Hr in Hxdg, Hsd. by split. }
  by split.
Qed.

(** X23.  A unit that is enabled gets exactly one systemctl action.  For a
    method without auto-update and with [Enable] set, [systemdPodman] runs
    ["enable"] on the base name of the path when this is an initial run or
    [Restart] is not set, and ["restart"] otherwise; on an initial run the
    file is transferred first and a failed transfer stops the call.  The
    closing [return nil] is not reached. *)
Theorem systemdPodman_enabled_runs_one_action (sd : Systemd) (path dest : string)
    (prev : option string) (mw : MethodWorld) :
  AutoUpdateAll sd = false -> Enable sd = true ->
  let action := if initialRun sd || negb (Restart sd) then "enable" else "restart" in
  (initialRun sd = false ->
   systemdPodman sd path dest prev mw =
   enableRestartSystemdService sd action dest (filepath_Base path) mw) /\
  (initialRun sd = true ->
   systemdPodman sd path dest prev mw =
   let mw1 := called mw (fst (fileTransferPodman (sd_Name sd) path dest prev
                                                 (mw_pod mw)))
                     (EvFileTransfer (sd_Name sd) path dest prev) in
   match snd (fileTransferPodman (sd_Name sd) path dest prev (mw_pod mw)) with
   | Some e => (mw1, Some (WrapErr e "Error deploying systemd %s file(s), Path: %s"))
   | None => enableRestartSystemdService sd "enable" dest (filepath_Base path) mw1
   end).
Proof.
  intros Hauto Hen. unfold systemdPodman, systemdEnable. rewrite Hauto, Hen.
  split; intros Hinit; rewrite Hinit; simpl.
  - by destruct (Restart sd).
  - destruct (fileTransferPodman (sd_Name sd) path dest prev (mw_pod mw))
      as [p1 [e|]]; simpl; [done|].
    by rewrite orb_true_r.
Qed.

(** X24.  A unit that is not enabled is only placed.  For a method without
    auto-update and with [Enable] unset, [systemdPodman] creates no
    container and looks up no image: on an initial run its one call is the
    file transfer, whose error it returns wrapped, and otherwise it does
    nothing and returns [nil], whatever [Restart] says. *)
Theorem systemdPodman_disabled_only_places_files (sd : Systemd)
    (path dest : string) (prev : option string) (mw : MethodWorld) :
  AutoUpdateAll sd = false -> Enable sd = false ->
  mw_trace (fst (systemdPodman sd path dest prev mw)) =
  mw_trace mw ++
  (if initialRun sd then [EvFileTransfer (sd_Name sd) path dest prev] else []) /\
  mw_env (fst (systemdPodman sd path dest prev mw)) = mw_env mw /\
  (initialRun sd = false -> systemdPodman sd path dest prev mw = (mw, None)) /\
  (snd (systemdPodman sd path dest prev mw) = None \/
   exists e,
     snd (fileTransferPodman (sd_Name sd) path dest prev (mw_pod mw)) = Some e /\
     snd (systemdPodman sd path dest prev mw) =
     Some (WrapErr e "Error deploying systemd %s file(s), Path: %s")).
Proof.
  intros Hauto Hen. unfold systemdPodman, systemdEnable. rewrite Hauto, Hen. simpl.
  destruct (initialRun sd); simpl.
  - destruct (fileTransferPodman (sd_Name sd) path dest prev (mw_pod mw))
      as [p1 [e|]]; simpl; repeat split; try done; eauto.
  - rewrite app_nil_r. repeat split; auto.
Qed.

Lemma systemdPodman_calls (sd : Systemd) (path dest : string)
    (prev : option string) (mw : MethodWorld) :
  exists evs,
    mw_trace (fst (systemdPodman sd path dest prev mw)) = mw_trace mw ++ evs /\
    Forall (fun ev => match ev with
                      | EvGetClone | EvCurrentToLatest _ => False
                      | _ => True
                      end) evs /\
    (forall s, In (EvCreateAndStart s) evs ->
       sg_Env s !! "ACTION" = Some "enable" \/
       (initialRun sd = false /\ Restart sd = true /\
        sg_Env s !! "ACTION" = Some "restart")) /\
    (AutoUpdateAll sd = false -> initialRun sd = true ->
     exists rest, evs = EvFileTransfer (sd_Name sd) path dest prev :: rest).
Proof.
  assert (Hweak : forall evs,
            Forall (fun ev => match ev with
                      | EvFileTransfer _ _ _ _ | EvGetClone
                      | EvCurrentToLatest _ => False
                      | _ => True
                      end) evs ->
            Forall (fun ev => match ev with
                      | EvGetClone | EvCurrentToLatest _ => False
                      | _ => True
                      end) evs).
  { intros evs Hevs. eapply Forall_impl; [exact Hevs|]. by intros []. }
  assert (Hone : forall action service mw0,
            action = "enable" \/ action = "autoupdate" \/
            (action = "restart" /\ initialRun sd = false /\ Restart sd = true) ->
            exists evs,
              mw_trace (fst (enableRestartSystemdService sd action dest service mw0))
              = mw_trace mw0 ++ evs /\
              Forall (fun ev => match ev with
                      | EvGetClone | EvCurrentToLatest _ => False
                      | _ => True
                      end) evs /\
              forall s, In (EvCreateAndStart s) evs ->
                sg_Env s !! "ACTION" = Some "enable" \/
                (initialRun sd = false /\ Restart sd = true /\
                 sg_Env s !! "ACTION" = Some "restart")).
  { intros action service mw0 Hact.
    destruct (enableRestartSystemdService_calls sd action dest service mw0)
      as (evs & Htr & Hall & Hspec).
    exists evs. split; [done|]. split; [by apply Hweak|].
    intros s Hin. destruct (Hspec s Hin) as (mw2 & -> & _).
    destruct (systemdSpecGen_env sd action dest service mw2) as (Hact' & _).
    rewrite Hact'. unfold systemctlAction.
    destruct Hact as [->|[->|(-> & Hi & Hr)]]; simpl; auto. }
  assert (Henable : forall mw0,
            exists evs,
              mw_trace (fst (systemdEnable sd path dest mw0)) = mw_trace mw0 ++ evs /\
              Forall (fun ev => match ev with
                      | EvGetClone | EvCurrentToLatest _ => False
                      | _ => True
                      end) evs /\
              forall s, In (EvCreateAndStart s) evs ->
                sg_Env s !! "ACTION" = Some "enable" \/
                (initialRun sd = false /\ Restart sd = true /\
                 sg_Env s !! "ACTION" = Some "restart")).
  { intros mw0. unfold systemdEnable.
    destruct (Enable sd); cbn [negb andb orb];
      [|exists []; rewrite app_nil_r; split; [done|];
        split; [constructor|by intros ? []]].
    destruct (Restart sd) eqn:Hr, (initialRun sd) eqn:Hi; cbn [negb andb orb];
      apply Hone; auto. }
  unfold systemdPodman.
  destruct (AutoUpdateAll sd) eqn:Hauto.
  - destruct (initialRun sd) eqn:Hi; cbn [negb].
    + destruct (Hone "autoupdate" podmanAutoUpdateTimer mw)
        as (evs1 & Htr1 & Hall1 & Hspec1); [auto|].
      destruct (enableRestartSystemdService sd "autoupdate" dest
                  podmanAutoUpdateTimer mw) as [mw1 [e|]]; cbn [fst] in *.
      * exists evs1. split; [done|]. split; [done|]. split; [done|]. done.
      * destruct (Hone "autoupdate" podmanAutoUpdateService mw1)
          as (evs2 & Htr2 & Hall2 & Hspec2); [auto|].
        exists (evs1 ++ evs2). split; [by rewrite Htr2, Htr1, <- app_assoc|].
        split; [by apply Forall_app|]. split; [|done].
        intros s Hin. apply in_app_iff in Hin as [Hin|Hin]; auto.
    + exists []. split; [by rewrite app_nil_r|]. split; [constructor|].
      split; [by intros ? []|done].
  - destruct (initialRun sd) eqn:Hi.
    + destruct (fileTransferPodman (sd_Name sd) path dest prev (mw_pod mw))
        as [p1 [e|]]; cbn [fst].
      * exists [EvFileTransfer (sd_Name sd) path dest prev].
        split; [done|]. split; [by repeat constructor|].
        split; [by intros s [Hin|[]]|]. intros _ _. by eexists.
      * destruct (Henable (called mw p1 (EvFileTransfer (sd_Name sd) path dest prev)))
          as (evs & Htr & Hall & Hspec).
        exists (EvFileTransfer (sd_Name sd) path dest prev :: evs).
        split; [rewrite Htr; cbn [mw_trace called]; by rewrite <- app_assoc|].
        split; [by constructor|].
        split; [intros s [Hin|Hin]; [done|auto]|]. intros _ _. by eexists.
    + destruct (Henable mw) as (evs & Htr & Hall & Hspec).
      exists evs. split; [done|]. split; [done|]. split; [done|]. done.
Qed.

(** X25.  [MethodEngine] on a change.  Without [HOME] in the environment it
    returns an error and does nothing, for a root unit as for a user unit.
    Otherwise it marks the method as on its initial run, and so every
    container it creates runs the systemctl action ["enable"], also when
    [Restart] is set; without auto-update its first call transfers the
    file, to ["/etc/systemd/system"] for a root unit and to
    [.config/systemd/user] under [HOME] for a user unit, with the "to"
    name of the change, when it has one, as the previous content. *)
Theorem MethodEngine_on_a_change_enables (sd : Systemd) (change : Change)
    (path : string) (mw : MethodWorld) :
  (Getenv mw "HOME" = "" ->
   exists err, MethodEngine sd (Some change) path mw = (sd, mw, Some err)) /\
  (Getenv mw "HOME" <> "" ->
   let dest :=
     if Root sd then systemdPathRoot
     else filepath_Join [Getenv mw "HOME"; ".config"; "systemd"; "user"] in
   let prev :=
     if String.eqb (ce_Name (To change)) "" then None
     else Some (ce_Name (To change)) in
   fst (fst (MethodEngine sd (Some change) path mw)) = set_initialRun sd true /\
   exists evs,
     mw_trace (snd (fst (MethodEngine sd (Some change) path mw)))
     = mw_trace mw ++ evs /\
     (forall s, In (EvCreateAndStart s) evs ->
        sg_Env s !! "ACTION" = Some "enable") /\
     (AutoUpdateAll sd = false ->
      exists rest, evs = EvFileTransfer (sd_Name sd) path dest prev :: rest)).
Proof.
  unfold MethodEngine. split.
  - intros ->. simpl. by eexists.
  - intros Hhome. apply String.eqb_neq in Hhome. rewrite Hhome.
    set (dest := if Root sd then systemdPathRoot
                 else filepath_Join [Getenv mw "HOME"; ".config"; "systemd"; "user"]).
    set (prev := if negb (String.eqb (ce_Name (To change)) "")
                 then Some (ce_Name (To change)) else None).
    destruct (systemdPodman_calls (set_initialRun sd true) path dest prev mw)
      as (evs & Htr & _ & Hspec & Hfirst).
    destruct (systemdPodman (set_initialRun sd true) path dest prev mw)
      as [mw1 err]. simpl in *.
    split; [done|]. exists evs. split; [done|]. split.
    + intros s Hin. by destruct (Hspec s Hin) as [?|(? & _)].
    + intros Hauto. destruct (Hfirst Hauto eq_refl) as [rest ->].
      exists rest. subst prev. by destruct (String.eqb (ce_Name (To change)) "").
Qed.

Lemma MethodEngine_keeps_flags (sd : Systemd) (change : option Change)
    (path : string) (mw : MethodWorld) :
  AutoUpdateAll (fst (fst (MethodEngine sd change path mw))) = AutoUpdateAll sd.
Proof.
  unfold MethodEngine.
  destruct (String.eqb (Getenv mw "HOME") ""); [done|].
  destruct (systemdPodman _ path _ _ mw) as [mw1 err]. simpl.
  by destruct change.
Qed.

Lemma Process_auto_update_first_run (sd : Systemd) (PAT : string)
    (mw : MethodWorld) :
  AutoUpdateAll sd = true -> initialRun sd = true ->
  Process sd PAT mw =
  let sd0 := set_Name (set_Restart (set_Root (set_Enable sd true) true) false)
                      podmanAutoUpdate in
  (set_initialRun (fst (fst (MethodEngine sd0 None "" mw))) false,
   snd (fst (MethodEngine sd0 None "" mw))).
Proof.
  intros Hauto Hi. unfold Process. rewrite Hauto, Hi. cbn [andb negb].
  cbn [Restart set_Name set_Restart set_Root set_Enable initialRun AutoUpdateAll].
  rewrite Hauto, Hi.
  by destruct (MethodEngine _ None "" mw) as [[sd3 mw1] err].
Qed.

(** X26.  Auto-update is set up on the first run only.  With
    [AutoUpdateAll], [Process] leaves the method with [initialRun] unset,
    whether or not the method engine failed, and any later [Process] does
    nothing; so when the first run fails, as it does without [HOME] in the
    environment, where no call is made, the timer and the service are not
    enabled by later runs either. *)
Theorem Process_sets_up_auto_update_once (sd : Systemd) (PAT PAT' : string)
    (mw mw' : MethodWorld) :
  AutoUpdateAll sd = true ->
  initialRun (fst (Process sd PAT mw)) = false /\
  Process (fst (Process sd PAT mw)) PAT' mw' = (fst (Process sd PAT mw), mw') /\
  (initialRun sd = false -> Process sd PAT mw = (sd, mw)) /\
  (Getenv mw "HOME" = "" -> snd (Process sd PAT mw) = mw).
Proof.
  intros Hauto.
  assert (Hidle : forall sd0 P0 mw0,
            AutoUpdateAll sd0 = true -> initialRun sd0 = false ->
            Process sd0 P0 mw0 = (sd0, mw0)).
  { intros sd0 P0 mw0 Ha Hi. unfold Process. by rewrite Ha, Hi. }
  destruct (initialRun sd) eqn:Hi.
  - rewrite (Process_auto_update_first_run sd PAT mw Hauto Hi). cbn zeta.
    set (sd0 := set_Name (set_Restart (set_Root (set_Enable sd true) true) false)
                         podmanAutoUpdate).
    pose proof (MethodEngine_keeps_flags sd0 None "" mw) as Hflags.
    cbn [fst snd].
    split; [done|]. split; [|split; [done|]].
    + apply Hidle; [|done].
      cbn [AutoUpdateAll set_initialRun]. by rewrite Hflags.
    + intros Hh. unfold MethodEngine. by rewrite Hh.
  - rewrite (Hidle sd PAT mw Hauto Hi). cbn [fst snd].
    split; [done|]. split; [by apply Hidle|]. by split.
Qed.

End SystemdMethod.


#[local] Existing Instance Demo.collaborators.

(** The progress tag of the small instance already points at commit [2];
    writing commit [3] reports success and the tag still points at [2]. *)
Lemma CreateInProgress_keeps_existing_tag :
  let w := Demo.world (<["progress-raw" := 2%N]> ∅) in
  snd (CreateInProgress Demo.target "raw" 3%N w) = None /\
  tag_of (fst (CreateInProgress Demo.target "raw" 3%N w)) "repo" "progress-raw"
  = Some 2%N /\
  tag_of (fst (CreateInProgress Demo.target "raw" 3%N w)) "repo" "progress-raw"
  <> Some 3%N.
Proof. vm_compute. repeat split; congruence. Qed.

Lemma tag_write_postcondition_witness :
  let w := Demo.world (<["current-raw" := 1%N]> (<["progress-raw" := 2%N]> ∅)) in
  (exists w', UpdateCurrent Demo.target "raw" 3%N w = (w', None) /\
     tag_of w' "repo" (currentTag "raw") = Some 3%N) /\
  (exists w', CreateInProgress Demo.target "raw" 3%N w = (w', None) /\
     tag_of w' "repo" (progressTag "raw") = Some 2%N).
Proof.
  exact (tag_write_postcondition Demo.target "raw" 3%N
           (Demo.world (<["current-raw" := 1%N]> (<["progress-raw" := 2%N]> ∅)))
           eq_refl).
Defined.

Lemma absent_tag_is_not_an_error_witness :
  (exists h, GetCurrent Demo.target "raw" (Demo.world ∅) = inr h /\ IsZero h = true) /\
  (exists h, GetInProgress Demo.target "raw" (Demo.world ∅) = inr h /\ IsZero h = true) /\
  (exists w', DeleteInProgress Demo.target "raw" (Demo.world ∅) = (w', None) /\
     forall n, tag_of w' "repo" n = tag_of (Demo.world ∅) "repo" n) /\
  accessible (mkWorld ∅ [] []) "repo" = false /\
  accessible (mkWorld (<["repo" := Demo.repo ∅ true]> ∅) [] []) "repo" = false.
Proof.
  destruct (absent_tag_is_not_an_error Demo.target "raw" (Demo.world ∅))
    as (Hc & Hp & _ & _ & Hd).
  split; [exact (Hc eq_refl eq_refl)|].
  split; [exact (Hp eq_refl eq_refl)|].
  split; [exact (Hd eq_refl eq_refl)|].
  split.
  - exact (proj1 (proj2 (proj2 (absent_tag_is_not_an_error Demo.target "raw"
                                  (mkWorld ∅ [] []))))
                 (WrapErr ErrRepositoryNotExists "Error opening repository: %s")
                 eq_refl).
  - exact (proj1 (proj2 (proj2 (proj2 (absent_tag_is_not_an_error Demo.target "raw"
                    (mkWorld (<["repo" := Demo.repo ∅ true]> ∅) [] [])))))
                 (WrapErr ErrStorage "Error getting in progress tag")
                 eq_refl).
Defined.

(** Commit [2] renames [a.yaml] to [b.txt]; with the suffix list
    [[".yaml"]] the entry is selected, as a deletion, although the name the
    policy is stated on, [b.txt], does not end with an allowed suffix. *)
Lemma renamed_entry_selected_against_policy :
  let change := mkChange (mkChangeEntry "a.yaml") (mkChangeEntry "b.txt") in
  getFilteredChangeMap (C := Demo.collaborators) "repo" "units"
    [("a.yaml", 100%N)] [("b.txt", 100%N); ("c.bad", 101%N)]
    (Some [".yaml"]) None
  = inr [(change, "delete")] /\
  policyName change = "b.txt" /\
  checkTag (Some [".yaml"]) (policyName change) = false.
Proof. vm_compute. repeat split. Qed.

(** The same entry has a non-empty "to" name and yet its destination is the
    delete sentinel, not the joined path. *)
Lemma renamed_entry_destination_is_sentinel :
  let change := mkChange (mkChangeEntry "a.yaml") (mkChangeEntry "b.txt") in
  exists changeMap,
    getFilteredChangeMap (C := Demo.collaborators) "repo" "units"
      [("a.yaml", 100%N)] [("b.txt", 100%N); ("c.bad", 101%N)]
      (Some [".yaml"]) None
    = inr changeMap /\
    In (change, deleteFile) changeMap /\
    ce_Name (To change) <> "" /\
    deleteFile <> filepath_Join ["repo"; "units"; ce_Name (To change)].
Proof.
  eexists. split; [vm_compute; reflexivity|].
  split; [by left|]. split; vm_compute; discriminate.
Qed.

(** The progress tag points at commit [2] when [CatchUpLatest] is called
    with [latest] at commit [3]: a change of the change map from [1] to [3]
    has been applied to the host, the dispatch has not yet returned, and
    the progress tag still points at [2]. *)
Lemma CatchUpLatest_dispatches_under_old_progress :
  let w := Demo.world (<["current-raw" := 1%N]> (<["progress-raw" := 2%N]> ∅)) in
  let w' := fst (CatchUpLatest [0] Demo.mo 1%N 3%N "units" None None w) in
  snd (CatchUpLatest [0] Demo.mo 1%N 3%N "units" None None w) = Waiting /\
  host w' = [("repo/units/d.yaml",
              mkChange (mkChangeEntry "") (mkChangeEntry "d.yaml"))] /\
  progressOf w' Demo.mo = Some 2%N /\
  progressOf w' Demo.mo <> Some 3%N.
Proof. vm_compute. repeat split. discriminate. Qed.

Lemma CatchUpProgress_replays_interrupted_changeset_witness :
  let w := Demo.world (<["current-raw" := 1%N]> (<["progress-raw" := 3%N]> ∅)) in
  let w' := Demo.world (<["current-raw" := 1%N]> (<["progress-raw" := 2%N]> ∅)) in
  (exists w2,
     CatchUpProgress [0; 0] Demo.mo 1%N 3%N "units" None None w = (w2, Done None) /\
     currentOf w2 Demo.mo = Some 3%N /\ progressOf w2 Demo.mo = None /\
     host w2 = [("repo/units/d.yaml",
                 mkChange (mkChangeEntry "") (mkChangeEntry "d.yaml"))] /\
     dispatched w2 = [[(mkChange (mkChangeEntry "") (mkChangeEntry "d.yaml"),
                        "repo/units/d.yaml")]]) /\
  (exists err w2,
     CatchUpProgress [0; 0; 1; 1] Demo.mo 1%N 2%N "units" None None w'
     = (w2, Done (Some (WrapErr err "Failed to apply from current to in progress")))
     /\ progressOf w2 Demo.mo = None /\ currentOf w2 Demo.mo = Some 1%N /\
     host w2 = [("repo/units/b.txt",
                 mkChange (mkChangeEntry "a.yaml") (mkChangeEntry "b.txt"));
                ("repo/units/c.bad",
                 mkChange (mkChangeEntry "") (mkChangeEntry "c.bad"))] /\
     dispatched w2
     = dispatched (fst (Apply [0; 0; 1; 1] Demo.mo 1%N 2%N "units" None None w'))) /\
  (exists w2,
     CatchUpProgress [] Demo.mo 3%N 3%N "units" None None w = (w2, Done None) /\
     progressOf w2 Demo.mo = None /\ currentOf w2 Demo.mo = currentOf w Demo.mo /\
     dispatched w2 = dispatched w /\ host w2 = host w) /\
  progressOf (fst (CatchUpProgress [] Demo.mo 3%N 3%N "units" None None w)) Demo.mo
  = None.
Proof.
  intros w w'. split; [|split; [|split]].
  - exact (proj1 (CatchUpProgress_replays_interrupted_changeset
                    [0; 0] Demo.mo 1%N 3%N "units" None None w)
                 eq_refl ltac:(discriminate)).
  - exact (ex_intro _ _
             (proj1 (CatchUpProgress_replays_interrupted_changeset
                       [0; 0; 1; 1] Demo.mo 1%N 2%N "units" None None w')
                    eq_refl ltac:(discriminate))).
  - exact (proj1 (proj2 (CatchUpProgress_replays_interrupted_changeset
                           [] Demo.mo 3%N 3%N "units" None None w))
                 eq_refl eq_refl).
  - exact (proj2 (proj2 (CatchUpProgress_replays_interrupted_changeset
                           [] Demo.mo 3%N 3%N "units" None None w))
                 _ eq_refl).
Defined.

Lemma CatchUpLatest_write_ahead_witness :
  let w := Demo.world (<["current-raw" := 1%N]> ∅) in
  exists w0,
    CreateInProgress Demo.target "raw" 2%N w = (w0, None) /\
    progressOf w0 Demo.mo = Some 2%N /\
    currentOf w0 Demo.mo = Some 1%N /\
    dispatched w0 = [] /\ host w0 = [] /\
    exists err w2,
      CatchUpLatest [0; 1; 0; 1] Demo.mo 1%N 2%N "units" None None w
      = (w2, Done (Some (WrapErr err "Failed to apply changes"))) /\
      progressOf w2 Demo.mo = None /\ currentOf w2 Demo.mo = Some 1%N.
Proof.
  intros w.
  destruct (CatchUpLatest_write_ahead [0; 1; 0; 1] Demo.mo 1%N 2%N "units" None None
              w eq_refl) as (w0 & Hcreate & Hprog & Hcur & Hdisp & Hhost & Happly).
  exists w0. repeat (split; [assumption|]).
  injection Hcreate as <-.
  exact (ex_intro _ _ Happly).
Defined.

Lemma member_only_if_policy_witness :
  let change := mkChange (mkChangeEntry "") (mkChangeEntry "d.yaml") in
  exists g,
    glob_Compile "*.yaml" = inr g /\
    ((ce_Name (To change) <> "" /\
      checkTag (Some [".yaml"]) (ce_Name (To change)) = true /\
      glob_Match g (ce_Name (To change)) = true) \/
     (ce_Name (From change) <> "" /\
      checkTag (Some [".yaml"]) (ce_Name (From change)) = true)).
Proof.
  exact (proj1 (member_only_if_policy "repo" "units"
                  [("a.yaml", 100%N)] [("a.yaml", 100%N); ("d.yaml", 102%N)]
                  (Some [".yaml"]) (Some "*.yaml")
                  [(mkChange (mkChangeEntry "") (mkChangeEntry "d.yaml"),
                    "repo/units/d.yaml")]
                  (mkChange (mkChangeEntry "") (mkChangeEntry "d.yaml"))
                  "repo/units/d.yaml" eq_refl (or_introl eq_refl))).
Defined.

Lemma member_destination_witness :
  let change := mkChange (mkChangeEntry "a.yaml") (mkChangeEntry "") in
  ce_Name (From change) <> "" /\ "delete" = deleteFile.
Proof.
  exact (proj1 (proj2 (member_destination "repo" "units"
                  [("a.yaml", 100%N)] [] None None
                  [(mkChange (mkChangeEntry "a.yaml") (mkChangeEntry ""), "delete")]
                  (mkChange (mkChangeEntry "a.yaml") (mkChangeEntry ""))
                  "delete" eq_refl (or_introl eq_refl)))
               eq_refl).
Defined.

Lemma empty_suffix_list_selects_nothing_witness :
  getFilteredChangeMap "repo" "units" [] [("a.yaml", 100%N)] (Some []) None = inr []
  /\ ([] : ChangeMap) = [].
Proof.
  split; [reflexivity|].
  exact (proj2 (proj2 (empty_suffix_list_selects_nothing "repo" "units"
                  [] [("a.yaml", 100%N)] None []))
               eq_refl).
Defined.

Lemma Apply_rejects_zero_desired_state_witness :
  let w := Demo.world ∅ in
  Apply [0; 0] Demo.mo 1%N 0%N "units" None None w =
  (w, Done (Some (errors_New "Cannot run Apply if desired state is empty"))) /\
  exists current,
    GetCurrent Demo.target "raw" w = inr current /\
    CatchUpCurrent [0; 0] Demo.mo current "units" None None w =
    (w, Done (Some (WrapErr
                      (errors_New "Cannot run Apply if desired state is empty")
                      "Failed to apply changes"))).
Proof.
  intros w.
  destruct (Apply_rejects_zero_desired_state [0; 0] Demo.mo 1%N 0%N "units" None None w)
    as (Happly & _ & Hcatch).
  split; [exact (Happly eq_refl)|exact (Hcatch eq_refl eq_refl)].
Defined.

Lemma CatchUpCurrent_diffs_against_empty_tree_witness :
  let w := Demo.world (<["current-raw" := 3%N]> ∅) in
  dispatched (fst (CatchUpCurrent [0; 1; 0; 1] Demo.mo 3%N "units" None None w)) =
  [[(mkChange (mkChangeEntry "") (mkChangeEntry "a.yaml"), "repo/units/a.yaml");
    (mkChange (mkChangeEntry "") (mkChangeEntry "d.yaml"), "repo/units/d.yaml")]].
Proof.
  exact (proj2 (proj2 (CatchUpCurrent_diffs_against_empty_tree [0; 1; 0; 1] Demo.mo
                  3%N "units" None None (Demo.world (<["current-raw" := 3%N]> ∅))
                  [("a.yaml", 100%N); ("d.yaml", 102%N)] "**"
                  [mkChange (mkChangeEntry "") (mkChangeEntry "a.yaml");
                   mkChange (mkChangeEntry "") (mkChangeEntry "d.yaml")]
                  eq_refl eq_refl eq_refl eq_refl))).
Defined.

(** C3, the code on a change map of two entries whose first method call
    fails.  Goroutine [0] calls [EngineMethod] and sends its error; the
    caller receives it and returns.  It has then received one value for two
    goroutines, goroutine [1] has not called [EngineMethod], goroutine [0]
    is left at [ch <- nil], and the host has seen one of the two changes. *)
Theorem runChangesConcurrent_returns_on_first_error :
  let bad := mkChange (mkChangeEntry "") (mkChangeEntry "c.bad") in
  let good := mkChange (mkChangeEntry "") (mkChangeEntry "d.yaml") in
  let changeMap := [(bad, "repo/units/c.bad"); (good, "repo/units/d.yaml")] in
  let err := WrapErr (ErrExternal "method failed")
                     "error running engine method for change from: %s to %s" in
  let d := run Demo.mo [0; 0] (dispatch changeMap []) in
  d_coord d = Returned (Some err) /\
  d_received d = [Some err] /\
  d_tasks d = [GoSendNil; GoReady "repo/units/d.yaml" good] /\
  d_calls d = [("repo/units/c.bad", bad, Some (ErrExternal "method failed"))] /\
  runChangesConcurrent [0; 0] Demo.mo changeMap (Demo.world ∅) =
  (mkWorld (repos (Demo.world ∅)) [("repo/units/c.bad", bad)] [changeMap],
   Done (Some err)).
Proof. vm_compute. repeat split. Qed.

(** ** The further properties on the small instances *)

#[local] Existing Instance DemoPod.podman.

Lemma UpdateCurrent_then_GetCurrent_witness :
  let w := Demo.world (<["current-raw" := 1%N]> ∅) in
  exists w', UpdateCurrent Demo.target "raw" 3%N w = (w', None) /\
             GetCurrent Demo.target "raw" w' = inr 3%N.
Proof.
  exact (UpdateCurrent_then_GetCurrent Demo.target "raw" 3%N
           (Demo.world (<["current-raw" := 1%N]> ∅)) eq_refl).
Defined.

Lemma progress_tag_lifecycle_witness :
  (exists w', CreateInProgress Demo.target "raw" 2%N (Demo.world ∅) = (w', None) /\
              GetInProgress Demo.target "raw" w' = inr 2%N) /\
  (exists w', DeleteInProgress Demo.target "raw" (Demo.world ∅) = (w', None) /\
              GetInProgress Demo.target "raw" w' = inr 0%N /\
              exists w'', DeleteInProgress Demo.target "raw" w' = (w'', None) /\
                          GetInProgress Demo.target "raw" w'' = inr 0%N).
Proof.
  destruct (progress_tag_lifecycle Demo.target "raw" 2%N (Demo.world ∅) eq_refl)
    as [Hcreate Hdelete].
  split; [exact (Hcreate eq_refl)|exact Hdelete].
Defined.

Lemma catch_up_keeps_tags_of_other_methods_witness :
  let w := Demo.world (<["current-raw" := 1%N]> (<["current-systemd" := 2%N]> ∅)) in
  let other := mkSingleMethodObj Demo.target "systemd" in
  let w' := fst (CatchUpLatest [0; 0] Demo.mo 1%N 3%N "units" None None w) in
  currentOf w' other = currentOf w other /\ progressOf w' other = progressOf w other.
Proof.
  intros w other w'.
  apply (catch_up_keeps_tags_of_other_methods [0; 0] Demo.mo other 1%N 3%N
           "units" None None w w').
  - discriminate.
  - right. right. reflexivity.
Defined.

Lemma Apply_moves_no_tag_witness :
  fst (Apply [] Demo.mo 1%N 0%N "units" None None (Demo.world ∅)) = Demo.world ∅.
Proof.
  exact (proj2 (proj2 (Apply_moves_no_tag [] Demo.mo 1%N 0%N "units" None None
                         (Demo.world ∅))) eq_refl).
Defined.

Lemma CatchUpProgress_fails_on_zero_progress_witness :
  let w := Demo.world (<["current-raw" := 1%N]> ∅) in
  exists w' err,
    CatchUpProgress [0; 0] Demo.mo 1%N 0%N "units" None None w
    = (w', Done (Some err)) /\
    host w' = host w /\ dispatched w' = dispatched w /\
    forall d n, n <> progressTag "raw" -> tag_of w' d n = tag_of w d n.
Proof.
  intros w.
  apply (CatchUpProgress_fails_on_zero_progress [0; 0] Demo.mo 1%N 0%N "units"
           None None w).
  - reflexivity.
  - discriminate.
Defined.

Lemma CatchUpLatest_stops_without_progress_tag_witness :
  exists err,
    CatchUpLatest [0; 0] Demo.mo 1%N 3%N "units" None None (mkWorld ∅ [] [])
    = (mkWorld ∅ [] [], Done (Some (WrapErr err "Failed to create progress tag"))).
Proof.
  exact (CatchUpLatest_stops_without_progress_tag [0; 0] Demo.mo 1%N 3%N "units"
           None None (mkWorld ∅ [] []) eq_refl).
Defined.

Lemma interrupted_CatchUpLatest_is_replayed_witness :
  let w := Demo.world (<["current-raw" := 1%N]> ∅) in
  let w1 := fst (CatchUpLatest [0] Demo.mo 1%N 3%N "units" None None w) in
  GetInProgress Demo.target "raw" w1 = inr 3%N /\
  GetCurrent Demo.target "raw" w1 = inr 1%N /\
  exists w3,
    CatchUpProgress [0; 0] Demo.mo 1%N 3%N "units" None None w1 = (w3, Done None) /\
    currentOf w3 Demo.mo = Some 3%N /\ progressOf w3 Demo.mo = None.
Proof.
  intros w w1.
  destruct (interrupted_CatchUpLatest_is_replayed [0] [0; 0] Demo.mo 1%N 3%N
              "units" None None w w1 eq_refl eq_refl eq_refl)
    as (Hprogress & Hcurrent & Hreplay).
  split; [exact Hprogress|]. split; [exact Hcurrent|].
  apply (Hreplay ltac:(discriminate)
           (fst (Apply [0; 0] Demo.mo 1%N 3%N "units" None None w1))).
  reflexivity.
Defined.

Lemma checkTag_accepts_listed_suffixes_witness :
  checkTag (Some [".service"; ""]) "README" = true /\
  exists suffix prefix, In suffix [".yaml"] /\ "a.yaml" = prefix +:+ suffix.
Proof.
  split.
  - exact (proj2 (checkTag_accepts_listed_suffixes [".service"; ""] "README")
                 (or_intror (or_introl eq_refl))).
  - exact (proj1 (proj1 (checkTag_accepts_listed_suffixes [".yaml"] "a.yaml"))
                 eq_refl).
Defined.

Lemma create_or_modify_is_selected_witness :
  exists changeMap,
    getFilteredChangeMap (C := Demo.collaborators) "repo" "units"
      [("a.yaml", 100%N)] [("a.yaml", 100%N); ("d.yaml", 102%N)]
      (Some [".yaml"]) (Some "*.yaml") = inr changeMap /\
    In (mkChange (mkChangeEntry "") (mkChangeEntry "d.yaml"), "repo/units/d.yaml")
       changeMap.
Proof.
  apply (create_or_modify_is_selected (C := Demo.collaborators) "repo" "units"
           [("a.yaml", 100%N)] [("a.yaml", 100%N); ("d.yaml", 102%N)]
           (Some [".yaml"]) (Some "*.yaml") "*.yaml"
           [mkChange (mkChangeEntry "") (mkChangeEntry "d.yaml")]
           (mkChange (mkChangeEntry "") (mkChangeEntry "d.yaml")));
    try reflexivity.
  - left. reflexivity.
  - discriminate.
Defined.

Lemma change_map_follows_diff_witness :
  exists changes,
    Tree_Diff (Collaborators := Demo.collaborators) [("a.yaml", 100%N)] [("b.txt", 100%N); ("c.bad", 101%N)]
    = inr changes /\
    sublist [mkChange (mkChangeEntry "") (mkChangeEntry "c.bad")] changes /\
    1 <= length changes.
Proof.
  exact (change_map_follows_diff (C := Demo.collaborators) "repo" "units"
           [("a.yaml", 100%N)] [("b.txt", 100%N); ("c.bad", 101%N)]
           (Some [".bad"]) None
           [(mkChange (mkChangeEntry "") (mkChangeEntry "c.bad"), "repo/units/c.bad")]
           eq_refl).
Defined.

Lemma pure_deletion_selected_iff_witness :
  let gone := mkChange (mkChangeEntry "a.yaml") (mkChangeEntry "") in
  In (gone, "delete") [(gone, "delete")] /\
  ~ In (gone, "delete") ([] : ChangeMap).
Proof.
  intros gone. split.
  - apply (proj1 (pure_deletion_selected_iff (C := Demo.collaborators) "repo" "units" [("a.yaml", 100%N)] []
                    None None "**" [gone] [(gone, "delete")] gone "delete"
                    eq_refl eq_refl eq_refl (or_introl eq_refl) eq_refl)).
    split; [discriminate|]. repeat split.
  - exact (proj2 (pure_deletion_selected_iff (C := Demo.collaborators) "repo" "units" [("a.yaml", 100%N)] []
                    None (Some "*.yaml") "*.yaml" [gone] [] gone "delete"
                    eq_refl eq_refl eq_refl (or_introl eq_refl) eq_refl)
                 eq_refl).
Defined.

Lemma error_return_strands_goroutines_witness :
  let bad := mkChange (mkChangeEntry "") (mkChangeEntry "c.bad") in
  let good := mkChange (mkChangeEntry "") (mkChangeEntry "d.yaml") in
  let changeMap := [(bad, "repo/units/c.bad"); (good, "repo/units/d.yaml")] in
  let d := afterwards Demo.mo [1; 1; 0; 0] (run Demo.mo [0; 0] (dispatch (C := Demo.collaborators) changeMap [])) in
  count isExit (d_tasks d) < 2 /\ exists i g, d_tasks d !! i = Some g /\ g <> GoExit.
Proof.
  intros bad good changeMap d.
  destruct (error_return_strands_goroutines (C := Demo.collaborators) Demo.mo changeMap [] [0; 0] [1; 1; 0; 0]
              (WrapErr (ErrExternal "method failed")
                       "error running engine method for change from: %s to %s")
              eq_refl) as (_ & _ & Hlt & Hleft).
  split; [exact Hlt|exact Hleft].
Defined.

Lemma returns_when_every_goroutine_had_two_turns_witness :
  let bad := mkChange (mkChangeEntry "") (mkChangeEntry "c.bad") in
  let good := mkChange (mkChangeEntry "") (mkChangeEntry "d.yaml") in
  let changeMap := [(bad, "repo/units/c.bad"); (good, "repo/units/d.yaml")] in
  exists w' err,
    runChangesConcurrent [1; 0; 1; 0] Demo.mo changeMap (Demo.world ∅)
    = (w', Done err).
Proof.
  intros bad good changeMap.
  apply (returns_when_every_goroutine_had_two_turns Demo.mo changeMap
           (Demo.world ∅) [1; 0; 1; 0]).
  intros [|[|i]] Hi; simpl in *; lia.
Defined.

Lemma method_called_at_most_once_per_entry_witness :
  let one := mkChange (mkChangeEntry "") (mkChangeEntry "a.yaml") in
  let two := mkChange (mkChangeEntry "") (mkChangeEntry "d.yaml") in
  let changeMap := [(one, "repo/units/a.yaml"); (two, "repo/units/d.yaml")] in
  map callEntry (d_calls (run Demo.mo [1; 0; 1; 0] (dispatch (C := Demo.collaborators) changeMap [])))
  ≡ₚ changeMap.
Proof.
  intros one two changeMap.
  exact (proj2 (method_called_at_most_once_per_entry (C := Demo.collaborators) Demo.mo changeMap []
                  [1; 0; 1; 0] []) eq_refl).
Defined.

Lemma deleteContainer_reports_Stop_only_witness :
  let mw := DemoPod.world ∅ in
  snd (containers_Remove "pinned" DemoPod.machine)
  = Some (ErrExternal "cannot remove") /\
  snd (deleteContainer "pinned" mw) = None /\
  In (EvRemove "pinned") (mw_trace (fst (deleteContainer "pinned" mw))) /\
  mw_pod (fst (deleteContainer "pinned" mw)) = DemoPod.machine.
Proof.
  intros mw.
  destruct (deleteContainer_reports_Stop_only "pinned" mw) as (Hres & Hcall & Hpod).
  split; [reflexivity|]. split; [exact Hres|].
  split; [exact (proj2 Hcall (or_intror eq_refl))|exact (Hpod eq_refl)].
Defined.

Lemma detectOrFetchImage_pulls_when_needed_witness :
  let mw := DemoPod.world ∅ in
  snd (detectOrFetchImage "docker.io/library/nginx" false mw) = None /\
  mw_pod (fst (detectOrFetchImage "docker.io/library/nginx" false mw))
  = DemoPod.machine.
Proof.
  exact (proj2 (detectOrFetchImage_pulls_when_needed "docker.io/library/nginx"
                  false (DemoPod.world ∅)) eq_refl eq_refl).
Defined.

Lemma rawPodFromBytes_by_first_byte_witness :
  rawPodFromBytes (list_byte_of_string "   ") = Panicked /\
  rawPodFromBytes (list_byte_of_string " {web,img} ")
  = Ok (mkRawPod "img" "web" ∅ [] [] []) /\
  rawPodFromBytes (list_byte_of_string "db img")
  = Ok (mkRawPod "img" "db" ∅ [] [] []) /\
  rawPodman (mkFileMountOptions "pods/db.yaml" (Some "  ") false) (DemoPod.world ∅)
  = (DemoPod.world ∅, Panics).
Proof.
  pose (mo := mkFileMountOptions "pods/db.yaml" (Some "  ") false).
  split; [|split; [|split]].
  - exact (proj1 (rawPodFromBytes_by_first_byte (list_byte_of_string "   ")
                    mo "  " (DemoPod.world ∅)) eq_refl).
  - exact (proj1 (proj2 (rawPodFromBytes_by_first_byte
                           (list_byte_of_string " {web,img} ") mo "  "
                           (DemoPod.world ∅)))
                 (list_byte_of_string "web,img}") eq_refl).
  - apply (proj1 (proj2 (proj2 (rawPodFromBytes_by_first_byte
                                  (list_byte_of_string "db img") mo "  "
                                  (DemoPod.world ∅))))
                 "d"%byte (list_byte_of_string "b img") eq_refl).
    discriminate.
  - exact (proj2 (proj2 (proj2 (rawPodFromBytes_by_first_byte
                                  (list_byte_of_string "   ") mo "  "
                                  (DemoPod.world ∅))))
                 eq_refl eq_refl).
Defined.

Lemma rawPodman_delete_sentinel_witness :
  rawPodman (mkFileMountOptions "delete" None false) (DemoPod.world ∅)
  = (DemoPod.world ∅, Returns None) /\
  exists evs,
    mw_trace (fst (rawPodman (mkFileMountOptions "delete" (Some "{web,img}") false)
                             (DemoPod.world ∅))) = [] ++ evs /\
    Forall (fun ev => exists name, ev = EvStop name \/ ev = EvRemove name) evs.
Proof.
  split.
  - exact (proj2 (rawPodman_delete_sentinel (mkFileMountOptions "delete" None false)
                    (DemoPod.world ∅) eq_refl) eq_refl).
  - exact (proj1 (rawPodman_delete_sentinel
                    (mkFileMountOptions "delete" (Some "{web,img}") false)
                    (DemoPod.world ∅) eq_refl)).
Defined.

Lemma rawPodman_success_creates_and_starts_witness :
  let mo := mkFileMountOptions "pods/db.yaml" (Some "{web,docker.io/library/nginx}")
                               false in
  let mw := DemoPod.world ∅ in
  let raw := mkRawPod "docker.io/library/postgres" "db" ∅ [] [] [] in
  exists mw0,
    deleteContainer "web" mw = (mw0, None) /\
    ioutil_ReadFile "pods/db.yaml" (mw_pod mw0)
    = inr (list_byte_of_string "db docker.io/library/postgres") /\
    rawPodFromBytes (list_byte_of_string "db docker.io/library/postgres") = Ok raw /\
    mw_trace (fst (rawPodman mo mw))
    = [EvStop "web"; EvRemove "web"; EvReadFile "pods/db.yaml";
       EvExists "docker.io/library/postgres"; EvPull "docker.io/library/postgres";
       EvInspect "db"; EvCreateWithSpec (createSpecGen raw); EvStart "id-db"] /\
    DemoPod.containers (mw_pod (fst (rawPodman mo mw)))
    = ["db"; "stubborn"; "pinned"].
Proof.
  intros mo mw raw.
  destruct (rawPodman_success_creates_and_starts mo mw (fst (rawPodman mo mw)))
    as (mw0 & rawFile & raw' & id & evs & Hok).
  - discriminate.
  - reflexivity.
  - cbv zeta in Hok.
    destruct Hok as ((old & Hold & Hdel) & Hread & Hdec & _).
    injection Hold as <-.
    exists mw0. split; [exact Hdel|].
    injection Hdel as <-.
    split; [reflexivity|]. split; [reflexivity|]. split; reflexivity.
Defined.

Lemma removeExisting_returns_Stop_error_witness :
  let mw := DemoPod.world ∅ in
  snd (containers_Stop "stubborn" DemoPod.machine)
  = Some (ErrExternal "cannot stop") /\
  removeExisting "ghost" mw
  = (called mw DemoPod.machine (EvInspect "ghost"), None).
Proof.
  intros mw. split.
  - exact (proj1 (removeExisting_returns_Stop_error "stubborn" mw
                    (fst (removeExisting "stubborn" mw))
                    (ErrExternal "cannot stop")) eq_refl).
  - exact (proj2 (removeExisting_returns_Stop_error "ghost" mw mw
                    (ErrExternal "cannot stop"))
                 (ErrExternal "no such container") eq_refl).
Defined.

Lemma systemctl_container_specification_witness :
  let mw := DemoPod.world ∅ in
  let s :=
    systemdSpecGen DemoPod.service "autoupdate" systemdPathRoot
      podmanAutoUpdateTimer
      (Setenv "ROOT" "false" (fst (detectOrFetchImage systemdImage false mw))) in
  sg_Env s !! "ACTION" = Some "enable" /\
  sg_Env s !! "SERVICE" = Some podmanAutoUpdateTimer /\
  sg_Privileged s = true /\
  In (mkMount systemdPathRoot systemdPathRoot TypeBind ["rw"]) (sg_Mounts s).
Proof.
  intros mw s.
  destruct (systemctl_container_specification DemoPod.service "autoupdate"
              systemdPathRoot podmanAutoUpdateTimer mw s)
    as (_ & Hpriv & _ & Hservice & Haction & _ & _ & _ & _ & _ & Hdest & _).
  - vm_compute. right. right. right. left. reflexivity.
  - simpl. tauto.
  - split; [exact Haction|]. split; [exact Hservice|].
    split; [exact Hpriv|exact Hdest].
Defined.

Lemma systemdPodman_enabled_runs_one_action_witness :
  let mw := DemoPod.world ∅ in
  systemdPodman DemoPod.service "units/web.service" systemdPathRoot None mw
  = enableRestartSystemdService DemoPod.service "enable" systemdPathRoot
      (filepath_Base "units/web.service") mw.
Proof.
  intros mw.
  exact (proj1 (systemdPodman_enabled_runs_one_action DemoPod.service
                  "units/web.service" systemdPathRoot None mw eq_refl eq_refl)
               eq_refl).
Defined.

Lemma systemdPodman_disabled_only_places_files_witness :
  let sd := mkSystemd "units" "units" true false false true false in
  let mw := DemoPod.world ∅ in
  mw_trace (fst (systemdPodman sd "units/web.service" systemdPathRoot None mw))
  = [EvFileTransfer "units" "units/web.service" systemdPathRoot None] /\
  mw_env (fst (systemdPodman sd "units/web.service" systemdPathRoot None mw)) = ∅.
Proof.
  intros sd mw.
  destruct (systemdPodman_disabled_only_places_files sd "units/web.service"
              systemdPathRoot None mw eq_refl eq_refl) as (Htrace & Henv & _).
  split; [exact Htrace|exact Henv].
Defined.

Lemma MethodEngine_on_a_change_enables_witness :
  let change := mkChange (mkChangeEntry "") (mkChangeEntry "web.service") in
  let sd := mkSystemd "units" "units" false false false true true in
  (exists err,
     MethodEngine sd (Some change) "units/web.service" (DemoPod.world ∅)
     = (sd, DemoPod.world ∅, Some err)) /\
  let mw := DemoPod.world (<["HOME" := "/root"]> ∅) in
  fst (fst (MethodEngine sd (Some change) "units/web.service" mw))
  = set_initialRun sd true /\
  exists evs,
    mw_trace (snd (fst (MethodEngine sd (Some change) "units/web.service" mw)))
    = [] ++ evs /\
    (forall s, In (EvCreateAndStart s) evs -> sg_Env s !! "ACTION" = Some "enable") /\
    exists rest,
      evs = EvFileTransfer "units" "units/web.service"
              (filepath_Join ["/root"; ".config"; "systemd"; "user"])
              (Some "web.service") :: rest.
Proof.
  intros change sd. split.
  - exact (proj1 (MethodEngine_on_a_change_enables sd change "units/web.service"
                    (DemoPod.world ∅)) eq_refl).
  - intros mw.
    destruct (proj2 (MethodEngine_on_a_change_enables sd change
                       "units/web.service" mw) ltac:(discriminate))
      as (Hsd & evs & Htrace & Haction & Hfirst).
    split; [exact Hsd|]. exists evs.
    split; [exact Htrace|]. split; [exact Haction|exact (Hfirst eq_refl)].
Defined.

Lemma Process_sets_up_auto_update_once_witness :
  let sd := mkSystemd "units" "units" true true false false false in
  let mw := DemoPod.world ∅ in
  initialRun (fst (Process sd "token" mw)) = false /\
  Process (fst (Process sd "token" mw)) "token"
          (DemoPod.world (<["HOME" := "/root"]> ∅))
  = (fst (Process sd "token" mw), DemoPod.world (<["HOME" := "/root"]> ∅)) /\
  snd (Process sd "token" mw) = mw.
Proof.
  intros sd mw.
  destruct (Process_sets_up_auto_update_once sd "token" "token" mw
              (DemoPod.world (<["HOME" := "/root"]> ∅)) eq_refl)
    as (Hrun & Hlater & _ & Hhome).
  split; [exact Hrun|]. split; [exact Hlater|exact (Hhome eq_refl)].
Defined.
